(** * The message bus: Message values and the EventBus

    A shallow embedding of [src/message.py] and [src/event_bus.py].

    Python objects that the code mutates or copies (dictionaries) live in an
    explicit store and are handled through references, so that aliasing and
    in-place mutation ([dict.pop], [dict.update]) are visible.  Code that can
    raise returns a [result]; code that both touches the store and can raise
    lives in the monad [M]. *)

From Stdlib Require Import Floats.PrimFloat.
From stdpp Require Import gmap strings list fin_maps pretty.

Local Open Scope string_scope.
Local Open Scope Z_scope.

(** ** The [MessageType] enumeration *)

Module MessageType.

Inductive t :=
(* Audio and transcription related messages *)
| AUDIO_CAPTURED
| TRANSCRIPTION_COMPLETE
(* Semantic analysis related messages *)
| SEMANTIC_ANALYSIS_COMPLETE
| INTENT_CLASSIFIED
| THEME_DETECTED
(* Decision and action item related messages *)
| DECISIONS_EXTRACTED
| ACTION_ITEMS_EXTRACTED
| RISKS_EXTRACTED
| SUMMARY_GENERATED
(* Task management related messages *)
| TASK_CREATED
| TASK_UPDATED
| REMINDER_SENT
| ESCALATION_TRIGGERED
(* System messages *)
| ERROR
| LOG
| SYSTEM_COMMAND
| CONFIG_UPDATED
(* Memory related messages *)
| MEMORY_STORED
| MEMORY_RETRIEVED
| CONTEXT_UPDATED.

(** [member.name] *)
Definition name (x : t) : string :=
  match x with
  | AUDIO_CAPTURED => "AUDIO_CAPTURED"
  | TRANSCRIPTION_COMPLETE => "TRANSCRIPTION_COMPLETE"
  | SEMANTIC_ANALYSIS_COMPLETE => "SEMANTIC_ANALYSIS_COMPLETE"
  | INTENT_CLASSIFIED => "INTENT_CLASSIFIED"
  | THEME_DETECTED => "THEME_DETECTED"
  | DECISIONS_EXTRACTED => "DECISIONS_EXTRACTED"
  | ACTION_ITEMS_EXTRACTED => "ACTION_ITEMS_EXTRACTED"
  | RISKS_EXTRACTED => "RISKS_EXTRACTED"
  | SUMMARY_GENERATED => "SUMMARY_GENERATED"
  | TASK_CREATED => "TASK_CREATED"
  | TASK_UPDATED => "TASK_UPDATED"
  | REMINDER_SENT => "REMINDER_SENT"
  | ESCALATION_TRIGGERED => "ESCALATION_TRIGGERED"
  | ERROR => "ERROR"
  | LOG => "LOG"
  | SYSTEM_COMMAND => "SYSTEM_COMMAND"
  | CONFIG_UPDATED => "CONFIG_UPDATED"
  | MEMORY_STORED => "MEMORY_STORED"
  | MEMORY_RETRIEVED => "MEMORY_RETRIEVED"
  | CONTEXT_UPDATED => "CONTEXT_UPDATED"
  end.

(** Definition order, as iterating the enum class yields it. *)
Definition members : list t :=
  [ AUDIO_CAPTURED; TRANSCRIPTION_COMPLETE; SEMANTIC_ANALYSIS_COMPLETE;
    INTENT_CLASSIFIED; THEME_DETECTED; DECISIONS_EXTRACTED;
    ACTION_ITEMS_EXTRACTED; RISKS_EXTRACTED; SUMMARY_GENERATED;
    TASK_CREATED; TASK_UPDATED; REMINDER_SENT; ESCALATION_TRIGGERED;
    ERROR; LOG; SYSTEM_COMMAND; CONFIG_UPDATED; MEMORY_STORED;
    MEMORY_RETRIEVED; CONTEXT_UPDATED ].

(** [member.value]: [auto()] numbers the members from 1. *)
Definition value (x : t) : nat :=
  match x with
  | AUDIO_CAPTURED => 1
  | TRANSCRIPTION_COMPLETE => 2
  | SEMANTIC_ANALYSIS_COMPLETE => 3
  | INTENT_CLASSIFIED => 4
  | THEME_DETECTED => 5
  | DECISIONS_EXTRACTED => 6
  | ACTION_ITEMS_EXTRACTED => 7
  | RISKS_EXTRACTED => 8
  | SUMMARY_GENERATED => 9
  | TASK_CREATED => 10
  | TASK_UPDATED => 11
  | REMINDER_SENT => 12
  | ESCALATION_TRIGGERED => 13
  | ERROR => 14
  | LOG => 15
  | SYSTEM_COMMAND => 16
  | CONFIG_UPDATED => 17
  | MEMORY_STORED => 18
  | MEMORY_RETRIEVED => 19
  | CONTEXT_UPDATED => 20
  end%nat.

(** [MessageType(n)], by value: position [n - 1] in definition order. *)
Definition of_value (n : nat) : option t :=
  match n with
  | O => None
  | S i => members !! i
  end.

(** [MessageType[s]], by name; [None] stands for the [KeyError]. *)
Definition getitem (s : string) : option t :=
  List.find (λ x, String.eqb (name x) s) members.

#[global] Instance eq_dec : EqDecision t.
Proof. solve_decision. Defined.

#[global] Instance countable : Countable t.
Proof.
  apply (inj_countable value of_value).
  intros []; reflexivity.
Defined.

End MessageType.

(** ** Python values, the store, exceptions *)

(** References to dictionary objects. *)
Abbreviation loc := positive (only parsing).

(** The values a field, a payload entry or a record entry can hold.  Only
    dictionaries are objects with identity; they are held by reference. *)
Inductive PyVal :=
| PNone
| PBool (b : bool)
| PInt (z : Z)
| PFloat (f : float)
| PStr (s : string)
| PEnum (x : MessageType.t)
| PRef (l : loc).

(** A [dict] with string keys, and the store of all live dictionaries. *)
Abbreviation dict := (gmap string PyVal) (only parsing).
Abbreviation Store := (gmap positive (gmap string PyVal)) (only parsing).

(** The exceptions the modelled code raises.  [DanglingRef] is not a Python
    exception: it marks a reference outside the store, which no Python program
    can hold. *)
Inductive exn :=
| ValueError
| KeyError
| TypeError
| IndexError
| RuntimeError
| DanglingRef.

Inductive result (A : Type) :=
| Ok (a : A)
| Raise (e : exn).
Arguments Ok {A} a.
Arguments Raise {A} e.

(** Computations that read and write the store and may raise.  The store is
    returned in both cases: what was mutated before a [raise] stays mutated. *)
Definition M (A : Type) : Type := Store → Store * result A.

Definition ret {A} (a : A) : M A := λ σ, (σ, Ok a).

Definition raise {A} (e : exn) : M A := λ σ, (σ, Raise e).

Definition bind {A B} (c : M A) (k : A → M B) : M B :=
  λ σ, match c σ with
       | (σ', Ok a) => k a σ'
       | (σ', Raise e) => (σ', Raise e)
       end.

Notation "'let*' x ':=' c 'in' k" := (bind c (λ x, k))
  (at level 10, x pattern, c at level 100, k at level 200).

Definition lift {A} (r : result A) : M A := λ σ, (σ, r).

(** A new dictionary object, at an address not in use. *)
Definition alloc (d : dict) : M loc :=
  λ σ, let l := fresh (dom σ) in (<[l := d]> σ, Ok l).

Definition load (l : loc) : M dict :=
  λ σ, match σ !! l with
       | Some d => (σ, Ok d)
       | None => (σ, Raise DanglingRef)
       end.

Definition store (l : loc) (d : dict) : M unit :=
  λ σ, (<[l := d]> σ, Ok tt).

(** [dict(v)]: a shallow copy of a dictionary.  On the other values of
    [PyVal]: the empty string is an empty iterable, a non-empty string yields
    one-character items ([ValueError]), the rest is not iterable. *)
Definition py_dict (v : PyVal) : M loc :=
  match v with
  | PRef l => let* d := load l in alloc d
  | PStr "" => alloc ∅
  | PStr _ => raise ValueError
  | _ => raise TypeError
  end.

(** [d.get(key, default)] *)
Definition dict_get (d : dict) (key : string) (default : PyVal) : PyVal :=
  match d !! key with
  | Some v => v
  | None => default
  end.

(** [data.pop(key)]: removes the entry in place. *)
Definition dict_pop (l : loc) (key : string) : M PyVal :=
  let* d := load l in
  match d !! key with
  | Some v => let* _ := store l (delete key d) in ret v
  | None => raise KeyError
  end.

(** [d.update(other)]: entries of [other] replace those of [d]. *)
Definition dict_update (l : loc) (other : dict) : M unit :=
  let* d := load l in store l (other ∪ d).

(** ** [class Message] *)

Module Message.

(** The dataclass fields, in declaration order, then the attribute
    [type_name] that [__post_init__] adds.  After [__post_init__] the field
    [type] always holds an enum member; the other fields hold whatever the
    caller passed, the annotations are not enforced. *)
Record t := {
  type : MessageType.t;
  content : PyVal;
  sender : PyVal;
  recipient : PyVal;
  timestamp : PyVal;
  message_id : PyVal;
  parent_id : PyVal;
  context_id : PyVal;
  thread_id : PyVal;
  priority : PyVal;
  ttl : PyVal;
  metadata : PyVal;
  type_name : string
}.

(** [__post_init__], on the value passed as [type]: an enum member is kept;
    anything else is looked up by name, and both a [KeyError] (unknown name,
    or a hashable non-string) and a [TypeError] (an unhashable value)
    become a [ValueError]. *)
Definition __post_init__ (type : PyVal) : result (MessageType.t * string) :=
  match type with
  | PEnum x => Ok (x, MessageType.name x)
  | PStr s =>
      match MessageType.getitem s with
      | Some x => Ok (x, MessageType.name x)
      | None => Raise ValueError
      end
  | _ => Raise ValueError
  end.

(** [Message(type=..., content=..., ...)] with every field given; callers
    pass the defaults of the dataclass themselves. *)
Definition __init__
    (type content sender recipient timestamp message_id
     parent_id context_id thread_id priority ttl metadata : PyVal)
    : result t :=
  match __post_init__ type with
  | Ok (x, n) =>
      Ok {| type := x; content := content; sender := sender;
            recipient := recipient; timestamp := timestamp;
            message_id := message_id; parent_id := parent_id;
            context_id := context_id; thread_id := thread_id;
            priority := priority; ttl := ttl; metadata := metadata;
            type_name := n |}
  | Raise e => Raise e
  end.

(** [with_content], called with keyword arguments [kwargs].  [now] and
    [uid] are what [time.time()] and [str(uuid.uuid4())] return for the
    default [timestamp] and [message_id] of the new message. *)
Definition with_content (self : t) (kwargs : dict) (now : float) (uid : string)
    : M t :=
  (* Create a shallow copy of the content dictionary *)
  let* new_content := py_dict (content self) in
  (* Update with the provided key-value pairs *)
  let* _ := dict_update new_content kwargs in
  (* Create a new message with the updated content *)
  let* new_metadata := py_dict (metadata self) in
  lift (__init__
          (PEnum (type self))
          (PRef new_content)
          (sender self)
          (recipient self)
          (PFloat now)
          (PStr uid)
          (message_id self)
          (context_id self)
          (thread_id self)
          (priority self)
          (ttl self)
          (PRef new_metadata)).

(** [create_reply(message_type, content)]; [ttl] is not passed and takes
    its default [None]. *)
Definition create_reply (self : t) (message_type content : PyVal)
    (now : float) (uid : string) : M t :=
  let* new_metadata := py_dict (metadata self) in
  lift (__init__
          message_type
          content
          (recipient self)
          (sender self)
          (PFloat now)
          (PStr uid)
          (message_id self)
          (context_id self)
          (thread_id self)
          (priority self)
          PNone
          (PRef new_metadata)).

(** [to_dict()]: a new dictionary; [content] and [metadata] are stored by
    reference, not copied. *)
Definition to_dict (self : t) : M loc :=
  alloc (<["message_id" := message_id self]>
        (<["type" := PStr (type_name self)]>
        (<["content" := content self]>
        (<["sender" := sender self]>
        (<["recipient" := recipient self]>
        (<["timestamp" := timestamp self]>
        (<["parent_id" := parent_id self]>
        (<["context_id" := context_id self]>
        (<["thread_id" := thread_id self]>
        (<["priority" := priority self]>
        (<["ttl" := ttl self]>
        (<["metadata" := metadata self]> ∅)))))))))))).

(** [from_dict(data)].  The arguments of [cls(...)] are evaluated before
    the call: the two [{}] defaults are allocated, the clock and the uuid
    generator are consulted ([now], [uid]), whether or not they are used. *)
Definition from_dict (data : loc) (now : float) (uid : string) : M t :=
  (* Handle the message type conversion *)
  let* msg_type := dict_pop data "type" in
  let* msg_type :=
    match msg_type with
    | PStr s =>
        match MessageType.getitem s with
        | Some x => ret (PEnum x)
        | None => raise ValueError
        end
    | v => ret v
    end in
  (* Create the message from the dictionary *)
  let* data' := load data in
  let* empty_content := alloc ∅ in
  let* empty_metadata := alloc ∅ in
  lift (__init__
          msg_type
          (dict_get data' "content" (PRef empty_content))
          (dict_get data' "sender" PNone)
          (dict_get data' "recipient" PNone)
          (dict_get data' "timestamp" (PFloat now))
          (dict_get data' "message_id" (PStr uid))
          (dict_get data' "parent_id" PNone)
          (dict_get data' "context_id" PNone)
          (dict_get data' "thread_id" PNone)
          (dict_get data' "priority" (PInt 0))
          (dict_get data' "ttl" PNone)
          (dict_get data' "metadata" (PRef empty_metadata))).

End Message.

(** ** [class EventBus] *)

Module EventBus.

(** What invoking a subscriber callback does: it may mutate dictionaries
    and then either returns or raises an [Exception] [e], of which the bus
    only ever reads [str(e)]. *)
Inductive Outcome :=
| Returned
| Raised (text : string).

Definition Callback : Type := Message.t → Store → Store * Outcome.

(** Keys of the [subscribers] dictionary.  [subscribe] is annotated, and
    called by the agents, with a string; [publish] looks [message.type] up,
    an enum member.  A member of a plain [Enum] is equal to no string. *)
Inductive EventKey :=
| KStr (s : string)
| KEnum (x : MessageType.t).

#[global] Instance EventKey_eq_dec : EqDecision EventKey.
Proof. solve_decision. Defined.

#[global] Instance EventKey_countable : Countable EventKey.
Proof.
  apply (inj_countable'
           (λ k, match k with KStr s => inl s | KEnum x => inr x end)
           (λ c, match c with inl s => KStr s | inr x => KEnum x end)).
  intros []; reflexivity.
Defined.

(** How an f-string renders a key. *)
Definition key_str (k : EventKey) : string :=
  match k with
  | KStr s => s
  | KEnum x => "MessageType." ++ MessageType.name x
  end.

(** What [publish] can be handed: a [Message] or something else. *)
Inductive PyObject :=
| ObjMessage (m : Message.t)
| ObjValue (v : PyVal).

(** How an f-string renders [type(v)]. *)
Definition type_str (v : PyVal) : string :=
  match v with
  | PNone => "<class 'NoneType'>"
  | PBool _ => "<class 'bool'>"
  | PInt _ => "<class 'int'>"
  | PFloat _ => "<class 'float'>"
  | PStr _ => "<class 'str'>"
  | PEnum _ => "<enum 'MessageType'>"
  | PRef _ => "<class 'dict'>"
  end.

Inductive Level := DEBUG | INFO | ERROR.

(** The bus.  The executor and the event loop are kept as what the bus can
    observe of them: whether they were shut down or closed, and the
    coroutines handed to the loop and not yet run, oldest first.  [logger]
    is the sequence of logging calls made so far. *)
Record t := {
  logger : list (Level * string);
  subscribers : gmap EventKey (list (string * Callback));
  max_workers : Z;
  executor_shutdown : bool;
  loop_closed : bool;
  loop_ready : list (Callback * Message.t);
  message_history : list Message.t;
  max_history_size : Z
}.

Definition log (lvl : Level) (text : string) (self : t) : t :=
  {| logger := (logger self ++ [(lvl, text)])%list;
     subscribers := subscribers self;
     max_workers := max_workers self;
     executor_shutdown := executor_shutdown self;
     loop_closed := loop_closed self;
     loop_ready := loop_ready self;
     message_history := message_history self;
     max_history_size := max_history_size self |}.

Definition set_subscribers (s : gmap EventKey (list (string * Callback)))
    (self : t) : t :=
  {| logger := logger self;
     subscribers := s;
     max_workers := max_workers self;
     executor_shutdown := executor_shutdown self;
     loop_closed := loop_closed self;
     loop_ready := loop_ready self;
     message_history := message_history self;
     max_history_size := max_history_size self |}.

Definition set_message_history (h : list Message.t) (self : t) : t :=
  {| logger := logger self;
     subscribers := subscribers self;
     max_workers := max_workers self;
     executor_shutdown := executor_shutdown self;
     loop_closed := loop_closed self;
     loop_ready := loop_ready self;
     message_history := h;
     max_history_size := max_history_size self |}.

Definition set_loop_ready (r : list (Callback * Message.t)) (self : t) : t :=
  {| logger := logger self;
     subscribers := subscribers self;
     max_workers := max_workers self;
     executor_shutdown := executor_shutdown self;
     loop_closed := loop_closed self;
     loop_ready := r;
     message_history := message_history self;
     max_history_size := max_history_size self |}.

(** [EventBus(config)].  The two settings read from [config] are integers;
    [ThreadPoolExecutor] refuses a worker count below 1. *)
Definition __init__ (config : option (gmap string Z)) : result t :=
  let config := default ∅ config in
  let max_workers := default 10 (config !! "max_workers") in
  if max_workers <=? 0 then Raise ValueError
  else
    Ok (log INFO "Event bus initialized"
          {| logger := [];
             subscribers := ∅;
             max_workers := max_workers;
             executor_shutdown := false;
             loop_closed := false;
             loop_ready := [];
             message_history := [];
             max_history_size := default 1000 (config !! "max_history_size") |}).

(** [subscribe(event_type, callback)]; [uid] is [str(uuid.uuid4())]. *)
Definition subscribe (event_type : EventKey) (callback : Callback)
    (uid : string) (self : t) : t * string :=
  let subscription_id := uid in
  let self :=
    set_subscribers
      (<[event_type :=
           (default [] (subscribers self !! event_type)
              ++ [(subscription_id, callback)])%list]> (subscribers self))
      self in
  let self :=
    log DEBUG ("Added subscription to " ++ key_str event_type
                 ++ ", ID: " ++ subscription_id) self in
  (self, subscription_id).

Definition unsubscribe (event_type : EventKey) (subscription_id : string)
    (self : t) : t * bool :=
  match subscribers self !! event_type with
  | None => (self, false)
  | Some subs =>
      let initial_length := length subs in
      let subs' :=
        filter (λ sc : string * Callback, sc.1 ≠ subscription_id) subs in
      let self := set_subscribers (<[event_type := subs']> (subscribers self)) self in
      let success := bool_decide (length subs' < initial_length)%nat in
      let self :=
        if success
        then log DEBUG ("Removed subscription to " ++ key_str event_type
                          ++ ", ID: " ++ subscription_id) self
        else self in
      (* Clean up empty event types *)
      let self :=
        match subs' with
        | [] => set_subscribers (delete event_type (subscribers self)) self
        | _ => self
        end in
      (self, success)
  end.

(** [asyncio.run_coroutine_threadsafe(self._async_call_subscriber(callback,
    message), self.loop)]: the coroutine is queued on the loop; a closed
    loop refuses it with a [RuntimeError]. *)
Definition run_coroutine_threadsafe (callback : Callback) (message : Message.t)
    (self : t) : t * result unit :=
  if loop_closed self then (self, Raise RuntimeError)
  else (set_loop_ready (loop_ready self ++ [(callback, message)])%list self, Ok tt).

(** The [for _, callback in self.subscribers[event_type]] loop of
    [publish]; an exception leaves the loop. *)
Fixpoint publish_loop (subs : list (string * Callback)) (message : Message.t)
    (self : t) : t * result unit :=
  match subs with
  | [] => (self, Ok tt)
  | (_, callback) :: subs' =>
      match run_coroutine_threadsafe callback message self with
      | (self, Ok _) => publish_loop subs' message self
      | (self, Raise e) => (self, Raise e)
      end
  end.

Definition publish (message : PyObject) (self : t) : t * result unit :=
  match message with
  | ObjValue v =>
      (log ERROR ("Cannot publish: expected Message object, got " ++ type_str v)
         self, Ok tt)
  | ObjMessage message =>
      (* Add to message history *)
      let popped :=
        if Z.of_nat (length (message_history self)) >=? max_history_size self
        then match message_history self with
             | [] => Raise IndexError
             | _ :: h => Ok h  (* Remove oldest message *)
             end
        else Ok (message_history self) in
      match popped with
      | Raise e => (self, Raise e)
      | Ok h =>
          let self := set_message_history (h ++ [message])%list self in
          (* Get all subscribers for this event type *)
          let event_type := KEnum (Message.type message) in
          match subscribers self !! event_type with
          | None =>
              (log DEBUG ("No subscribers for event type: " ++ key_str event_type)
                 self, Ok tt)
          | Some subs =>
              let subscriber_count := length subs in
              let self :=
                log DEBUG ("Publishing " ++ key_str event_type ++ " event to "
                             ++ pretty subscriber_count ++ " subscribers") self in
              (* Process in event loop to ensure thread safety *)
              publish_loop subs message self
          end
      end
  end.


(** Python's [l[start:]]. *)
Definition slice_from {A} (start : Z) (l : list A) : list A :=
  let n := Z.of_nat (length l) in
  let start := if start <? 0 then Z.max 0 (start + n) else Z.min start n in
  drop (Z.to_nat start) l.

(** [get_recent_messages(limit)]; the default [limit] is 50. *)
Definition get_recent_messages (limit : Z) (self : t) : list Message.t :=
  match message_history self with
  | [] => []
  | h => slice_from (- limit) h
  end.

(** [shutdown()].  No task exists on a loop that was not run, so the
    cancelling loop has nothing to iterate over; closing the loop drops
    what was queued on it. *)
Definition shutdown (self : t) : t :=
  let self := log INFO "Shutting down event bus" self in
  let self :=
    {| logger := logger self;
       subscribers := subscribers self;
       max_workers := max_workers self;
       executor_shutdown := true;
       loop_closed := true;
       loop_ready := [];
       message_history := message_history self;
       max_history_size := max_history_size self |} in
  log INFO "Event bus shut down" self.

End EventBus.

(** ** The surroundings of the bus *)

Module Loop.
Import EventBus.



End Loop.

(** A producer that publishes the messages of [ms] one after the other and
    goes on when a [publish] raises. *)
Fixpoint publish_all (ms : list Message.t) (bus : EventBus.t) : EventBus.t :=
  match ms with
  | [] => bus
  | m :: ms' => publish_all ms' (EventBus.publish (EventBus.ObjMessage m) bus).1
  end.


(** The last [n] elements of a list, oldest first. *)
Definition last_n {A} (n : nat) (l : list A) : list A :=
  drop (length l - n) l.

(** [needle in hay], on strings. *)
Fixpoint contains (needle hay : string) : bool :=
  String.prefix needle hay
  || match hay with
     | EmptyString => false
     | String _ hay' => contains needle hay'
     end.


(** A value stored as a message's kind is recognized when it is an enum
    member or the name of one. *)
Definition recognized (v : PyVal) : Prop :=
  ∃ x, v = PEnum x ∨ v = PStr (MessageType.name x).

(** The attribute [type_name] agrees with the field [type], as
    [__post_init__] leaves them. *)
Definition type_name_in_sync (m : Message.t) : Prop :=
  Message.type_name m = MessageType.name (Message.type m).

(** ** [class BaseAgent] *)

Module BaseAgent.

(** A piece of a formatted log message: literal text, or a value that the
    f-string renders with [str]. *)
Inductive Piece :=
| Text (s : string)
| Value (v : PyVal)
| Names (l : list string).

(** The attributes the methods below use.  [event_bus] tells whether the
    attribute holds the bus or [None]; the bus itself is one shared object
    and is passed to and returned by the methods that call it. *)
Record t := {
  agent_type : string;
  logger : list (EventBus.Level * list Piece);
  event_bus : bool;
  agent_id : option string
}.

Definition log (lvl : EventBus.Level) (msg : list Piece) (self : t) : t :=
  {| agent_type := agent_type self;
     logger := (logger self ++ [(lvl, msg)])%list;
     event_bus := event_bus self;
     agent_id := agent_id self |}.

(** The two abstract methods.  [handle_message] may change the agent and
    the store and may raise. *)
Class Handlers := {
  handle_message : t → Message.t → Store → t * Store * EventBus.Outcome;
  get_subscribed_events : t → list string
}.

(** [message.sender == self.agent_id], for an [agent_id] that is a string
    or [None]. *)
Definition sender_is (sender : PyVal) (agent_id : option string) : bool :=
  match sender, agent_id with
  | PStr s, Some a => String.eqb s a
  | PNone, None => true
  | _, _ => false
  end.

(** [self.agent_id] as a value. *)
Definition id_value (agent_id : option string) : PyVal :=
  match agent_id with
  | Some a => PStr a
  | None => PNone
  end.

(** [message.sender = v]: the message object after the assignment. *)
Definition set_sender (v : PyVal) (message : Message.t) : Message.t :=
  {| Message.type := Message.type message;
     Message.content := Message.content message;
     Message.sender := v;
     Message.recipient := Message.recipient message;
     Message.timestamp := Message.timestamp message;
     Message.message_id := Message.message_id message;
     Message.parent_id := Message.parent_id message;
     Message.context_id := Message.context_id message;
     Message.thread_id := Message.thread_id message;
     Message.priority := Message.priority message;
     Message.ttl := Message.ttl message;
     Message.metadata := Message.metadata message;
     Message.type_name := Message.type_name message |}.

Section Methods.
Context `{Handlers}.

(** [process_message(message)] *)
Definition process_message (self : t) (message : Message.t) (σ : Store)
    : t * Store * EventBus.Outcome :=
  if sender_is (Message.sender message) (agent_id self) then
    (* Don't process our own messages *)
    (self, σ, EventBus.Returned)
  else
    let self :=
      log EventBus.DEBUG
        [Text "Processing message of type ";
         Text (EventBus.key_str (EventBus.KEnum (Message.type message)));
         Text " from "; Value (Message.sender message)] self in
    (* Delegate to the handle_message method for agent-specific processing *)
    handle_message self message σ.

(** The bound method [self.process_message] as the bus stores and calls
    it: of what the call does, the bus sees the store and the outcome. *)
Definition process_message_callback (self : t) : EventBus.Callback :=
  λ message σ,
    let '(_, σ', outcome) := process_message self message σ in (σ', outcome).

(** The [for event_type in event_types] loop of [register]; the [i]-th
    call of [subscribe] draws the uuid [uids i]. *)
Fixpoint subscribe_each (event_types : list string)
    (callback : EventBus.Callback) (uids : nat → string) (i : nat)
    (bus : EventBus.t) : EventBus.t :=
  match event_types with
  | [] => bus
  | event_type :: event_types' =>
      subscribe_each event_types' callback uids (S i)
        (EventBus.subscribe (EventBus.KStr event_type) callback (uids i) bus).1
  end.

(** [register(event_bus, agent_id)] *)
Definition register (self : t) (bus : EventBus.t) (agent_id : string)
    (uids : nat → string) : t * EventBus.t :=
  let self :=
    {| agent_type := agent_type self;
       logger := logger self;
       event_bus := true;
       agent_id := Some agent_id |} in
  let self :=
    log EventBus.INFO
      [Text "Agent "; Text agent_id; Text " registered with event bus"] self in
  (* Subscribe to relevant event types *)
  let event_types := get_subscribed_events self in
  let bus :=
    subscribe_each event_types (process_message_callback self) uids 0 bus in
  (log EventBus.INFO [Text "Subscribed to events: "; Names event_types] self,
   bus).

(** [send_message(message)]: the agent, the bus and the message object
    after the call, and whether the call raised. *)
Definition send_message (self : t) (message : Message.t) (bus : EventBus.t)
    : t * EventBus.t * Message.t * result unit :=
  if negb (event_bus self) then
    (log EventBus.ERROR
       [Text "Cannot send message: Agent not registered with event bus"] self,
     bus, message, Ok tt)
  else
    let message := set_sender (id_value (agent_id self)) message in
    match EventBus.publish (EventBus.ObjMessage message) bus with
    | (bus, Ok _) =>
        (log EventBus.DEBUG
           [Text "Sent message of type ";
            Text (EventBus.key_str (EventBus.KEnum (Message.type message)))]
           self,
         bus, message, Ok tt)
    | (bus, Raise e) => (self, bus, message, Raise e)
    end.

End Methods.

End BaseAgent.

(** [TranscriberAgent.get_subscribed_events()] *)
Definition transcriber_subscribed_events : list string :=
  [ MessageType.name MessageType.AUDIO_CAPTURED;
    MessageType.name MessageType.SYSTEM_COMMAND ].

(** The registry holds no empty list: a key is present exactly when it
    has a subscription. *)
Definition registry_ok (bus : EventBus.t) : Prop :=
  ∀ k, EventBus.subscribers bus !! k ≠ Some [].

(** The subscription ids stored under a key. *)
Definition ids_under (k : EventBus.EventKey) (bus : EventBus.t) : list string :=
  (default [] (EventBus.subscribers bus !! k)).*1.

(** The keys of the record [to_dict] writes, in the order it writes them. *)
Definition record_keys : list string :=
  [ "message_id"; "type"; "content"; "sender"; "recipient"; "timestamp";
    "parent_id"; "context_id"; "thread_id"; "priority"; "ttl"; "metadata" ].

(** ** Configuration *)

Module Config.

(** A configuration as a value: what [yaml.safe_load] returns, scalars,
    lists and dictionaries with string keys in the order of the file.  A
    dictionary holds a key once.  [process_env_vars] is followed on
    values; [deep_merge], which changes dictionaries that other
    dictionaries may hold, on dictionaries as objects. *)
#[warnings="-register-all"]
Inductive Value :=
| VNone
| VBool (b : bool)
| VInt (z : Z)
| VFloat (f : float)
| VStr (s : string)
| VList (items : list Value)
| VDict (items : list (string * Value)).

Inductive Level := DEBUG | INFO | WARNING | ERROR.

(** [d.get(key)] and [key in d] *)
Fixpoint lookup {A} (key : string) (d : list (string * A)) : option A :=
  match d with
  | [] => None
  | (k, v) :: d' => if String.eqb k key then Some v else lookup key d'
  end.

(** [d[key] = value]: in place for a key that is there, at the end for a
    new one. *)
Fixpoint set {A} (key : string) (value : A) (d : list (string * A))
    : list (string * A) :=
  match d with
  | [] => [(key, value)]
  | (k, v) :: d' =>
      if String.eqb k key then (k, value) :: d' else (k, v) :: set key value d'
  end.

(** [deep_merge] changes dictionaries in place, and one dictionary can
    be held under several keys, so for it dictionaries are objects in a
    heap.  [Obj] is a value as the code holds it, with a dictionary given
    by its address; the heap has, for each dictionary, its entries in
    insertion order. *)
#[warnings="-register-all"]
Inductive Obj :=
| ONone
| OBool (b : bool)
| OInt (z : Z)
| OFloat (f : float)
| OStr (s : string)
| OList (items : list Obj)
| ODict (l : loc).

Abbreviation Heap := (gmap loc (list (string * Obj))) (only parsing).

(** How a call can end other than by returning: the [RuntimeError] of a
    dictionary that changed size while it was iterated, the
    [RecursionError] of too many nested calls, and an address that holds
    no dictionary. *)
Inductive Error :=
| ChangedSize
| RecursionError
| NoDict.

(** The body of the loop of [deep_merge]; [recur] is the recursive call. *)
Definition merge_item (recur : loc → loc → Heap → Heap * option Error)
    (base : loc) (key : string) (value : Obj) (σ : Heap)
    : Heap * option Error :=
  match σ !! base with
  | None => (σ, Some NoDict)
  | Some d =>
      match lookup key d, value with
      | Some (ODict b), ODict o =>
          (* If both values are dictionaries, merge them recursively *)
          recur b o σ
      | _, _ =>
          (* Otherwise, override the value in the base dictionary *)
          (<[base := set key value d]> σ, None)
      end
  end.

(** [for key, value in override.items()], with [todo] entries to come of
    the [size] the dictionary had when the loop began.  Each step of the
    iterator first checks that the dictionary still has that size, then
    reads the next entry as it is at that moment. *)
Fixpoint merge_items (recur : loc → loc → Heap → Heap * option Error)
    (base override : loc) (size todo : nat) (σ : Heap)
    : Heap * option Error :=
  match σ !! override with
  | None => (σ, Some NoDict)
  | Some items =>
      if negb (length items =? size)%nat then (σ, Some ChangedSize)
      else
        match todo with
        | O => (σ, None)
        | S todo' =>
            match items !! (size - todo)%nat with
            | None => (σ, None)
            | Some (key, value) =>
                match merge_item recur base key value σ with
                | (σ, None) => merge_items recur base override size todo' σ
                | failed => failed
                end
            end
        end
  end.

(** [deep_merge(base, override)] on the dictionaries at two addresses,
    with room for [limit] nested calls: the heap after the call, and how
    the call ended. *)
Fixpoint deep_merge (limit : nat) (base override : loc) (σ : Heap)
    : Heap * option Error :=
  match limit with
  | O => (σ, Some RecursionError)
  | S limit' =>
      match σ !! override with
      | None => (σ, Some NoDict)
      | Some items =>
          merge_items (deep_merge limit') base override
            (length items) (length items) σ
      end
  end.

(** [s.endswith(suffix)] *)
Definition endswith (suffix s : string) : bool :=
  (String.length suffix <=? String.length s)%nat
  && String.eqb
       (String.substring (String.length s - String.length suffix)
          (String.length suffix) s)
       suffix.

(** A [str] is held as the UTF-8 bytes of its characters, so a character
    is a byte that is no continuation byte together with the continuation
    bytes that follow it.  Comparing, searching and concatenating agree on
    bytes and on characters; counting and slicing do not. *)
Definition continuation (c : Ascii.ascii) : bool :=
  match c with
  | Ascii.Ascii _ _ _ _ _ _ b6 b7 => b7 && negb b6
  end.

(** [len(s)] *)
Fixpoint len (s : string) : nat :=
  match s with
  | "" => O
  | String c s' => if continuation c then len s' else S (len s')
  end.

(** [s[:n]], for [n] that is not negative *)
Fixpoint slice_to (n : nat) (s : string) : string :=
  match s with
  | "" => ""
  | String c s' =>
      if continuation c then String c (slice_to n s')
      else match n with
           | O => ""
           | S n' => String c (slice_to n' s')
           end
  end.

(** The characters of a string, in order: [list(s)].  The first component
    holds the continuation bytes met before the first character. *)
Fixpoint split_chars (s : string) : string * list string :=
  match s with
  | "" => ("", [])
  | String c s' =>
      let '(run, chars) := split_chars s' in
      if continuation c then (String c run, chars)
      else ("", String c run :: chars)
  end.

Definition chars (s : string) : list string := (split_chars s).2.

Section Env.
(** [os.environ] *)
Variable environ : gmap string string.

(** The branch of [process_env_vars] for a string value of a dictionary:
    the value to store, if any, and the log record. *)
Definition replace_reference (value : string)
    : option (Value * (Level * string)) :=
  if String.prefix "${" value && endswith "}" value then
    (* Extract environment variable name *)
    let env_var := String.substring 2 (String.length value - 3) value in
    match environ !! env_var with
    | Some env_value =>
        Some (VStr env_value,
              (DEBUG, "Replaced environment variable " ++ env_var ++ " in config"))
    | None =>
        Some (VStr value,
              (WARNING, "Environment variable " ++ env_var ++ " not found"))
    end
  else None.

(** [process_env_vars(config)]: the configuration after the call and the
    log records written, in order. *)
Fixpoint process_env_vars (config : Value) : Value * list (Level * string) :=
  match config with
  | VDict items =>
      let '(items, logs) :=
        (fix each (items : list (string * Value))
           : list (string * Value) * list (Level * string) :=
           match items with
           | [] => ([], [])
           | (key, value) :: items' =>
               let '(value, logs) :=
                 match value with
                 | VDict _ | VList _ =>
                     (* Recursively process nested dictionaries and lists *)
                     process_env_vars value
                 | VStr s =>
                     match replace_reference s with
                     | Some (value', record) => (value', [record])
                     | None => (value, [])
                     end
                 | _ => (value, [])
                 end in
               let '(items', logs') := each items' in
               ((key, value) :: items', (logs ++ logs')%list)
           end) items in
      (VDict items, logs)
  | VList items =>
      let '(items, logs) :=
        (fix each (items : list Value) : list Value * list (Level * string) :=
           match items with
           | [] => ([], [])
           | item :: items' =>
               let '(item, logs) := process_env_vars item in
               let '(items', logs') := each items' in
               (item :: items', (logs ++ logs')%list)
           end) items in
      (VList items, logs)
  | _ => (config, [])
  end.

Definition required_vars : list string :=
  [ "OPENAI_API_KEY"; "JIRA_BASE_URL"; "JIRA_USERNAME"; "JIRA_API_TOKEN";
    "SLACK_BOT_TOKEN"; "SMTP_SERVER"; "EMAIL_USERNAME"; "EMAIL_PASSWORD" ].

(** ["*" * n] *)
Definition stars (n : nat) : string := String.concat "" (replicate n "*").

(** The loop of [get_required_env_vars]: [env_vars] and [missing_vars]
    after the variables of [vars] were looked at. *)
Fixpoint collect (vars : list string) (env_vars : list (string * string))
    (missing_vars : list string) : list (string * string) * list string :=
  match vars with
  | [] => (env_vars, missing_vars)
  | var :: vars' =>
      match environ !! var with
      | Some (String c value' as value) =>
          (* Mask sensitive values for logging *)
          if contains "API_KEY" var || contains "TOKEN" var
             || contains "PASSWORD" var
          then
            let masked_value := slice_to 4 value ++ stars (len value - 4) in
            collect vars' (set var masked_value env_vars) missing_vars
          else collect vars' (set var value env_vars) missing_vars
      | _ => collect vars' env_vars (missing_vars ++ [var])%list
      end
  end.

Definition get_required_env_vars
    : list (string * string) * list (Level * string) :=
  let '(env_vars, missing_vars) := collect required_vars [] [] in
  (env_vars,
   match missing_vars with
   | [] => []
   | _ => [(WARNING, "Missing required environment variables: "
                       ++ String.concat ", " missing_vars)]
   end).

End Env.

End Config.


(** Induction on configuration values, with the hypothesis for every item
    of a list and every value of a dictionary. *)
Section ValueInduction.
Import Config.
Variable P : Value → Prop.
Hypothesis HNone : P VNone.
Hypothesis HBool : ∀ b, P (VBool b).
Hypothesis HInt : ∀ z, P (VInt z).
Hypothesis HFloat : ∀ f, P (VFloat f).
Hypothesis HStr : ∀ s, P (VStr s).
Hypothesis HList : ∀ items, Forall P items → P (VList items).
Hypothesis HDict : ∀ items, Forall (λ kv, P kv.2) items → P (VDict items).

Fixpoint Value_induction (v : Value) : P v :=
  match v with
  | VNone => HNone
  | VBool b => HBool b
  | VInt z => HInt z
  | VFloat f => HFloat f
  | VStr s => HStr s
  | VList items =>
      HList items
        ((fix each (l : list Value) : Forall P l :=
            match l with
            | [] => List.Forall_nil P
            | x :: l' =>
                @List.Forall_cons _ P x l' (Value_induction x) (each l')
            end) items)
  | VDict items =>
      HDict items
        ((fix each (l : list (string * Value)) : Forall (λ kv, P kv.2) l :=
            match l with
            | [] => List.Forall_nil _
            | (k, x) :: l' =>
                @List.Forall_cons _ (λ kv, P kv.2) (k, x) l'
                  (Value_induction x) (each l')
            end) items)
  end.
End ValueInduction.


(** [included o r]: what the configuration [o] says, [r] says too: a
    dictionary of [o] is matched by a dictionary of [r] that includes each
    of its entries, anything else by an equal value. *)
Fixpoint included (o r : Config.Value) : Prop :=
  match o with
  | Config.VDict items =>
      match r with
      | Config.VDict ritems =>
          (fix each (l : list (string * Config.Value)) : Prop :=
             match l with
             | [] => True
             | (k, x) :: l' =>
                 match Config.lookup k ritems with
                 | Some rv => included x rv
                 | None => False
                 end
                 ∧ each l'
             end) items
      | _ => False
      end
  | _ => r = o
  end.

(** The merge of two configurations as values: what a dictionary that
    reads as [base] reads as once [override] was merged into it, when each
    dictionary is held in one place only. *)
Fixpoint tree_merge_into (override : Config.Value)
    (base : list (string * Config.Value)) : list (string * Config.Value) :=
  match override with
  | Config.VDict items =>
      (fix each (items : list (string * Config.Value))
           (base : list (string * Config.Value))
         : list (string * Config.Value) :=
         match items with
         | [] => base
         | (key, value) :: items' =>
             each items'
               match Config.lookup key base, value with
               | Some (Config.VDict b), Config.VDict _ =>
                   Config.set key (Config.VDict (tree_merge_into value b)) base
               | _, _ => Config.set key value base
               end
         end) items base
  | _ => base
  end.

Definition tree_merge (base override : list (string * Config.Value))
    : list (string * Config.Value) :=
  tree_merge_into (Config.VDict override) base.

(** What one round of the merge stores under the key. *)
Definition merged (base : list (string * Config.Value)) (k : string)
    (v : Config.Value) : Config.Value :=
  match Config.lookup k base, v with
  | Some (Config.VDict b), Config.VDict o =>
      Config.VDict (tree_merge b o)
  | _, _ => v
  end.

(** [reads σ v o]: in the heap [σ] the object [o] reads as the value [v]:
    following the addresses gives [v], and each dictionary met holds each
    key once. *)
Fixpoint reads (σ : gmap positive (list (string * Config.Obj)))
    (v : Config.Value) (o : Config.Obj) {struct v} : Prop :=
  match v, o with
  | Config.VNone, Config.ONone => True
  | Config.VBool b, Config.OBool b' => b' = b
  | Config.VInt z, Config.OInt z' => z' = z
  | Config.VFloat f, Config.OFloat f' => f' = f
  | Config.VStr s, Config.OStr s' => s' = s
  | Config.VList vs, Config.OList os =>
      (fix each (vs : list Config.Value) (os : list Config.Obj) {struct vs}
         : Prop :=
         match vs, os with
         | [], [] => True
         | v :: vs', o :: os' => reads σ v o ∧ each vs' os'
         | _, _ => False
         end) vs os
  | Config.VDict items, Config.ODict l =>
      match σ !! l with
      | None => False
      | Some d =>
          d.*1 = items.*1 ∧ NoDup items.*1
          ∧ (fix each (items : list (string * Config.Value)) : Prop :=
               match items with
               | [] => True
               | (k, v) :: items' =>
                   match Config.lookup k d with
                   | Some o => reads σ v o
                   | None => False
                   end
                   ∧ each items'
               end) items
      end
  | _, _ => False
  end.

(** The addresses of the dictionaries met when [o] is read as [v], each
    as often as it is met. *)
Fixpoint locs (σ : gmap positive (list (string * Config.Obj)))
    (v : Config.Value) (o : Config.Obj) {struct v} : list positive :=
  match v, o with
  | Config.VList vs, Config.OList os =>
      (fix each (vs : list Config.Value) (os : list Config.Obj) {struct vs}
         : list positive :=
         match vs, os with
         | v :: vs', o :: os' => (locs σ v o ++ each vs' os')%list
         | _, _ => []
         end) vs os
  | Config.VDict items, Config.ODict l =>
      l :: match σ !! l with
           | None => []
           | Some d =>
               (fix each (items : list (string * Config.Value))
                  : list positive :=
                  match items with
                  | [] => []
                  | (k, v) :: items' =>
                      (match Config.lookup k d with
                       | Some o => locs σ v o
                       | None => []
                       end ++ each items')%list
                  end) items
           end
  | _, _ => []
  end.

(** How deep dictionaries are nested in dictionaries. *)
Fixpoint depth (v : Config.Value) : nat :=
  match v with
  | Config.VDict items =>
      S ((fix each (items : list (string * Config.Value)) : nat :=
            match items with
            | [] => O
            | (_, v) :: items' => Nat.max (depth v) (each items')
            end) items)
  | _ => O
  end.

(** [covers σ v o r]: the object [r] holds all that the object [o], which
    reads as [v], says: where [o] has a dictionary [r] has one that holds
    each of its keys with an object that covers the entry, and where [o]
    has anything else [r] has the same object. *)
Fixpoint covers (σ : gmap positive (list (string * Config.Obj)))
    (v : Config.Value) (o r : Config.Obj) {struct v} : Prop :=
  match v with
  | Config.VDict items =>
      match o, r with
      | Config.ODict lo, Config.ODict lr =>
          match σ !! lo, σ !! lr with
          | Some d_o, Some d_r =>
              d_o.*1 = items.*1 ∧ NoDup items.*1
              ∧ (fix each (items : list (string * Config.Value)) : Prop :=
                   match items with
                   | [] => True
                   | (k, v) :: items' =>
                       match Config.lookup k d_o, Config.lookup k d_r with
                       | Some ov, Some rv => covers σ v ov rv
                       | _, _ => False
                       end
                       ∧ each items'
                   end) items
          | _, _ => False
          end
      | _, _ => False
      end
  | _ => reads σ v o ∧ r = o
  end.

(** The locations met under an entry of a dictionary. *)
Definition under (σ : gmap positive (list (string * Config.Obj)))
    (d : list (string * Config.Obj)) (kv : string * Config.Value)
    : list positive :=
  match Config.lookup kv.1 d with
  | Some o => locs σ kv.2 o
  | None => []
  end.

(** The locations met under a key of the dictionary [d_b], which reads as
    [tb]. *)
Definition child_locs (σ0 : gmap positive (list (string * Config.Obj)))
    (tb : list (string * Config.Value)) (d_b : list (string * Config.Obj))
    (k : string) : list positive :=
  match Config.lookup k tb, Config.lookup k d_b with
  | Some v, Some o => locs σ0 v o
  | _, _ => []
  end.

(** The state of the loop of [deep_merge(base, override)] once the
    entries [done] of [override] are merged, for a call that began in the
    heap [σ0] with [base] at [lb], reading as [tb] with entries [d_b], and
    [override] at [lo], reading as [to] with entries [d_o]: nothing has
    changed away from [base]; [base] reads as the merge of [tb] and
    [done]; what is under the keys still to come is as it was; what is
    under the keys done covers the entries of [override]. *)
Definition merge_state (σ0 : gmap positive (list (string * Config.Obj)))
    (lb lo : positive) (tb to : list (string * Config.Value))
    (d_b d_o : list (string * Config.Obj))
    (done : list (string * Config.Value))
    (σ : gmap positive (list (string * Config.Obj))) : Prop :=
  (∀ l, l ∉ locs σ0 (Config.VDict tb) (Config.ODict lb) → σ !! l = σ0 !! l)
  ∧ ∃ d,
      σ !! lb = Some d
      ∧ d.*1 = (tree_merge tb done).*1
      ∧ (∀ k v, Config.lookup k (tree_merge tb done) = Some v →
           ∃ o, Config.lookup k d = Some o ∧ reads σ v o
                ∧ ∀ l, l ∈ locs σ v o →
                       l ∈ child_locs σ0 tb d_b k
                       ∨ l ∈ locs σ0 (Config.VDict to) (Config.ODict lo))
      ∧ (∀ k, k ∉ done.*1 →
           Config.lookup k (tree_merge tb done) = Config.lookup k tb
           ∧ Config.lookup k d = Config.lookup k d_b
           ∧ ∀ l, l ∈ child_locs σ0 tb d_b k → σ !! l = σ0 !! l)
      ∧ (∀ k v, Config.lookup k done = Some v →
           ∃ ov rv, Config.lookup k d_o = Some ov ∧ Config.lookup k d = Some rv
                    ∧ covers σ v ov rv).

(** [o] is the dictionary at [l]. *)
Definition is_dict_at (l : positive) (o : Config.Obj) : bool :=
  match o with
  | Config.ODict l' => Pos.eqb l' l
  | _ => false
  end.

(** No dictionary of the heap has the dictionary at [l] as the value of a
    key. *)
Definition unheld (σ : gmap positive (list (string * Config.Obj)))
    (l : positive) : Prop :=
  map_Forall
    (λ _ d, Forall (λ kv : string * Config.Obj, is_dict_at l kv.2 = false) d)
    σ.

(** The keys of a dictionary after the keys [ks] were assigned to, one
    after the other. *)
Definition keys_after (ks : list string) (keys : list string) : list string :=
  foldl (λ (keys : list string) k,
           if decide (k ∈ keys) then keys else (keys ++ [k])%list)
    keys ks.

(** What [process_env_vars] leaves under a key of a dictionary whose value
    was [v]. *)
Definition entry_after (environ : gmap string string) (v : Config.Value)
    : Config.Value :=
  match v with
  | Config.VDict _ | Config.VList _ => (Config.process_env_vars environ v).1
  | Config.VStr s =>
      match Config.replace_reference environ s with
      | Some (v', _) => v'
      | None => v
      end
  | _ => v
  end.

(** The test that decides whether a variable's value is masked. *)
Definition sensitive (var : string) : bool :=
  contains "API_KEY" var || contains "TOKEN" var || contains "PASSWORD" var.

(** [value[:4] + "*" * (len(value) - 4)] *)
Definition mask (value : string) : string :=
  (Config.slice_to 4 value ++ Config.stars (Config.len value - 4))%string.

(** ** Sample data *)

Module Sample.

(** Two dictionaries: a payload [{"a": 0, "b": 2}] at 1, empty metadata at 2. *)
Definition σ0 : Store :=
  <[1%positive := <["a" := PInt 0]> (<["b" := PInt 2]> ∅)]>
    (<[2%positive := ∅]> ∅).

(** A message with every optional field absent. *)
Definition bare : Message.t :=
  {| Message.type := MessageType.AUDIO_CAPTURED;
     Message.content := PRef 1;
     Message.sender := PNone;
     Message.recipient := PNone;
     Message.timestamp := PFloat 1700000000.5;
     Message.message_id := PStr "msg-1";
     Message.parent_id := PNone;
     Message.context_id := PNone;
     Message.thread_id := PNone;
     Message.priority := PInt 0;
     Message.ttl := PNone;
     Message.metadata := PRef 2;
     Message.type_name := "AUDIO_CAPTURED" |}.

(** A message with every optional field populated. *)
Definition full : Message.t :=
  {| Message.type := MessageType.TASK_CREATED;
     Message.content := PRef 1;
     Message.sender := PStr "agent-a";
     Message.recipient := PStr "agent-b";
     Message.timestamp := PFloat 1700000001.25;
     Message.message_id := PStr "msg-2";
     Message.parent_id := PStr "msg-1";
     Message.context_id := PStr "meeting-7";
     Message.thread_id := PStr "thread-3";
     Message.priority := PInt 5;
     Message.ttl := PInt 60;
     Message.metadata := PRef 2;
     Message.type_name := "TASK_CREATED" |}.

(** [bare] with its priority set to [i], to tell messages apart. *)
Definition numbered (i : Z) : Message.t :=
  {| Message.type := Message.type bare;
     Message.content := Message.content bare;
     Message.sender := Message.sender bare;
     Message.recipient := Message.recipient bare;
     Message.timestamp := Message.timestamp bare;
     Message.message_id := Message.message_id bare;
     Message.parent_id := Message.parent_id bare;
     Message.context_id := Message.context_id bare;
     Message.thread_id := Message.thread_id bare;
     Message.priority := PInt i;
     Message.ttl := Message.ttl bare;
     Message.metadata := Message.metadata bare;
     Message.type_name := Message.type_name bare |}.

Definition seven : list Message.t := numbered <$> [1; 2; 3; 4; 5; 6; 7].

(** Three records: [{"type": "LOG", "priority": 3}] at 3,
    [{"type": "NOT_A_KIND"}] at 4 and [{"type": 7}] at 5. *)
Definition minimal_record : dict :=
  <["type" := PStr "LOG"]> (<["priority" := PInt 3]> ∅).

Definition σ1 : Store :=
  <[3%positive := minimal_record]>
    (<[4%positive := <["type" := PStr "NOT_A_KIND"]> ∅]>
       (<[5%positive := <["type" := PInt 7]> ∅]> σ0)).

(** The message [from_dict] builds from the record at 3 when the clock
    reads 0.5 and the next uuid is "uid-9". *)
Definition from_minimal : Message.t :=
  {| Message.type := MessageType.LOG;
     Message.content := PRef 6;
     Message.sender := PNone;
     Message.recipient := PNone;
     Message.timestamp := PFloat 0.5;
     Message.message_id := PStr "uid-9";
     Message.parent_id := PNone;
     Message.context_id := PNone;
     Message.thread_id := PNone;
     Message.priority := PInt 3;
     Message.ttl := PNone;
     Message.metadata := PRef 7;
     Message.type_name := "LOG" |}.

(** The store [from_dict] leaves behind in that run. *)
Definition σ1_popped : Store := (Message.from_dict 3 0.5 "uid-9" σ1).1.

Definition raising : EventBus.Callback := λ _ σ, (σ, EventBus.Raised "boom").

(** A callback that counts its calls in the dictionary at 2. *)
Definition counting : EventBus.Callback :=
  λ _ σ,
    let d := default ∅ (σ !! 2%positive) in
    let n := match d !! "calls" with Some (PInt n) => n | _ => 0 end in
    (<[2%positive := <["calls" := PInt (n + 1)]> d]> σ, EventBus.Returned).

(** [EventBus()] and [EventBus({"max_history_size": 2})]. *)
Definition bus : EventBus.t :=
  match EventBus.__init__ None with
  | Ok b => b
  | Raise _ => EventBus.Build_t [] ∅ 0 true true [] [] 0
  end.

(** [bus] after [subscribe(MessageType.AUDIO_CAPTURED, raising)] and
    [subscribe(MessageType.AUDIO_CAPTURED, counting)]. *)
Definition subscribed_bus : EventBus.t :=
  (EventBus.subscribe (EventBus.KEnum MessageType.AUDIO_CAPTURED) counting "sub-2"
     (EventBus.subscribe (EventBus.KEnum MessageType.AUDIO_CAPTURED) raising "sub-1"
        bus).1).1.

(** [bus] after [subscribe(MessageType.AUDIO_CAPTURED, raising)] alone,
    the same after [publish(bare)], and the log once the loop has run. *)
Definition raising_bus : EventBus.t :=
  (EventBus.subscribe (EventBus.KEnum MessageType.AUDIO_CAPTURED) raising "sub-1"
     bus).1.



Definition small_bus : EventBus.t :=
  match EventBus.__init__ (Some {[ "max_history_size" := 2 ]}) with
  | Ok b => b
  | Raise _ => EventBus.Build_t [] ∅ 0 true true [] [] 0
  end.

End Sample.

(** ** More sample data *)

Module Cases.

(** [EventBus({"max_history_size": 0})] *)
Definition bus_without_history : EventBus.t :=
  match EventBus.__init__ (Some {[ "max_history_size" := 0 ]}) with
  | Ok b => b
  | Raise _ => EventBus.Build_t [] ∅ 0 true true [] [] 0
  end.

(** [Sample.bus] after [publish(bare)] and [publish(full)]. *)
Definition bus_with_two : EventBus.t :=
  publish_all [Sample.bare; Sample.full] Sample.bus.

(** [Sample.bare] with [None] as payload. *)
Definition without_payload : Message.t :=
  {| Message.type := Message.type Sample.bare;
     Message.content := PNone;
     Message.sender := Message.sender Sample.bare;
     Message.recipient := Message.recipient Sample.bare;
     Message.timestamp := Message.timestamp Sample.bare;
     Message.message_id := Message.message_id Sample.bare;
     Message.parent_id := Message.parent_id Sample.bare;
     Message.context_id := Message.context_id Sample.bare;
     Message.thread_id := Message.thread_id Sample.bare;
     Message.priority := Message.priority Sample.bare;
     Message.ttl := Message.ttl Sample.bare;
     Message.metadata := Message.metadata Sample.bare;
     Message.type_name := Message.type_name Sample.bare |}.

(** [Sample.σ0] with the record [{"type": "LOG"}] at 3. *)
Definition σ_kind_only : Store :=
  <[3%positive := {[ "type" := PStr "LOG" ]}]> Sample.σ0.

(** The record [to_dict] writes for [Sample.full], and the store with it
    at 3. *)
Definition full_record : dict :=
  <["message_id" := PStr "msg-2"]>
  (<["type" := PStr "TASK_CREATED"]>
  (<["content" := PRef 1]>
  (<["sender" := PStr "agent-a"]>
  (<["recipient" := PStr "agent-b"]>
  (<["timestamp" := PFloat 1700000001.25]>
  (<["parent_id" := PStr "msg-1"]>
  (<["context_id" := PStr "meeting-7"]>
  (<["thread_id" := PStr "thread-3"]>
  (<["priority" := PInt 5]>
  (<["ttl" := PInt 60]>
  (<["metadata" := PRef 2]> ∅))))))))))).

Definition σ_full_record : Store := <[3%positive := full_record]> Sample.σ0.

(** An agent whose [handle_message] counts its calls in the dictionary at
    2 and which subscribes to the event types of the transcriber. *)
Definition handlers : BaseAgent.Handlers :=
  {| BaseAgent.handle_message :=
       λ self message σ,
         let '(σ', outcome) := Sample.counting message σ in (self, σ', outcome);
     BaseAgent.get_subscribed_events := λ _, transcriber_subscribed_events |}.

Definition agent : BaseAgent.t :=
  {| BaseAgent.agent_type := "transcriber";
     BaseAgent.logger := [];
     BaseAgent.event_bus := false;
     BaseAgent.agent_id := None |}.

Definition uids (i : nat) : string := "uid-" ++ pretty i.

Definition registered_agent : BaseAgent.t :=
  (BaseAgent.register (H := handlers) agent Sample.bus "agent-1" uids).1.

(** What [registered_agent.send_message(bare)] gives on a new bus. *)
Definition sent : BaseAgent.t * EventBus.t * Message.t * result unit :=
  BaseAgent.send_message registered_agent Sample.bare Sample.bus.

(** A message that names another agent as its sender. *)
Definition from_other : Message.t :=
  BaseAgent.set_sender (PStr "agent-9") Sample.bare.

(** Two configurations and an environment. *)
Definition llm_config : list (string * Config.Value) :=
  [ ("provider", Config.VStr "openai");
    ("api_key", Config.VStr "${OPENAI_API_KEY}");
    ("organization", Config.VStr "${OPENAI_ORG}") ].

Definition base_config : list (string * Config.Value) :=
  [ ("llm", Config.VDict llm_config);
    ("agents", Config.VDict []);
    ("paths", Config.VList [Config.VStr "${HOME}"]) ].

Definition override_config : list (string * Config.Value) :=
  [ ("llm", Config.VDict [("provider", Config.VStr "local")]);
    ("debug", Config.VBool true);
    ("agents", Config.VInt 3) ].

Definition environ : gmap string string :=
  {[ "OPENAI_API_KEY" := "sk-12345678"; "JIRA_API_TOKEN" := "abc";
     "HOME" := "/root"; "SLACK_BOT_TOKEN" := "";
     "EMAIL_PASSWORD" := "pässwörd" ]}.

(** [Cases.base_config] at 1, with its dictionaries at 2 and 3, and
    [Cases.override_config] at 4, with its dictionary at 5. *)
Definition config_heap : gmap positive (list (string * Config.Obj)) :=
  {[ 1%positive := [ ("llm", Config.ODict 2); ("agents", Config.ODict 3);
                     ("paths", Config.OList [Config.OStr "${HOME}"]) ];
     2%positive := [ ("provider", Config.OStr "openai");
                     ("api_key", Config.OStr "${OPENAI_API_KEY}");
                     ("organization", Config.OStr "${OPENAI_ORG}") ];
     3%positive := [];
     4%positive := [ ("llm", Config.ODict 5); ("debug", Config.OBool true);
                     ("agents", Config.OInt 3) ];
     5%positive := [ ("provider", Config.OStr "local") ] ]}.

(** A base that holds one dictionary under two keys: at 1
    [{"defaults": D, "worker": D}] with [D = {"timeout": 5}] at 2; at 3
    the override [{"worker": {"timeout": 9}}]. *)
Definition shared_heap : gmap positive (list (string * Config.Obj)) :=
  {[ 1%positive := [ ("defaults", Config.ODict 2); ("worker", Config.ODict 2) ];
     2%positive := [ ("timeout", Config.OInt 5) ];
     3%positive := [ ("worker", Config.ODict 4) ];
     4%positive := [ ("timeout", Config.OInt 9) ] ]}.

(** A base that holds its override: at 1 [{"p": X}], at 2
    [X = {"p": {"q": 1}}]. *)
Definition nested_heap : gmap positive (list (string * Config.Obj)) :=
  {[ 1%positive := [ ("p", Config.ODict 2) ];
     2%positive := [ ("p", Config.ODict 3) ];
     3%positive := [ ("q", Config.OInt 1) ] ]}.

(** A base that holds itself: at 1 [B = {"a": B}]; at 2 the override
    [{"a": {"x": 1}}]. *)
Definition cyclic_heap : gmap positive (list (string * Config.Obj)) :=
  {[ 1%positive := [ ("a", Config.ODict 1) ];
     2%positive := [ ("a", Config.ODict 3) ];
     3%positive := [ ("x", Config.OInt 1) ] ]}.

End Cases.

(** * Properties *)

(** ** The enumeration *)

Section MessageTypeFacts.

Lemma getitem_name (x : MessageType.t) :
  MessageType.getitem (MessageType.name x) = Some x.
Proof. destruct x; reflexivity. Qed.

Lemma getitem_Some (s : string) (x : MessageType.t) :
  MessageType.getitem s = Some x → MessageType.name x = s.
Proof.
  unfold MessageType.getitem. intros H.
  apply List.find_some in H as [_ H].
  by apply String.eqb_eq in H.
Qed.

Lemma getitem_None (s : string) :
  (∀ x, MessageType.name x ≠ s) → MessageType.getitem s = None.
Proof.
  intros Hs. destruct (MessageType.getitem s) as [x|] eqn:E; [|done].
  apply getitem_Some in E. by destruct (Hs x).
Qed.

(** A member of the enumeration is equal to no string key. *)
Lemma enum_key_not_string (x : MessageType.t) (s : string) :
  EventBus.KEnum x ≠ EventBus.KStr s.
Proof. discriminate. Qed.

End MessageTypeFacts.

(** ** The store monad *)

Section MonadFacts.
Context {A B : Type}.

Lemma bind_Ok (c : M A) (k : A → M B) σ σ' a :
  c σ = (σ', Ok a) → bind c k σ = k a σ'.
Proof. unfold bind. by intros ->. Qed.

Lemma bind_Raise (c : M A) (k : A → M B) σ σ' e :
  c σ = (σ', Raise e) → bind c k σ = (σ', Raise e).
Proof. unfold bind. by intros ->. Qed.

End MonadFacts.

Section StoreFacts.
Implicit Types (σ : Store) (l : loc) (d : dict).

Lemma load_Some σ l d : σ !! l = Some d → load l σ = (σ, Ok d).
Proof. unfold load. by intros ->. Qed.

Lemma alloc_fresh σ d : σ !! fresh (dom σ) = None.
Proof. apply not_elem_of_dom, is_fresh. Qed.

(** Allocation leaves every live dictionary as it is. *)
Lemma alloc_preserves σ d l d' :
  σ !! l = Some d' → (alloc d σ).1 !! l = Some d'.
Proof.
  intros Hl. unfold alloc. simpl.
  rewrite lookup_insert_ne; [done|].
  intros Heq. pose proof (alloc_fresh σ d) as Hf. congruence.
Qed.

Lemma py_dict_ref σ l d :
  σ !! l = Some d →
  py_dict (PRef l) σ = (<[fresh (dom σ) := d]> σ, Ok (fresh (dom σ))).
Proof.
  intros Hl. unfold py_dict. by rewrite (bind_Ok _ _ _ _ _ (load_Some _ _ _ Hl)).
Qed.

Lemma dict_pop_Some σ l d key v :
  σ !! l = Some d → d !! key = Some v →
  dict_pop l key σ = (<[l := delete key d]> σ, Ok v).
Proof.
  intros Hl Hk. unfold dict_pop.
  rewrite (bind_Ok _ _ _ _ _ (load_Some _ _ _ Hl)), Hk. reflexivity.
Qed.

Lemma dict_pop_None σ l d key :
  σ !! l = Some d → d !! key = None →
  dict_pop l key σ = (σ, Raise KeyError).
Proof.
  intros Hl Hk. unfold dict_pop.
  rewrite (bind_Ok _ _ _ _ _ (load_Some _ _ _ Hl)), Hk. reflexivity.
Qed.

Lemma dict_update_Some σ l d other :
  σ !! l = Some d →
  dict_update l other σ = (<[l := other ∪ d]> σ, Ok tt).
Proof.
  intros Hl. unfold dict_update.
  by rewrite (bind_Ok _ _ _ _ _ (load_Some _ _ _ Hl)).
Qed.

End StoreFacts.

(** ** Construction *)

Section ConstructionFacts.

Lemma post_init_enum (x : MessageType.t) :
  Message.__post_init__ (PEnum x) = Ok (x, MessageType.name x).
Proof. reflexivity. Qed.

Lemma post_init_name (x : MessageType.t) :
  Message.__post_init__ (PStr (MessageType.name x)) = Ok (x, MessageType.name x).
Proof. unfold Message.__post_init__. by rewrite getitem_name. Qed.

Lemma post_init_unrecognized (v : PyVal) :
  ¬ recognized v → Message.__post_init__ v = Raise ValueError.
Proof.
  intros Hv. destruct v as [| | | |s|x|]; try reflexivity.
  - unfold Message.__post_init__.
    destruct (MessageType.getitem s) as [x|] eqn:E; [|done].
    destruct Hv. exists x. right. by rewrite (getitem_Some _ _ E).
  - destruct Hv. exists x. by left.
Qed.

(** Whatever [__init__] returns has [type_name] in sync with [type]. *)
Lemma init_in_sync ty c s r ts id p cx th pr tl md m :
  Message.__init__ ty c s r ts id p cx th pr tl md = Ok m →
  type_name_in_sync m.
Proof.
  unfold Message.__init__, Message.__post_init__, type_name_in_sync.
  destruct ty as [| | | |n|x|]; try discriminate.
  - destruct (MessageType.getitem n); [|discriminate]. by intros [= <-].
  - by intros [= <-].
Qed.

(** A recognized kind constructs a message of that kind. *)
Lemma init_recognized x v c sd r ts id p cx th pr tl md :
  v = PEnum x ∨ v = PStr (MessageType.name x) →
  Message.__init__ v c sd r ts id p cx th pr tl md
  = Ok {| Message.type := x; Message.content := c;
          Message.sender := sd; Message.recipient := r;
          Message.timestamp := ts; Message.message_id := id;
          Message.parent_id := p; Message.context_id := cx;
          Message.thread_id := th; Message.priority := pr;
          Message.ttl := tl; Message.metadata := md;
          Message.type_name := MessageType.name x |}.
Proof.
  intros [-> | ->]; unfold Message.__init__.
  - by rewrite post_init_enum.
  - by rewrite post_init_name.
Qed.

End ConstructionFacts.

(** ** Deserialization, step by step *)

Section FromDictFacts.
Implicit Types (σ : Store) (data : loc) (d : dict).

(** No ["type"] entry: [pop] raises and nothing is touched. *)
Lemma from_dict_missing σ data d now uid :
  σ !! data = Some d → d !! "type" = None →
  Message.from_dict data now uid σ = (σ, Raise KeyError).
Proof.
  intros Hl Hk. unfold Message.from_dict.
  by rewrite (bind_Raise _ _ _ _ _ (dict_pop_None _ _ _ _ Hl Hk)).
Qed.

(** A string that names no member: [ValueError], after the [pop]. *)
Lemma from_dict_bad_name σ data d s now uid :
  σ !! data = Some d → d !! "type" = Some (PStr s) →
  MessageType.getitem s = None →
  Message.from_dict data now uid σ
  = (<[data := delete "type" d]> σ, Raise ValueError).
Proof.
  intros Hl Hk Hs. unfold Message.from_dict.
  rewrite (bind_Ok _ _ _ _ _ (dict_pop_Some _ _ _ _ _ Hl Hk)), Hs.
  reflexivity.
Qed.

(** Otherwise the constructor is reached, with the entries left in the
    dictionary and two fresh empty dictionaries as defaults. *)
Lemma from_dict_built σ data d v ty now uid :
  σ !! data = Some d → d !! "type" = Some v →
  match v with
  | PStr s => PEnum <$> MessageType.getitem s
  | v => Some v
  end = Some ty →
  let d' := delete "type" d in
  let σ1 := <[data := d']> σ in
  let l1 := fresh (dom σ1) in
  let σ2 := <[l1 := ∅]> σ1 in
  let l2 := fresh (dom σ2) in
  Message.from_dict data now uid σ
  = (<[l2 := ∅]> σ2,
     Message.__init__ ty
       (dict_get d' "content" (PRef l1)) (dict_get d' "sender" PNone)
       (dict_get d' "recipient" PNone) (dict_get d' "timestamp" (PFloat now))
       (dict_get d' "message_id" (PStr uid)) (dict_get d' "parent_id" PNone)
       (dict_get d' "context_id" PNone) (dict_get d' "thread_id" PNone)
       (dict_get d' "priority" (PInt 0)) (dict_get d' "ttl" PNone)
       (dict_get d' "metadata" (PRef l2))).
Proof.
  intros Hl Hk Hty. unfold Message.from_dict.
  rewrite (bind_Ok _ _ _ _ _ (dict_pop_Some _ _ _ _ _ Hl Hk)).
  assert (∀ σ',
    match v with
    | PStr s =>
        match MessageType.getitem s with
        | Some x => ret (PEnum x)
        | None => raise ValueError
        end
    | v0 => ret v0
    end σ' = (σ', Ok ty)) as Hc.
  { intros σ'. destruct v; simplify_eq/=; try reflexivity.
    destruct (MessageType.getitem s); by simplify_eq/=. }
  erewrite (bind_Ok _ _ _ _ ty); [|apply Hc].
  erewrite (bind_Ok _ _ _ _ (delete "type" d));
    [|apply load_Some, lookup_insert_eq].
  reflexivity.
Qed.

(** The dictionary handed to [from_dict] stays where it is while the
    defaults are allocated. *)
Lemma defaults_keep σ data d (d1 d2 : dict) :
  let σ1 := <[data := d]> σ in
  let σ2 := <[fresh (dom σ1) := d1]> σ1 in
  <[fresh (dom σ2) := d2]> σ2 !! data = Some d.
Proof.
  intros σ1 σ2.
  assert (σ1 !! data = Some d) as H1 by apply lookup_insert_eq.
  assert (σ2 !! data = Some d) as H2 by apply (alloc_preserves σ1 d1 _ _ H1).
  apply (alloc_preserves σ2 d2 _ _ H2).
Qed.

End FromDictFacts.

(** ** Claims about [Message] *)

Section MessageClaims.
Implicit Types (σ : Store) (m : Message.t).

(** C7.  Constructing a Message from a string that names no member of the
    enumeration fails with [ValueError] (the spec's ValidationError);
    [from_dict] on a record whose stored kind is not recognized fails with
    the same error; construction from a recognized kind, a member or the
    name of one, succeeds and yields that member. *)
Theorem kind_validation :
  (∀ s c sd r ts id p cx th pr tl md,
      (∀ x, MessageType.name x ≠ s) →
      Message.__init__ (PStr s) c sd r ts id p cx th pr tl md
      = Raise ValueError)
  ∧ (∀ σ data (d : dict) v now uid,
      σ !! data = Some d → d !! "type" = Some v → ¬ recognized v →
      (Message.from_dict data now uid σ).2 = Raise ValueError)
  ∧ (∀ x v c sd r ts id p cx th pr tl md,
      v = PEnum x ∨ v = PStr (MessageType.name x) →
      Message.__init__ v c sd r ts id p cx th pr tl md
      = Ok {| Message.type := x; Message.content := c;
              Message.sender := sd; Message.recipient := r;
              Message.timestamp := ts; Message.message_id := id;
              Message.parent_id := p; Message.context_id := cx;
              Message.thread_id := th; Message.priority := pr;
              Message.ttl := tl; Message.metadata := md;
              Message.type_name := MessageType.name x |}).
Proof.
  split; [|split].
  - intros s c sd r ts id p cx th pr tl md Hs.
    unfold Message.__init__, Message.__post_init__.
    by rewrite (getitem_None s Hs).
  - intros σ data d v now uid Hl Hk Hv.
    assert ((∃ s, v = PStr s)
            ∨ match v with PStr _ => None | _ => Some v end = Some v)
      as [[s ->]|Hns] by (destruct v; eauto).
    + rewrite (from_dict_bad_name σ data d s now uid Hl Hk); [done|].
      apply getitem_None. intros x Hx. apply Hv. exists x. right. by rewrite Hx.
    + rewrite (from_dict_built σ data d v v now uid Hl Hk).
      * simpl. unfold Message.__init__.
        by rewrite (post_init_unrecognized v Hv).
      * by destruct v.
  - intros x v c sd r ts id p cx th pr tl md Hv. by apply init_recognized.
Qed.

(** C9.  A successful [from_dict] has popped the ["type"] entry off the
    caller's dictionary: afterwards that dictionary is the original minus
    its kind, and calling [from_dict] on it again raises [KeyError]
    instead of returning a message. *)
Theorem from_dict_consumes_type σ σ' data (d : dict) now uid m :
  σ !! data = Some d →
  Message.from_dict data now uid σ = (σ', Ok m) →
  is_Some (d !! "type")
  ∧ σ' !! data = Some (delete "type" d)
  ∧ delete "type" d !! "type" = None
  ∧ ∀ now' uid', Message.from_dict data now' uid' σ' = (σ', Raise KeyError).
Proof.
  intros Hl Hrun.
  destruct (d !! "type") as [v|] eqn:Hk; cycle 1.
  { rewrite (from_dict_missing σ data d now uid Hl Hk) in Hrun. discriminate. }
  assert (∃ ty, match v with
                | PStr s => PEnum <$> MessageType.getitem s
                | v => Some v
                end = Some ty) as [ty Hty].
  { destruct v; try by eexists.
    destruct (MessageType.getitem s) as [x|] eqn:Hs; [by eexists|].
    rewrite (from_dict_bad_name σ data d s now uid Hl Hk Hs) in Hrun.
    discriminate. }
  rewrite (from_dict_built σ data d v ty now uid Hl Hk Hty) in Hrun.
  simpl in Hrun. injection Hrun as Hσ _.
  assert (σ' !! data = Some (delete "type" d)) as Hl'.
  { rewrite <- Hσ. apply defaults_keep. }
  repeat split; [by eexists | done | apply lookup_delete_eq |].
  intros now' uid'. apply (from_dict_missing σ' data _ now' uid' Hl').
  apply lookup_delete_eq.
Qed.

End MessageClaims.

Section RoundTrip.
Implicit Types (σ : Store) (m : Message.t).

(** C2.  For every Message [m] (whose [type_name] is the name of its
    [type], as every constructed message has it), [to_dict] returns a
    record on which [from_dict] returns a Message equal to [m] in every
    field: id, kind, payload, sender, recipient, timestamp, parent,
    context and thread ids, priority, ttl and metadata, whether the
    optional fields hold values or [None]; the dictionaries that existed
    before, the payload and the metadata among them, are as they were. *)
Theorem to_dict_from_dict_roundtrip σ m now uid :
  type_name_in_sync m →
  ∃ data σ1 σ2,
    Message.to_dict m σ = (σ1, Ok data)
    ∧ Message.from_dict data now uid σ1 = (σ2, Ok m)
    ∧ ∀ l (d : dict), σ !! l = Some d → σ2 !! l = Some d.
Proof.
  intros Hsync. unfold Message.to_dict, alloc.
  set (l := fresh (dom σ)).
  match goal with |- context [<[l := ?d]> σ] => set (rec := d) end.
  eexists l, _, _. split; [reflexivity|]. split.
  - erewrite (from_dict_built _ l rec (PStr (Message.type_name m))
                (PEnum (Message.type m)) now uid).
    + f_equal. unfold Message.__init__. rewrite post_init_enum.
      destruct m. unfold type_name_in_sync in Hsync. simpl in *.
      rewrite Hsync. reflexivity.
    + apply lookup_insert_eq.
    + reflexivity.
    + rewrite Hsync, getitem_name. reflexivity.
  - intros l' d Hl'.
    assert (l' ≠ l) as Hne.
    { intros ->. pose proof (alloc_fresh σ rec) as Hf. fold l in Hf. congruence. }
    do 2 (apply (alloc_preserves _ ∅)).
    rewrite insert_insert_eq. by rewrite lookup_insert_ne.
Qed.

End RoundTrip.

Section Derivation.
Implicit Types (σ : Store) (m : Message.t).

(** C8.  For a message [m] whose payload and metadata are dictionaries,
    [with_content] returns a new message whose payload is a new dictionary
    holding [m]'s entries overridden by those of [kwargs], whose parent is
    [m]'s id and whose kind, context id, thread id, priority, ttl and
    (copied) metadata are [m]'s; every dictionary that existed before the
    call, [m]'s payload and metadata among them, is as it was. *)
Theorem with_content_merges σ m (kwargs : dict) now uid lc lm (dc dm : dict) :
  Message.content m = PRef lc → σ !! lc = Some dc →
  Message.metadata m = PRef lm → σ !! lm = Some dm →
  ∃ σ' m' lc' lm',
    Message.with_content m kwargs now uid σ = (σ', Ok m')
    ∧ Message.content m' = PRef lc' ∧ σ' !! lc' = Some (kwargs ∪ dc)
    ∧ (∀ k, (kwargs ∪ dc) !! k
            = match kwargs !! k with Some v => Some v | None => dc !! k end)
    ∧ Message.parent_id m' = Message.message_id m
    ∧ Message.type m' = Message.type m
    ∧ Message.context_id m' = Message.context_id m
    ∧ Message.thread_id m' = Message.thread_id m
    ∧ Message.priority m' = Message.priority m
    ∧ Message.ttl m' = Message.ttl m
    ∧ Message.metadata m' = PRef lm' ∧ σ' !! lm' = Some dm
    ∧ σ !! lc' = None ∧ σ !! lm' = None
    ∧ (∀ l (d : dict), σ !! l = Some d → σ' !! l = Some d).
Proof.
  intros Hc Hlc Hm Hlm. unfold Message.with_content. rewrite Hc, Hm.
  set (l1 := fresh (dom σ)).
  assert (σ !! l1 = None) as Hl1 by apply (alloc_fresh σ dc).
  rewrite (bind_Ok _ _ _ _ _ (py_dict_ref σ lc dc Hlc)). fold l1.
  erewrite (bind_Ok _ _ _ _ tt);
    [|apply (dict_update_Some _ l1 dc), lookup_insert_eq].
  rewrite insert_insert_eq.
  set (σ2 := <[l1 := kwargs ∪ dc]> σ).
  assert (∀ l (d : dict), σ !! l = Some d → σ2 !! l = Some d) as Hkeep2.
  { intros l d Hl. unfold σ2. rewrite lookup_insert_ne; [done|congruence]. }
  rewrite (bind_Ok _ _ _ _ _ (py_dict_ref σ2 lm dm (Hkeep2 _ _ Hlm))).
  set (l2 := fresh (dom σ2)).
  assert (σ2 !! l2 = None) as Hl2 by apply (alloc_fresh σ2 dm).
  assert (l2 ≠ l1) as Hne.
  { intros Heq. rewrite Heq in Hl2. unfold σ2 in Hl2.
    by rewrite lookup_insert_eq in Hl2. }
  unfold lift, Message.__init__. rewrite post_init_enum.
  eexists _, _, l1, l2. split; [reflexivity|]. simpl.
  repeat split.
  - rewrite lookup_insert_ne by done. apply lookup_insert_eq.
  - intros k. rewrite lookup_union.
    destruct (kwargs !! k), (dc !! k); reflexivity.
  - apply lookup_insert_eq.
  - done.
  - destruct (σ !! l2) as [d|] eqn:E; [|done].
    apply Hkeep2 in E. congruence.
  - intros l d Hl. rewrite lookup_insert_ne; [by apply Hkeep2|].
    intros <-. apply Hkeep2 in Hl. congruence.
Qed.

(** C10.  For a message [m] whose metadata is a dictionary, and a
    recognized kind, [create_reply] returns a reply whose [ttl] is [None],
    so a ttl set on [m] is not carried over, while priority, context id,
    thread id and (a copy of) the metadata are. *)
Theorem create_reply_drops_ttl σ m x (message_type content : PyVal)
    now uid lm (dm : dict) :
  Message.metadata m = PRef lm → σ !! lm = Some dm →
  message_type = PEnum x ∨ message_type = PStr (MessageType.name x) →
  ∃ σ' r lm',
    Message.create_reply m message_type content now uid σ = (σ', Ok r)
    ∧ Message.ttl r = PNone
    ∧ (Message.ttl m ≠ PNone → Message.ttl r ≠ Message.ttl m)
    ∧ Message.priority r = Message.priority m
    ∧ Message.context_id r = Message.context_id m
    ∧ Message.thread_id r = Message.thread_id m
    ∧ Message.metadata r = PRef lm' ∧ σ' !! lm' = Some dm
    ∧ Message.type r = x ∧ Message.content r = content
    ∧ Message.parent_id r = Message.message_id m.
Proof.
  intros Hm Hlm Hkind. unfold Message.create_reply. rewrite Hm.
  rewrite (bind_Ok _ _ _ _ _ (py_dict_ref σ lm dm Hlm)).
  unfold lift.
  rewrite (init_recognized x message_type); [|done].
  eexists _, _, _. split; [reflexivity|]. simpl.
  repeat split; try done.
  apply lookup_insert_eq.
Qed.

End Derivation.

(** ** The bus: what each operation leaves alone *)

Local Open Scope list_scope.

(** The three ways through the history lines of [publish]: the buffer is
    full and empty (the [pop] raises), full and not empty, or not full. *)
Ltac history_cases bus :=
  destruct (Z.of_nat (length (EventBus.message_history bus)) >=? EventBus.max_history_size bus)
    eqn:?;
  [destruct (EventBus.message_history bus) as [|? ?] eqn:?|]; simpl.

(** A positive capacity rules the first way out. *)
Ltac full_and_empty :=
  match goal with
  | H : (Z.of_nat (length []) >=? _) = true |- _ =>
      apply Z.geb_le in H; simpl in H; lia
  end.

Section BusFrame.
Import EventBus.
Implicit Types (self bus : EventBus.t) (m : Message.t).

Lemma publish_loop_open subs m self :
  loop_closed self = false →
  publish_loop subs m self
  = (set_loop_ready (loop_ready self ++ map (λ sc, (sc.2, m)) subs) self, Ok tt).
Proof.
  revert self. induction subs as [|[id cb] subs IH]; intros self Hopen; simpl.
  - rewrite app_nil_r. by destruct self.
  - unfold run_coroutine_threadsafe. rewrite Hopen.
    rewrite IH by done. simpl. by rewrite <- app_assoc.
Qed.

Lemma publish_loop_closed subs m self :
  loop_closed self = true →
  publish_loop subs m self
  = (self, match subs with [] => Ok tt | _ :: _ => Raise RuntimeError end).
Proof.
  intros Hclosed. destruct subs as [|[id cb] subs]; simpl; [done|].
  unfold run_coroutine_threadsafe. by rewrite Hclosed.
Qed.

Lemma publish_loop_frame subs m self :
  let self' := (publish_loop subs m self).1 in
  message_history self' = message_history self
  ∧ max_history_size self' = max_history_size self
  ∧ subscribers self' = subscribers self
  ∧ loop_closed self' = loop_closed self
  ∧ executor_shutdown self' = executor_shutdown self
  ∧ logger self' = logger self.
Proof.
  destruct (loop_closed self) eqn:E.
  - by rewrite publish_loop_closed.
  - by rewrite publish_loop_open.
Qed.

(** The history after one [publish] of a message. *)
Lemma publish_history bus m :
  message_history (publish (ObjMessage m) bus).1
  = if Z.of_nat (length (message_history bus)) >=? max_history_size bus
    then match message_history bus with
         | [] => []
         | _ :: h => h ++ [m]
         end
    else message_history bus ++ [m].
Proof.
  unfold publish. history_cases bus; [done| |].
  all: match goal with
       | |- context [subscribers ?s !! ?k] =>
           destruct (subscribers s !! k) as [subs|]; [|reflexivity]
       end.
  all: match goal with
       | |- context [publish_loop ?a ?b ?c] =>
           by rewrite (proj1 (publish_loop_frame a b c))
       end.
Qed.

Lemma publish_frame obj bus :
  let bus' := (publish obj bus).1 in
  max_history_size bus' = max_history_size bus
  ∧ subscribers bus' = subscribers bus
  ∧ loop_closed bus' = loop_closed bus
  ∧ executor_shutdown bus' = executor_shutdown bus.
Proof.
  unfold publish. destruct obj as [m|v]; [|done].
  history_cases bus; [done| |].
  all: match goal with
       | |- context [subscribers ?s !! ?k] =>
           destruct (subscribers s !! k) as [subs|]; [|done]
       end.
  all: match goal with
       | |- context [publish_loop ?a ?b ?c] =>
           destruct (publish_loop_frame a b c) as (_ & -> & -> & -> & -> & _)
       end; done.
Qed.
End BusFrame.

(** ** The history buffer *)

Section HistoryFacts.
Import EventBus.
Implicit Types (bus : EventBus.t) (m : Message.t) (ms : list Message.t).

Lemma last_n_length {A} (n : nat) (l : list A) :
  length (last_n n l) = (length l `min` n)%nat.
Proof. unfold last_n. rewrite length_drop. lia. Qed.

Lemma last_n_all {A} (n : nat) (l : list A) :
  (length l ≤ n)%nat → last_n n l = l.
Proof.
  intros Hle. unfold last_n.
  by replace (length l - n)%nat with 0%nat by lia.
Qed.

Lemma last_n_app {A} (n : nat) (l l' : list A) :
  last_n n (last_n n l ++ l') = last_n n (l ++ l').
Proof.
  destruct (decide (length l ≤ n)%nat) as [Hle|Hgt].
  - by rewrite (last_n_all n l).
  - unfold last_n at 1 3.
    rewrite !length_app, last_n_length.
    replace (length l `min` n + length l' - n)%nat with (length l')%nat by lia.
    replace (length l + length l' - n)%nat
      with ((length l - n) + length l')%nat by lia.
    rewrite <- (drop_drop (l ++ l') (length l') (length l - n)).
    rewrite (drop_app_le l l' (length l - n)) by lia. reflexivity.
Qed.

(** With capacity [n], one [publish] keeps the last [n] of what was
    recorded followed by the new message. *)
Lemma publish_history_last bus m (n : nat) :
  max_history_size bus = Z.of_nat n →
  (length (message_history bus) ≤ n)%nat →
  message_history (publish (ObjMessage m) bus).1
  = last_n n (message_history bus ++ [m]).
Proof.
  intros HN Hlen. rewrite publish_history, HN. unfold last_n.
  destruct (Z.of_nat (length (message_history bus)) >=? Z.of_nat n) eqn:E.
  - apply Z.geb_le in E.
    destruct (message_history bus) as [|x h] eqn:Eh.
    + assert (length ([] ++ [m]) - n = 1)%nat as -> by (simpl in *; lia).
      reflexivity.
    + assert (length ((x :: h) ++ [m]) - n = 1)%nat as ->
        by (rewrite length_app; simpl in *; lia).
      reflexivity.
  - assert (length (message_history bus ++ [m]) - n = 0)%nat as ->.
    { rewrite length_app. simpl.
      destruct (decide (Z.of_nat n ≤ Z.of_nat (length (message_history bus))))
        as [Hle|Hgt]; [|lia].
      apply Z.geb_le in Hle. congruence. }
    reflexivity.
Qed.

(** With a positive capacity, one [publish] puts the message at the tail,
    after dropping the oldest entry of a full buffer. *)
Lemma publish_appends bus m :
  0 < max_history_size bus →
  message_history (publish (ObjMessage m) bus).1
  = (if Z.of_nat (length (message_history bus)) <? max_history_size bus
     then message_history bus
     else drop 1 (message_history bus)) ++ [m].
Proof.
  intros Hpos. rewrite publish_history.
  destruct (Z.of_nat (length (message_history bus)) <? max_history_size bus)
    eqn:Hroom.
  - apply Z.ltb_lt in Hroom.
    destruct (Z.geb_spec (Z.of_nat (length (message_history bus)))
                (max_history_size bus)); [lia|done].
  - apply Z.ltb_ge in Hroom.
    destruct (Z.geb_spec (Z.of_nat (length (message_history bus)))
                (max_history_size bus)); [|lia].
    destruct (message_history bus) as [|x h]; [simpl in *; lia|done].
Qed.

(** After any sequence of publishes the history holds the last [n] of
    everything recorded. *)
Lemma publish_all_history ms bus (n : nat) :
  max_history_size bus = Z.of_nat n →
  (length (message_history bus) ≤ n)%nat →
  message_history (publish_all ms bus) = last_n n (message_history bus ++ ms).
Proof.
  revert bus. induction ms as [|m ms IH]; intros bus HN Hlen.
  - simpl. rewrite app_nil_r. by rewrite last_n_all.
  - change (publish_all (m :: ms) bus)
      with (publish_all ms (publish (ObjMessage m) bus).1).
    rewrite IH.
    + rewrite (publish_history_last bus m n HN Hlen), last_n_app.
      by rewrite <- app_assoc.
    + by destruct (publish_frame (ObjMessage m) bus) as (-> & _).
    + rewrite (publish_history_last bus m n HN Hlen), last_n_length. lia.
Qed.

End HistoryFacts.

Section HistoryClaims.
Import EventBus.
Implicit Types (bus : EventBus.t) (m : Message.t) (ms : list Message.t).

(** C5.  On a bus whose history capacity is [N] and whose history holds at
    most [N] messages: after every sequence of publishes the history holds
    at most [N] messages; for a capacity of at least 1 each publish puts
    the message at the tail, after dropping the oldest entry when [N] are
    held; starting from an empty history the buffer holds the last [N]
    messages published, in publish order, so after [N + 5] publishes
    exactly the last [N], the first five being gone. *)
Theorem history_bounded_fifo bus (N : Z) :
  max_history_size bus = N → 0 ≤ N →
  Z.of_nat (length (message_history bus)) ≤ N →
  (∀ ms, Z.of_nat (length (message_history (publish_all ms bus))) ≤ N)
  ∧ (0 < N → ∀ m,
       message_history (publish (ObjMessage m) bus).1
       = (if Z.of_nat (length (message_history bus)) <? N
          then message_history bus
          else drop 1 (message_history bus)) ++ [m])
  ∧ (∀ ms, message_history bus = [] →
       message_history (publish_all ms bus) = last_n (Z.to_nat N) ms)
  ∧ (∀ ms, message_history bus = [] → length ms = (Z.to_nat N + 5)%nat →
       message_history (publish_all ms bus) = drop 5 ms
       ∧ length (message_history (publish_all ms bus)) = Z.to_nat N).
Proof.
  intros HN H0 Hlen.
  assert (max_history_size bus = Z.of_nat (Z.to_nat N)) as HN' by lia.
  assert (length (message_history bus) ≤ Z.to_nat N)%nat as Hlen' by lia.
  assert (∀ ms, message_history (publish_all ms bus)
                = last_n (Z.to_nat N) (message_history bus ++ ms)) as Hall.
  { intros ms. by apply publish_all_history. }
  split; [|split; [|split]].
  - intros ms. rewrite Hall, last_n_length. lia.
  - intros Hpos m. rewrite <- HN in Hpos |- *. by apply publish_appends.
  - intros ms Hempty. by rewrite Hall, Hempty.
  - intros ms Hempty Hms. rewrite Hall, Hempty. simpl. split.
    + unfold last_n. rewrite Hms. f_equal. lia.
    + rewrite last_n_length. lia.
Qed.

End HistoryClaims.

(** ** Dispatch *)

Section DispatchFacts.
Import EventBus.
Implicit Types (self bus : EventBus.t) (m : Message.t).

(** What [publish] returns to its caller. *)
Lemma publish_result bus m :
  0 < max_history_size bus →
  (publish (ObjMessage m) bus).2
  = match subscribers bus !! KEnum (Message.type m) with
    | Some (_ :: _) => if loop_closed bus then Raise RuntimeError else Ok tt
    | _ => Ok tt
    end.
Proof.
  intros Hpos. unfold publish. history_cases bus; [full_and_empty| |].
  all: destruct (subscribers bus !! KEnum (Message.type m)) as [subs|]; [|done].
  all: destruct (loop_closed bus) eqn:Ec;
    [rewrite publish_loop_closed by done | rewrite publish_loop_open by done].
  all: by destruct subs.
Qed.

(** What [publish] hands to the loop: one coroutine per subscription
    stored under the message's type, in list order, each on the message. *)
Lemma publish_submits bus m :
  0 < max_history_size bus → loop_closed bus = false →
  loop_ready (publish (ObjMessage m) bus).1
  = loop_ready bus
    ++ map (λ sc, (sc.2, m))
         (default [] (subscribers bus !! KEnum (Message.type m))).
Proof.
  intros Hpos Hopen. unfold publish. history_cases bus; [full_and_empty| |].
  all: destruct (subscribers bus !! KEnum (Message.type m)) as [subs|]; simpl;
    [by rewrite publish_loop_open | by rewrite app_nil_r].
Qed.

(** Subscriptions are appended to the list of their key. *)
Lemma subscribe_appends k cb uid bus :
  subscribers (subscribe k cb uid bus).1
  = <[k := default [] (subscribers bus !! k) ++ [(uid, cb)]]> (subscribers bus).
Proof. reflexivity. Qed.

(** A subscription under a string leaves the lists of the enum keys as
    they were: a message's type never finds it. *)
Lemma subscribe_string_invisible s cb uid bus (x : MessageType.t) :
  subscribers (subscribe (KStr s) cb uid bus).1 !! KEnum x
  = subscribers bus !! KEnum x.
Proof. rewrite subscribe_appends. by apply lookup_insert_ne. Qed.

Lemma shutdown_fields bus :
  message_history (shutdown bus) = message_history bus
  ∧ max_history_size (shutdown bus) = max_history_size bus
  ∧ subscribers (shutdown bus) = subscribers bus
  ∧ loop_closed (shutdown bus) = true
  ∧ loop_ready (shutdown bus) = [].
Proof. done. Qed.




(** Python's [h[-limit:]] for a positive [limit]. *)
Lemma get_recent_positive limit bus :
  0 < limit →
  get_recent_messages limit bus
  = last_n (Z.to_nat limit) (message_history bus).
Proof.
  intros Hpos. unfold get_recent_messages, slice_from, last_n.
  destruct (message_history bus) as [|x h] eqn:Eh; [done|].
  assert ((Z.opp limit <? 0) = true) as -> by lia.
  f_equal. lia.
Qed.

(** And for [limit = 0]: [h[-0:]] is [h[0:]], all of [h]. *)
Lemma get_recent_zero bus :
  get_recent_messages 0 bus = message_history bus.
Proof.
  unfold get_recent_messages, slice_from.
  destruct (message_history bus) as [|x h] eqn:Eh; [done|].
  simpl. reflexivity.
Qed.

(** [publish] with something to evict or room to append: the history
    and what the caller gets. *)
Lemma publish_held bus m :
  0 < max_history_size bus ∨ message_history bus ≠ [] →
  message_history (publish (ObjMessage m) bus).1
  = (if Z.of_nat (length (message_history bus)) <? max_history_size bus
     then message_history bus
     else drop 1 (message_history bus)) ++ [m]
  ∧ (publish (ObjMessage m) bus).2
    = match subscribers bus !! KEnum (Message.type m) with
      | Some (_ :: _) => if loop_closed bus then Raise RuntimeError else Ok tt
      | _ => Ok tt
      end.
Proof.
  intros [Hpos|Hne]; [split; [by apply publish_appends|by apply publish_result]|].
  destruct (decide (0 < max_history_size bus)) as [Hpos|Hcap];
    [split; [by apply publish_appends|by apply publish_result]|].
  assert ((Z.of_nat (length (message_history bus)) <? max_history_size bus)
          = false) as ->
    by (apply Z.ltb_ge; lia).
  split.
  - rewrite publish_history.
    destruct (Z.geb_spec (Z.of_nat (length (message_history bus)))
                (max_history_size bus)); [|lia].
    by destruct (message_history bus).
  - unfold publish. history_cases bus; [done| |].
    all: destruct (subscribers bus !! KEnum (Message.type m)) as [subs|];
      [|done].
    all: destruct (loop_closed bus) eqn:Ec;
      [rewrite publish_loop_closed by done | rewrite publish_loop_open by done].
    all: by destruct subs.
Qed.

(** [publish] on an empty history that has no room: the [pop] raises. *)
Lemma publish_nothing_held bus m :
  max_history_size bus ≤ 0 → message_history bus = [] →
  publish (ObjMessage m) bus = (bus, Raise IndexError).
Proof.
  intros Hcap Hempty. unfold publish. rewrite Hempty.
  by destruct (Z.geb_spec (Z.of_nat (length (@nil Message.t)))
                 (max_history_size bus)); [|simpl in *; lia].
Qed.

End DispatchFacts.

Section DispatchClaims.
Import EventBus.
Implicit Types (self bus : EventBus.t) (m : Message.t).

(** C1, as the code has it.  After [shutdown()], [publish(m)] treats the
    history as it did before: it puts [m] at the tail, after dropping the
    oldest entry of a full buffer, and then returns normally when no
    subscription is stored under [m]'s type, and otherwise the closed
    loop's [RuntimeError] reaches the caller.  Only on an empty history
    with a capacity of zero or less is nothing recorded: there the [pop]
    of the eviction raises [IndexError], closed bus or open. *)
Theorem publish_after_shutdown bus m :
  (0 < max_history_size bus ∨ message_history bus ≠ [] →
   message_history (publish (ObjMessage m) (shutdown bus)).1
   = (if Z.of_nat (length (message_history bus)) <? max_history_size bus
      then message_history bus
      else drop 1 (message_history bus)) ++ [m]
   ∧ (publish (ObjMessage m) (shutdown bus)).2
     = match subscribers bus !! KEnum (Message.type m) with
       | Some (_ :: _) => Raise RuntimeError
       | _ => Ok tt
       end)
  ∧ (max_history_size bus ≤ 0 → message_history bus = [] →
     publish (ObjMessage m) (shutdown bus) = (shutdown bus, Raise IndexError)
     ∧ publish (ObjMessage m) bus = (bus, Raise IndexError)).
Proof.
  destruct (shutdown_fields bus) as (Hh & HN & Hs & Hc & _).
  split.
  - intros Hheld.
    destruct (publish_held (shutdown bus) m) as [Happ Hres];
      [by rewrite Hh, HN|].
    split; [by rewrite Happ, Hh, HN|]. by rewrite Hres, Hs, Hc.
  - intros Hcap Hempty.
    split; apply publish_nothing_held; by rewrite ?Hh, ?HN.
Qed.

(** C3, on the code.  On a new bus, a callback subscribed under a string,
    the name of the message's type included, is handed nothing when the
    message is published: the queue of the loop stays empty, [publish]
    returns normally and the message is in the history. *)
Theorem string_subscription_gets_nothing (s uid : string) (cb : Callback) m :
  let bus := (subscribe (KStr s) cb uid Sample.bus).1 in
  subscribers bus !! KStr s = Some [(uid, cb)]
  ∧ loop_ready (publish (ObjMessage m) bus).1 = []
  ∧ (publish (ObjMessage m) bus).2 = Ok tt
  ∧ message_history (publish (ObjMessage m) bus).1 = [m].
Proof.
  intros bus.
  assert (subscribers bus !! KEnum (Message.type m) = None) as Hnone.
  { unfold bus. by rewrite subscribe_string_invisible. }
  split; [|split; [|split]].
  - unfold bus. rewrite subscribe_appends. by rewrite lookup_insert_eq.
  - rewrite publish_submits by done. by rewrite Hnone.
  - rewrite publish_result by done. by rewrite Hnone.
  - by rewrite publish_history.
Qed.


(** C6, on the code.  With two messages in the history,
    [get_recent_messages(0)] returns both of them. *)
Theorem recent_zero_returns_everything :
  let bus := publish_all [Sample.bare; Sample.full] Sample.bus in
  message_history bus = [Sample.bare; Sample.full]
  ∧ get_recent_messages 0 bus = [Sample.bare; Sample.full].
Proof. split; reflexivity. Qed.

End DispatchClaims.

(** ** The claims at concrete inputs *)

Section Instances.
Import EventBus.

Lemma kind_validation_witness :
  Message.__init__ (PStr "NOT_A_KIND") (PRef 1) PNone PNone (PFloat 0.5)
    (PStr "uid-9") PNone PNone PNone (PInt 0) PNone (PRef 2)
  = Raise ValueError
  ∧ (Message.from_dict 4 0.5 "uid-9" Sample.σ1).2 = Raise ValueError
  ∧ (Message.from_dict 5 0.5 "uid-9" Sample.σ1).2 = Raise ValueError
  ∧ Message.__init__ (PStr "LOG") (PRef 6) PNone PNone (PFloat 0.5)
      (PStr "uid-9") PNone PNone PNone (PInt 3) PNone (PRef 7)
    = Ok Sample.from_minimal.
Proof.
  destruct kind_validation as (Hstr & Hrec & Hok).
  split; [|split; [|split]].
  - apply Hstr. intros x. destruct x; discriminate.
  - apply (Hrec Sample.σ1 4%positive (<["type" := PStr "NOT_A_KIND"]> ∅)
             (PStr "NOT_A_KIND")); [reflexivity | reflexivity |].
    intros [x [H|H]]; [discriminate | destruct x; discriminate].
  - apply (Hrec Sample.σ1 5%positive (<["type" := PInt 7]> ∅) (PInt 7));
      [reflexivity | reflexivity |].
    intros [x [H|H]]; discriminate.
  - apply (Hok MessageType.LOG). right. reflexivity.
Defined.

Lemma from_dict_consumes_type_witness :
  Sample.σ1 !! 3%positive = Some Sample.minimal_record
  ∧ Message.from_dict 3 0.5 "uid-9" Sample.σ1
    = (Sample.σ1_popped, Ok Sample.from_minimal)
  ∧ Sample.σ1_popped !! 3%positive = Some (delete "type" Sample.minimal_record)
  ∧ Message.from_dict 3 0.75 "uid-10" Sample.σ1_popped
    = (Sample.σ1_popped, Raise KeyError).
Proof.
  assert (Sample.σ1 !! 3%positive = Some Sample.minimal_record) as H1
    by reflexivity.
  assert (Message.from_dict 3 0.5 "uid-9" Sample.σ1
          = (Sample.σ1_popped, Ok Sample.from_minimal)) as H2
    by (vm_compute; reflexivity).
  destruct (from_dict_consumes_type _ _ _ _ _ _ _ H1 H2) as (_ & H3 & _ & H4).
  split; [exact H1|]. split; [exact H2|]. split; [exact H3|]. apply H4.
Defined.

Lemma to_dict_from_dict_roundtrip_witness :
  type_name_in_sync Sample.full
  ∧ ∃ data σ1 σ2,
      Message.to_dict Sample.full Sample.σ0 = (σ1, Ok data)
      ∧ Message.from_dict data 0.5 "uid-9" σ1 = (σ2, Ok Sample.full).
Proof.
  split; [reflexivity|].
  destruct (to_dict_from_dict_roundtrip Sample.σ0 Sample.full 0.5 "uid-9"
              eq_refl) as (data & σ1 & σ2 & Hto & Hfrom & _).
  by exists data, σ1, σ2.
Defined.

(** The same on a message whose optional fields are all [None], by
    running the code. *)
Example roundtrip_bare :
  ((let* data := Message.to_dict Sample.bare in
    Message.from_dict data 0.5 "uid-9") Sample.σ0).2 = Ok Sample.bare.
Proof. vm_compute. reflexivity. Qed.

Lemma with_content_merges_witness :
  Message.content Sample.bare = PRef 1
  ∧ Sample.σ0 !! 1%positive = Some (<["a" := PInt 0]> (<["b" := PInt 2]> ∅))
  ∧ Message.metadata Sample.bare = PRef 2
  ∧ Sample.σ0 !! 2%positive = Some ∅
  ∧ ∃ σ' m' lc',
      Message.with_content Sample.bare {[ "a" := PInt 1 ]} 0.5 "uid-9" Sample.σ0
      = (σ', Ok m')
      ∧ Message.content m' = PRef lc'
      ∧ σ' !! lc'
        = Some ({[ "a" := PInt 1 ]} ∪ <["a" := PInt 0]> (<["b" := PInt 2]> ∅))
      ∧ Message.parent_id m' = PStr "msg-1"
      ∧ σ' !! 1%positive = Some (<["a" := PInt 0]> (<["b" := PInt 2]> ∅)).
Proof.
  assert (Sample.σ0 !! 1%positive
          = Some (<["a" := PInt 0]> (<["b" := PInt 2]> ∅))) as H1
    by reflexivity.
  assert (Sample.σ0 !! 2%positive = Some ∅) as H2 by reflexivity.
  repeat (split; [reflexivity|]).
  destruct (with_content_merges Sample.σ0 Sample.bare {[ "a" := PInt 1 ]}
              0.5 "uid-9" 1%positive 2%positive _ _ eq_refl H1 eq_refl H2)
    as (σ' & m' & lc' & lm' & Hrun & Hc & Hlc & _ & Hp & _ & _ & _ & _ & _
        & _ & _ & _ & _ & Hkeep).
  exists σ', m', lc'. repeat split; try done. by apply Hkeep.
Defined.

(** The spec's example: [with_content(a=1)] on the payload
    [{"a": 0, "b": 2}] gives [{"a": 1, "b": 2}] in a new dictionary, and
    the original payload still reads [{"a": 0, "b": 2}]. *)
Example with_content_example :
  let σ' := (Message.with_content Sample.bare {[ "a" := PInt 1 ]} 0.5 "uid-9"
               Sample.σ0).1 in
  σ' !! 3%positive = Some (<["a" := PInt 1]> (<["b" := PInt 2]> ∅))
  ∧ σ' !! 1%positive = Some (<["a" := PInt 0]> (<["b" := PInt 2]> ∅)).
Proof. split; vm_compute; reflexivity. Qed.

Lemma create_reply_drops_ttl_witness :
  Message.metadata Sample.full = PRef 2
  ∧ Sample.σ0 !! 2%positive = Some ∅
  ∧ Message.ttl Sample.full = PInt 60
  ∧ ∃ σ' r,
      Message.create_reply Sample.full (PStr "TASK_UPDATED") (PRef 1) 0.5
        "uid-9" Sample.σ0 = (σ', Ok r)
      ∧ Message.ttl r = PNone
      ∧ Message.priority r = PInt 5.
Proof.
  assert (Sample.σ0 !! 2%positive = Some ∅) as H2 by reflexivity.
  repeat (split; [reflexivity|]).
  destruct (create_reply_drops_ttl Sample.σ0 Sample.full
              MessageType.TASK_UPDATED (PStr "TASK_UPDATED") (PRef 1) 0.5
              "uid-9" 2%positive ∅ eq_refl H2 (or_intror eq_refl))
    as (σ' & r & lm' & Hrun & Httl & _ & Hprio & _).
  exists σ', r. repeat split; done.
Defined.

Lemma history_bounded_fifo_witness :
  max_history_size Sample.small_bus = 2
  ∧ 0 ≤ 2
  ∧ Z.of_nat (length (message_history Sample.small_bus)) ≤ 2
  ∧ message_history (publish_all Sample.seven Sample.small_bus)
    = [Sample.numbered 6; Sample.numbered 7].
Proof.
  assert (0 ≤ 2) as H0 by lia.
  assert (Z.of_nat (length (message_history Sample.small_bus)) ≤ 2) as Hlen
    by (vm_compute; discriminate).
  destruct (history_bounded_fifo Sample.small_bus 2 eq_refl H0 Hlen)
    as (_ & _ & _ & H).
  split; [reflexivity|]. split; [exact H0|]. split; [exact Hlen|].
  apply (H Sample.seven); reflexivity.
Defined.

Lemma publish_after_shutdown_witness :
  (0 < max_history_size Sample.subscribed_bus
   ∨ message_history Sample.subscribed_bus ≠ [])
  ∧ message_history
      (publish (ObjMessage Sample.bare) (shutdown Sample.subscribed_bus)).1
    = [Sample.bare]
  ∧ (publish (ObjMessage Sample.bare) (shutdown Sample.subscribed_bus)).2
    = Raise RuntimeError
  ∧ max_history_size Cases.bus_without_history ≤ 0
  ∧ message_history Cases.bus_without_history = []
  ∧ publish (ObjMessage Sample.bare) (shutdown Cases.bus_without_history)
    = (shutdown Cases.bus_without_history, Raise IndexError).
Proof.
  assert (0 < max_history_size Sample.subscribed_bus
          ∨ message_history Sample.subscribed_bus ≠ []) as Hheld
    by (left; reflexivity).
  assert (max_history_size Cases.bus_without_history ≤ 0) as Hcap
    by (vm_compute; discriminate).
  destruct (publish_after_shutdown Sample.subscribed_bus Sample.bare)
    as [Hrecorded _].
  destruct (publish_after_shutdown Cases.bus_without_history Sample.bare)
    as [_ Hnothing].
  split; [exact Hheld|].
  split; [exact (proj1 (Hrecorded Hheld))|].
  split; [exact (proj2 (Hrecorded Hheld))|].
  split; [exact Hcap|]. split; [reflexivity|].
  exact (proj1 (Hnothing Hcap eq_refl)).
Defined.

(** After [shutdown()] of a bus without subscriptions, [publish] returns
    normally and the message is in the history: it neither raises nor
    leaves the history as it was. *)
Lemma publish_after_shutdown_counterexample :
  (¬ ∃ e, (publish (ObjMessage Sample.bare) (shutdown Sample.bus)).2 = Raise e)
  ∧ message_history (publish (ObjMessage Sample.bare) (shutdown Sample.bus)).1
    ≠ message_history (shutdown Sample.bus)
  ∧ (publish (ObjMessage Sample.bare) (shutdown Sample.bus)).2 = Ok tt
  ∧ message_history (publish (ObjMessage Sample.bare) (shutdown Sample.bus)).1
    = [Sample.bare].
Proof.
  repeat split.
  - intros [e He]. vm_compute in He. discriminate.
  - vm_compute. discriminate.
Qed.



End Instances.

(** * Further properties *)

(** ** The registry *)

Section RegistryFacts.
Import EventBus.
Implicit Types (bus : EventBus.t) (k : EventKey) (id : string).

Lemma filter_keeps_all {A} (P : A → Prop) `{∀ x, Decision (P x)} (l : list A) :
  Forall P l → filter P l = l.
Proof.
  induction 1 as [|x l Hx _ IH]; [done|].
  by rewrite filter_cons_True, IH.
Qed.

Lemma set_subscribers_same bus :
  set_subscribers (subscribers bus) bus = bus.
Proof. by destruct bus. Qed.

(** Removing an id that is not there leaves the list as it is. *)
Lemma filter_absent id (subs : list (string * Callback)) :
  id ∉ subs.*1 → filter (λ sc : string * Callback, sc.1 ≠ id) subs = subs.
Proof.
  intros Hid. apply filter_keeps_all, Forall_forall. intros [i cb] Hin Heq.
  simpl in Heq. subst i. apply Hid. apply list_elem_of_fmap. by exists (id, cb).
Qed.

(** After the removal the id is gone. *)
Lemma filter_removes id (subs : list (string * Callback)) :
  id ∉ (filter (λ sc : string * Callback, sc.1 ≠ id) subs).*1.
Proof.
  intros Hin. apply list_elem_of_fmap in Hin as ([i cb] & Hi & Hin).
  apply list_elem_of_filter in Hin as [Hne _]. simpl in *. congruence.
Qed.

(** The removal shortens the list exactly when the id is in it. *)
Lemma filter_shorter id (subs : list (string * Callback)) :
  (length (filter (λ sc : string * Callback, sc.1 ≠ id) subs) < length subs)%nat
  ↔ id ∈ subs.*1.
Proof.
  split.
  - intros Hlt. destruct (decide (id ∈ subs.*1)) as [|Hnot]; [done|].
    rewrite filter_absent in Hlt by done. lia.
  - intros Hin. apply list_elem_of_fmap in Hin as ([i cb] & Hi & Hin).
    simpl in Hi. subst i.
    apply (length_filter_lt _ _ (id, cb)); [done|]. simpl. by intros Hne.
Qed.

(** What [unsubscribe] returns and what it leaves under the key. *)
Lemma unsubscribe_found k id bus subs :
  subscribers bus !! k = Some subs →
  (unsubscribe k id bus).2 = bool_decide (id ∈ subs.*1)
  ∧ subscribers (unsubscribe k id bus).1 !! k
    = match filter (λ sc : string * Callback, sc.1 ≠ id) subs with
      | [] => None
      | subs' => Some subs'
      end
  ∧ ∀ k', k' ≠ k →
      subscribers (unsubscribe k id bus).1 !! k' = subscribers bus !! k'.
Proof.
  intros Hk. unfold unsubscribe. rewrite Hk.
  set (subs' := filter (λ sc : string * Callback, sc.1 ≠ id) subs).
  assert (bool_decide (length subs' < length subs)%nat
          = bool_decide (id ∈ subs.*1)) as Hret.
  { apply bool_decide_ext, filter_shorter. }
  rewrite Hret.
  destruct (bool_decide (id ∈ subs.*1)); destruct subs' as [|sc rest] eqn:E;
    simpl; (split; [done|]); split;
    rewrite ?lookup_delete_eq, ?lookup_insert_eq; try done;
    intros k' Hne; rewrite ?lookup_delete_ne by done;
    by rewrite lookup_insert_ne.
Qed.

Lemma unsubscribe_missing k id bus :
  subscribers bus !! k = None → unsubscribe k id bus = (bus, false).
Proof. intros Hk. unfold unsubscribe. by rewrite Hk. Qed.

End RegistryFacts.

Section RegistryFrame.
Import EventBus.
Implicit Types (bus : EventBus.t) (k : EventKey) (id : string).

(** [subscribe] and [unsubscribe] touch the registry and the log only. *)
Lemma subscribe_frame k cb uid bus :
  let bus' := (subscribe k cb uid bus).1 in
  message_history bus' = message_history bus
  ∧ max_history_size bus' = max_history_size bus
  ∧ loop_closed bus' = loop_closed bus
  ∧ loop_ready bus' = loop_ready bus.
Proof. done. Qed.

Lemma unsubscribe_frame k id bus :
  let bus' := (unsubscribe k id bus).1 in
  message_history bus' = message_history bus
  ∧ max_history_size bus' = max_history_size bus
  ∧ loop_closed bus' = loop_closed bus
  ∧ loop_ready bus' = loop_ready bus.
Proof.
  unfold unsubscribe. destruct (subscribers bus !! k) as [subs|]; [|done].
  destruct (bool_decide _); by destruct (filter _ subs).
Qed.

Lemma ids_under_Some k bus subs :
  subscribers bus !! k = Some subs → ids_under k bus = subs.*1.
Proof. unfold ids_under. by intros ->. Qed.

Lemma ids_under_None k bus :
  subscribers bus !! k = None → ids_under k bus = [].
Proof. unfold ids_under. by intros ->. Qed.

Lemma registry_ok_new config bus :
  EventBus.__init__ config = Ok bus → registry_ok bus.
Proof.
  unfold EventBus.__init__.
  destruct (_ <=? 0); [discriminate|]. intros [= <-] k. simpl.
  by rewrite lookup_empty.
Qed.

Lemma registry_ok_subscribe k cb uid bus :
  registry_ok bus → registry_ok (subscribe k cb uid bus).1.
Proof.
  intros Hok k'. rewrite subscribe_appends.
  destruct (decide (k = k')) as [->|Hne].
  - rewrite lookup_insert_eq. intros [= Heq].
    by apply app_nil in Heq as [_ ?].
  - rewrite lookup_insert_ne by done. apply Hok.
Qed.

Lemma registry_ok_unsubscribe k id bus :
  registry_ok bus → registry_ok (unsubscribe k id bus).1.
Proof.
  intros Hok k'.
  destruct (subscribers bus !! k) as [subs|] eqn:Hk;
    [|by rewrite (unsubscribe_missing k id bus Hk)].
  destruct (unsubscribe_found k id bus subs Hk) as (_ & Hleft & Hother).
  destruct (decide (k' = k)) as [->|Hne].
  - rewrite Hleft. by destruct (filter _ subs).
  - rewrite (Hother k' Hne). apply Hok.
Qed.

End RegistryFrame.

Section RegistryProperties.
Import EventBus.
Implicit Types (bus : EventBus.t) (k : EventKey) (id : string) (m : Message.t).

(** X1.  [unsubscribe] with an unknown kind, or with an id that is not
    registered under the kind, returns [False] and leaves the bus exactly as
    it was: nothing is removed, nothing is logged. *)
Theorem unsubscribe_absent k id bus :
  registry_ok bus → id ∉ ids_under k bus →
  unsubscribe k id bus = (bus, false).
Proof.
  intros Hok Hid.
  destruct (subscribers bus !! k) as [subs|] eqn:Hk;
    [|by apply unsubscribe_missing].
  rewrite (ids_under_Some k bus subs Hk) in Hid.
  unfold unsubscribe. rewrite Hk, (filter_absent id subs Hid).
  rewrite bool_decide_eq_false_2 by lia.
  rewrite insert_id by done. rewrite set_subscribers_same.
  destruct subs as [|sc subs]; [by destruct (Hok k)|done].
Qed.

(** X2.  Subscribing and then unsubscribing with the id that [subscribe]
    returned gives [True] and the bus as it was before, but for the two
    DEBUG records in the log, provided the id was not already in use under
    that kind. *)
Theorem subscribe_unsubscribe k cb uid bus :
  registry_ok bus → uid ∉ ids_under k bus →
  unsubscribe k (subscribe k cb uid bus).2 (subscribe k cb uid bus).1
  = (log DEBUG ("Removed subscription to " ++ key_str k ++ ", ID: " ++ uid)%string
       (log DEBUG ("Added subscription to " ++ key_str k ++ ", ID: " ++ uid)%string
          bus),
     true).
Proof.
  intros Hok Hid. unfold subscribe, unsubscribe. simpl.
  rewrite lookup_insert_eq.
  set (old := default [] (subscribers bus !! k)).
  assert (filter (λ sc : string * Callback, sc.1 ≠ uid) (old ++ [(uid, cb)])
          = old) as ->.
  { rewrite filter_app, (filter_absent uid old Hid).
    rewrite filter_cons_False by (simpl; tauto). by rewrite app_nil_r. }
  rewrite bool_decide_eq_true_2 by (rewrite length_app; simpl; lia).
  assert (match old with
          | [] => delete k (<[k := old]> (<[k := old ++ [(uid, cb)]]> (subscribers bus)))
          | _ => <[k := old]> (<[k := old ++ [(uid, cb)]]> (subscribers bus))
          end = subscribers bus) as Hback.
  { unfold old. destruct (subscribers bus !! k) as [subs|] eqn:Hk; simpl.
    - destruct subs as [|sc subs]; [by destruct (Hok k)|].
      rewrite insert_insert_eq. by apply insert_id.
    - rewrite !delete_insert_eq. by apply delete_id. }
  destruct bus as [lg sb mw es lc lr mh ms]. simpl in *.
  destruct old; unfold log, set_subscribers; simpl in *; by rewrite Hback.
Qed.

(** X3.  [unsubscribe] returns [True] exactly when the id is registered
    under the kind; afterwards the id is not registered under it, and a
    second [unsubscribe] with the same arguments returns [False]. *)
Theorem unsubscribe_returns k id bus :
  (unsubscribe k id bus).2 = bool_decide (id ∈ ids_under k bus)
  ∧ (id ∉ ids_under k (unsubscribe k id bus).1)
  ∧ (unsubscribe k id (unsubscribe k id bus).1).2 = false.
Proof.
  assert (id ∉ (ids_under k (unsubscribe k id bus).1)) as Hgone.
  { destruct (subscribers bus !! k) as [subs|] eqn:Hk.
    - destruct (unsubscribe_found k id bus subs Hk) as (_ & Hleft & _).
      unfold ids_under. rewrite Hleft.
      pose proof (filter_removes id subs) as Hrm.
      destruct (filter _ subs); [apply not_elem_of_nil|done].
    - rewrite (unsubscribe_missing k id bus Hk). simpl.
      rewrite (ids_under_None k bus Hk). apply not_elem_of_nil. }
  assert (∀ b, (unsubscribe k id b).2 = bool_decide (id ∈ ids_under k b)) as Hret.
  { intros b. destruct (subscribers b !! k) as [subs|] eqn:Hk.
    - rewrite (ids_under_Some k b subs Hk).
      by destruct (unsubscribe_found k id b subs Hk) as (-> & _).
    - rewrite (unsubscribe_missing k id b Hk), (ids_under_None k b Hk).
      reflexivity. }
  split; [apply Hret|]. split; [exact Hgone|].
  rewrite Hret. by apply bool_decide_eq_false_2.
Qed.

(** X4.  The registry never holds an empty list: this is so on a new bus
    and stays so through [subscribe], [unsubscribe], [publish] and
    [shutdown].  A kind is a key of the registry exactly when it has a
    subscription. *)
Theorem registry_ok_kept :
  (∀ config bus, EventBus.__init__ config = Ok bus → registry_ok bus)
  ∧ (∀ bus, registry_ok bus →
       (∀ k cb uid, registry_ok (subscribe k cb uid bus).1)
       ∧ (∀ k id, registry_ok (unsubscribe k id bus).1)
       ∧ (∀ obj, registry_ok (publish obj bus).1)
       ∧ registry_ok (shutdown bus)).
Proof.
  split; [apply registry_ok_new|].
  intros bus Hok. split; [|split; [|split]].
  - intros k cb uid. by apply registry_ok_subscribe.
  - intros k id. by apply registry_ok_unsubscribe.
  - intros obj k. destruct (publish_frame obj bus) as (_ & -> & _). apply Hok.
  - intros k. apply Hok.
Qed.

(** X5.  Once a subscription is removed its callback is not called any
    more: on an open bus, publishing a message after [unsubscribe] queues
    the callbacks of the other subscriptions of the message's type, in
    their order, and none for the removed id. *)
Theorem unsubscribed_not_dispatched id bus m :
  0 < max_history_size bus → loop_closed bus = false →
  loop_ready
    (publish (ObjMessage m) (unsubscribe (KEnum (Message.type m)) id bus).1).1
  = loop_ready bus
    ++ map (λ sc, (sc.2, m))
         (filter (λ sc : string * Callback, sc.1 ≠ id)
            (default [] (subscribers bus !! KEnum (Message.type m)))).
Proof.
  intros Hpos Hopen.
  destruct (unsubscribe_frame (KEnum (Message.type m)) id bus)
    as (_ & HN & Hc & Hr).
  rewrite publish_submits by congruence. rewrite Hr. f_equal. f_equal.
  destruct (subscribers bus !! KEnum (Message.type m)) as [subs|] eqn:Hk.
  - destruct (unsubscribe_found _ id bus subs Hk) as (_ & -> & _).
    simpl. by destruct (filter _ subs).
  - rewrite (unsubscribe_missing _ id bus Hk). simpl. by rewrite Hk.
Qed.

(** X6.  A subscription made under a message type (the enum member) is
    served after those made before it: on an open bus, publishing a
    message of that type queues the earlier callbacks in their order and
    then the new one, once.  Subscribing the same callback again queues it
    again; nothing is deduplicated. *)
Theorem subscribed_dispatched_last cb uid bus m :
  0 < max_history_size bus → loop_closed bus = false →
  loop_ready
    (publish (ObjMessage m) (subscribe (KEnum (Message.type m)) cb uid bus).1).1
  = loop_ready bus
    ++ map (λ sc, (sc.2, m))
         (default [] (subscribers bus !! KEnum (Message.type m)))
    ++ [(cb, m)].
Proof.
  intros Hpos Hopen. rewrite publish_submits by done.
  rewrite subscribe_appends, lookup_insert_eq. simpl.
  by rewrite map_app.
Qed.

End RegistryProperties.

(** ** History and its readers *)

Section HistoryProperties.
Import EventBus.
Implicit Types (bus : EventBus.t) (m : Message.t) (ms : list Message.t).

(** X7.  With a history capacity of zero or less, [publish] on the empty
    history raises [IndexError] from the [pop] and does nothing else: the
    message is not recorded and no callback is queued, whatever is
    subscribed; so it goes for every further message. *)
Theorem publish_without_capacity bus :
  max_history_size bus ≤ 0 → message_history bus = [] →
  (∀ m, publish (ObjMessage m) bus = (bus, Raise IndexError))
  ∧ (∀ ms, publish_all ms bus = bus).
Proof.
  intros Hcap Hempty.
  assert (∀ m, publish (ObjMessage m) bus = (bus, Raise IndexError)) as Hone.
  { intros m. unfold publish. rewrite Hempty. simpl.
    destruct (Z.geb_spec (Z.of_nat 0) (max_history_size bus)); [done|lia]. }
  split; [exact Hone|].
  induction ms as [|m ms IH]; [done|].
  change (publish_all (m :: ms) bus)
    with (publish_all ms (publish (ObjMessage m) bus).1).
  by rewrite Hone.
Qed.

(** X8.  For a positive [limit], [get_recent_messages] returns the last
    [limit] messages of the history in publish order: as many as the
    history holds when that is fewer, never more than [limit]. *)
Theorem recent_positive_limit limit bus :
  0 < limit →
  get_recent_messages limit bus
  = last_n (Z.to_nat limit) (message_history bus)
  ∧ Z.of_nat (length (get_recent_messages limit bus)) ≤ limit
  ∧ (Z.of_nat (length (message_history bus)) ≤ limit →
     get_recent_messages limit bus = message_history bus).
Proof.
  intros Hpos. rewrite get_recent_positive by done.
  split; [done|]. split.
  - rewrite last_n_length. lia.
  - intros Hall. apply last_n_all. lia.
Qed.

(** X9.  For a negative [limit] [-k], [get_recent_messages] returns the
    history without its first [k] messages: the slice [h[k:]], not the
    last [k]. *)
Theorem recent_negative_limit limit bus :
  limit < 0 →
  get_recent_messages limit bus
  = drop (Z.to_nat (- limit)) (message_history bus).
Proof.
  intros Hneg. unfold get_recent_messages, slice_from.
  destruct (message_history bus) as [|x h] eqn:Eh; [by rewrite drop_nil|].
  destruct (Z.ltb_spec (- limit) 0); [lia|].
  destruct (Z.min_spec (- limit) (Z.of_nat (length (x :: h))))
    as [[Hlt ->]|[Hge ->]]; [done|].
  rewrite Nat2Z.id, !drop_ge; [done | lia | done].
Qed.

End HistoryProperties.

(** ** Derived messages *)

Section DerivationFacts.
Implicit Types (σ : Store) (m : Message.t).

Lemma bind_Ok_inv {A B} (c : M A) (k : A → M B) σ σ' b :
  bind c k σ = (σ', Ok b) →
  ∃ σ1 a, c σ = (σ1, Ok a) ∧ k a σ1 = (σ', Ok b).
Proof.
  unfold bind. destruct (c σ) as [σ1 [a|e]]; [|discriminate].
  intros Hk. by exists σ1, a.
Qed.

(** The reply [create_reply] builds, for a recognized kind. *)
Lemma create_reply_built σ m x ty (c : PyVal) now uid lm (dm : dict) :
  Message.metadata m = PRef lm → σ !! lm = Some dm →
  ty = PEnum x ∨ ty = PStr (MessageType.name x) →
  Message.create_reply m ty c now uid σ
  = (<[fresh (dom σ) := dm]> σ,
     Ok {| Message.type := x; Message.content := c;
           Message.sender := Message.recipient m;
           Message.recipient := Message.sender m;
           Message.timestamp := PFloat now; Message.message_id := PStr uid;
           Message.parent_id := Message.message_id m;
           Message.context_id := Message.context_id m;
           Message.thread_id := Message.thread_id m;
           Message.priority := Message.priority m;
           Message.ttl := PNone; Message.metadata := PRef (fresh (dom σ));
           Message.type_name := MessageType.name x |}).
Proof.
  intros Hm Hlm Hty. unfold Message.create_reply. rewrite Hm.
  rewrite (bind_Ok _ _ _ _ _ (py_dict_ref σ lm dm Hlm)).
  unfold lift. by rewrite (init_recognized x ty).
Qed.

(** The message [with_content] builds. *)
Lemma with_content_built σ m (kwargs : dict) now uid lc lm (dc dm : dict) :
  Message.content m = PRef lc → σ !! lc = Some dc →
  Message.metadata m = PRef lm → σ !! lm = Some dm →
  let l1 := fresh (dom σ) in
  let σ1 := <[l1 := kwargs ∪ dc]> σ in
  let l2 := fresh (dom σ1) in
  Message.with_content m kwargs now uid σ
  = (<[l2 := dm]> σ1,
     Ok {| Message.type := Message.type m; Message.content := PRef l1;
           Message.sender := Message.sender m;
           Message.recipient := Message.recipient m;
           Message.timestamp := PFloat now; Message.message_id := PStr uid;
           Message.parent_id := Message.message_id m;
           Message.context_id := Message.context_id m;
           Message.thread_id := Message.thread_id m;
           Message.priority := Message.priority m;
           Message.ttl := Message.ttl m; Message.metadata := PRef l2;
           Message.type_name := MessageType.name (Message.type m) |}).
Proof.
  intros Hc Hlc Hm Hlm l1 σ1 l2. unfold Message.with_content. rewrite Hc, Hm.
  assert (σ !! l1 = None) as Hl1 by apply (alloc_fresh σ dc).
  rewrite (bind_Ok _ _ _ _ _ (py_dict_ref σ lc dc Hlc)). fold l1.
  erewrite (bind_Ok _ _ _ _ tt);
    [|apply (dict_update_Some _ l1 dc), lookup_insert_eq].
  rewrite insert_insert_eq. fold σ1.
  assert (σ1 !! lm = Some dm) as Hlm1.
  { unfold σ1. rewrite lookup_insert_ne; [done|congruence]. }
  rewrite (bind_Ok _ _ _ _ _ (py_dict_ref σ1 lm dm Hlm1)). fold l2.
  unfold lift, Message.__init__. by rewrite post_init_enum.
Qed.

(** Two allocations in a row: both addresses are new and differ. *)
Lemma two_fresh σ (d1 : dict) :
  σ !! fresh (dom σ) = None
  ∧ σ !! fresh (dom (<[fresh (dom σ) := d1]> σ)) = None
  ∧ fresh (dom σ) ≠ fresh (dom (<[fresh (dom σ) := d1]> σ)).
Proof.
  set (l1 := fresh (dom σ)). set (l2 := fresh (dom (<[l1 := d1]> σ))).
  assert (σ !! l1 = None) as H1 by apply (alloc_fresh σ d1).
  assert (<[l1 := d1]> σ !! l2 = None) as H2 by apply (alloc_fresh _ d1).
  assert (l1 ≠ l2) as Hne.
  { intros Heq. rewrite <- Heq, lookup_insert_eq in H2. discriminate. }
  repeat split; [done| |done].
  by rewrite lookup_insert_ne in H2.
Qed.

End DerivationFacts.

Section DerivationProperties.
Implicit Types (σ : Store) (m : Message.t).

(** X10.  [create_reply] swaps sender and recipient and takes a new id and
    timestamp; its parent is the original's id.  A reply to the reply is
    addressed like the original again, its parent is the first reply, and
    context id, thread id and priority are those of the original. *)
Theorem reply_of_reply σ m x1 x2 (c1 c2 : PyVal) now1 uid1 now2 uid2
    lm (dm : dict) :
  Message.metadata m = PRef lm → σ !! lm = Some dm →
  ∃ σ1 r1 σ2 r2,
    Message.create_reply m (PEnum x1) c1 now1 uid1 σ = (σ1, Ok r1)
    ∧ Message.create_reply r1 (PEnum x2) c2 now2 uid2 σ1 = (σ2, Ok r2)
    ∧ Message.sender r1 = Message.recipient m
    ∧ Message.recipient r1 = Message.sender m
    ∧ Message.message_id r1 = PStr uid1
    ∧ Message.timestamp r1 = PFloat now1
    ∧ Message.parent_id r1 = Message.message_id m
    ∧ Message.sender r2 = Message.sender m
    ∧ Message.recipient r2 = Message.recipient m
    ∧ Message.parent_id r2 = PStr uid1
    ∧ Message.context_id r2 = Message.context_id m
    ∧ Message.thread_id r2 = Message.thread_id m
    ∧ Message.priority r2 = Message.priority m.
Proof.
  intros Hm Hlm.
  eexists _, _, _, _. split.
  { apply (create_reply_built σ m x1 _ c1 now1 uid1 lm dm Hm Hlm). by left. }
  split.
  { apply (create_reply_built _ _ x2 _ c2 now2 uid2 (fresh (dom σ)) dm);
      [reflexivity | apply lookup_insert_eq | by left]. }
  repeat split.
Qed.

(** X11.  Two [with_content] calls in a row: the second message's payload
    is the original payload overridden by the first keyword arguments and
    then by the second, its parent is the first derived message, whose
    parent is the original; the original payload is as it was. *)
Theorem with_content_twice σ m (kw1 kw2 : dict) now1 uid1 now2 uid2
    lc lm (dc dm : dict) :
  Message.content m = PRef lc → σ !! lc = Some dc →
  Message.metadata m = PRef lm → σ !! lm = Some dm →
  ∃ σ1 m1 σ2 m2 lc2,
    Message.with_content m kw1 now1 uid1 σ = (σ1, Ok m1)
    ∧ Message.with_content m1 kw2 now2 uid2 σ1 = (σ2, Ok m2)
    ∧ Message.content m2 = PRef lc2
    ∧ σ2 !! lc2 = Some (kw2 ∪ (kw1 ∪ dc))
    ∧ Message.message_id m1 = PStr uid1
    ∧ Message.parent_id m1 = Message.message_id m
    ∧ Message.parent_id m2 = PStr uid1
    ∧ σ2 !! lc = Some dc.
Proof.
  intros Hc Hlc Hm Hlm.
  pose proof (with_content_built σ m kw1 now1 uid1 lc lm dc dm Hc Hlc Hm Hlm)
    as H1. simpl in H1.
  set (l1 := fresh (dom σ)) in *.
  set (σa := <[l1 := kw1 ∪ dc]> σ) in *.
  set (l2 := fresh (dom σa)) in *.
  set (σ1 := <[l2 := dm]> σa) in *.
  destruct (two_fresh σ (kw1 ∪ dc)) as (Hl1 & Hl2 & Hne).
  fold l1 σa l2 in Hl1, Hl2, Hne.
  assert (σ1 !! l1 = Some (kw1 ∪ dc)) as Hc1.
  { unfold σ1. rewrite lookup_insert_ne by done. apply lookup_insert_eq. }
  assert (σ1 !! l2 = Some dm) as Hm1 by apply lookup_insert_eq.
  assert (σ1 !! lc = Some dc) as Hkeep.
  { unfold σ1, σa. rewrite !lookup_insert_ne; [done|congruence|congruence]. }
  eexists _, _, _, _, _. split; [exact H1|]. split.
  { apply (with_content_built σ1 _ kw2 now2 uid2 l1 l2 (kw1 ∪ dc) dm);
      [reflexivity | exact Hc1 | reflexivity | exact Hm1]. }
  simpl. repeat split.
  - destruct (two_fresh σ1 (kw2 ∪ (kw1 ∪ dc))) as (_ & _ & Hne2).
    rewrite lookup_insert_ne by done. apply lookup_insert_eq.
  - destruct (two_fresh σ1 (kw2 ∪ (kw1 ∪ dc))) as (Ha & Hb & _).
    rewrite !lookup_insert_ne; [done|congruence|congruence].
Qed.

(** X12.  Derivation fails without touching what exists: [with_content]
    on a message whose payload is [None], a number or an enum member
    raises [TypeError] and leaves the store as it was; [create_reply] with
    a kind that is not recognized raises [ValueError], and every dictionary
    that existed is unchanged. *)
Theorem derivation_failures :
  (∀ σ m (kwargs : dict) now uid,
      match Message.content m with PRef _ | PStr _ => False | _ => True end →
      Message.with_content m kwargs now uid σ = (σ, Raise TypeError))
  ∧ (∀ σ m ty (c : PyVal) now uid lm (dm : dict),
      Message.metadata m = PRef lm → σ !! lm = Some dm → ¬ recognized ty →
      ∃ σ', Message.create_reply m ty c now uid σ = (σ', Raise ValueError)
            ∧ ∀ l (d : dict), σ !! l = Some d → σ' !! l = Some d).
Proof.
  split.
  - intros σ m kwargs now uid Hc. unfold Message.with_content.
    by destruct (Message.content m).
  - intros σ m ty c now uid lm dm Hm Hlm Hty.
    unfold Message.create_reply. rewrite Hm.
    rewrite (bind_Ok _ _ _ _ _ (py_dict_ref σ lm dm Hlm)).
    unfold lift, Message.__init__. rewrite (post_init_unrecognized ty Hty).
    eexists. split; [reflexivity|].
    intros l d Hl. by apply (alloc_preserves σ dm).
Qed.

End DerivationProperties.

(** ** Records *)

Section RecordProperties.
Implicit Types (σ : Store) (m : Message.t) (data : loc) (d : dict).

(** X13.  How [from_dict] fails.  A record without a ["type"] entry raises
    [KeyError] and is left as it was.  A record whose kind is a string that
    names no member raises [ValueError], but only after the entry was
    popped: the record has lost its kind, and a second [from_dict] on it
    raises [KeyError]. *)
Theorem from_dict_failures :
  (∀ σ data d now uid,
      σ !! data = Some d → d !! "type" = None →
      Message.from_dict data now uid σ = (σ, Raise KeyError))
  ∧ (∀ σ data d s now uid,
      σ !! data = Some d → d !! "type" = Some (PStr s) →
      (∀ x, MessageType.name x ≠ s) →
      ∃ σ',
        Message.from_dict data now uid σ = (σ', Raise ValueError)
        ∧ σ' !! data = Some (delete "type" d)
        ∧ ∀ now' uid',
            Message.from_dict data now' uid' σ' = (σ', Raise KeyError)).
Proof.
  split.
  - intros. by apply (from_dict_missing σ data d).
  - intros σ data d s now uid Hl Hk Hs.
    exists (<[data := delete "type" d]> σ).
    split; [|split].
    + apply (from_dict_bad_name σ data d s now uid Hl Hk).
      by apply getitem_None.
    + apply lookup_insert_eq.
    + intros now' uid'.
      apply (from_dict_missing _ data (delete "type" d));
        [apply lookup_insert_eq | apply lookup_delete_eq].
Qed.

(** X14.  A record that holds nothing but its kind gives a message with
    the defaults of the dataclass: no sender, recipient, parent, context,
    thread or ttl, priority 0, the current time and a new id, and for
    payload and metadata two new empty dictionaries, different from each
    other and from every dictionary that existed. *)
Theorem from_dict_defaults σ data x now uid :
  σ !! data = Some {[ "type" := PStr (MessageType.name x) ]} →
  ∃ σ' lc lm,
    Message.from_dict data now uid σ
    = (σ', Ok {| Message.type := x; Message.content := PRef lc;
                 Message.sender := PNone; Message.recipient := PNone;
                 Message.timestamp := PFloat now;
                 Message.message_id := PStr uid;
                 Message.parent_id := PNone; Message.context_id := PNone;
                 Message.thread_id := PNone; Message.priority := PInt 0;
                 Message.ttl := PNone; Message.metadata := PRef lm;
                 Message.type_name := MessageType.name x |})
    ∧ lc ≠ lm
    ∧ σ !! lc = None ∧ σ !! lm = None
    ∧ σ' !! lc = Some ∅ ∧ σ' !! lm = Some ∅.
Proof.
  intros Hl.
  assert (PEnum <$> MessageType.getitem (MessageType.name x)
          = Some (PEnum x)) as Hty by (by rewrite getitem_name).
  pose proof (from_dict_built σ data _ (PStr (MessageType.name x)) (PEnum x)
                now uid Hl (lookup_singleton_eq _ _) Hty) as Hrun.
  simpl in Hrun.
  rewrite delete_singleton_eq in Hrun.
  set (σ1 := <[data := ∅]> σ) in *.
  destruct (two_fresh σ1 ∅) as (H1 & H2 & Hne).
  set (l1 := fresh (dom σ1)) in *.
  set (l2 := fresh (dom (<[l1 := ∅]> σ1))) in *.
  assert (∀ l, σ1 !! l = None → σ !! l = None) as Hback.
  { intros l Hnone. unfold σ1 in Hnone.
    destruct (decide (l = data)) as [->|Hd].
    - by rewrite lookup_insert_eq in Hnone.
    - by rewrite lookup_insert_ne in Hnone. }
  exists (<[l2 := ∅]> (<[l1 := ∅]> σ1)), l1, l2.
  split; [|repeat split].
  - by rewrite Hrun.
  - done.
  - by apply Hback.
  - by apply Hback.
  - rewrite lookup_insert_ne by done. apply lookup_insert_eq.
  - apply lookup_insert_eq.
Qed.

(** X15.  Decoding and encoding again gives the record back: for a record
    that has exactly the twelve keys [to_dict] writes and whose kind is the
    name of a member, [to_dict] of the message [from_dict] returns is a
    new dictionary equal to the record as it was before the call. *)
Theorem from_dict_to_dict_roundtrip σ data d s x now uid :
  σ !! data = Some d →
  dom d = list_to_set record_keys →
  d !! "type" = Some (PStr s) → MessageType.getitem s = Some x →
  ∃ σ1 m σ2 data',
    Message.from_dict data now uid σ = (σ1, Ok m)
    ∧ Message.to_dict m σ1 = (σ2, Ok data')
    ∧ σ2 !! data' = Some d
    ∧ data' ≠ data.
Proof.
  intros Hl Hdom Hk Hs.
  assert (∀ k, k ∈ record_keys → ∃ v, d !! k = Some v) as Hin.
  { intros k Hkin. apply (elem_of_dom (D := gset string)).
    rewrite Hdom. by apply elem_of_list_to_set. }
  assert (∀ k, k ∉ record_keys → d !! k = None) as Hout.
  { intros k Hkout. apply (not_elem_of_dom (D := gset string)).
    rewrite Hdom. by rewrite elem_of_list_to_set. }
  assert (PEnum <$> MessageType.getitem s = Some (PEnum x)) as Hty
    by (by rewrite Hs).
  pose proof (from_dict_built σ data d (PStr s) (PEnum x) now uid Hl Hk Hty)
    as Hrun.
  simpl in Hrun.
  unfold Message.__init__ in Hrun. rewrite post_init_enum in Hrun.
  eexists _, _, _, _. split; [exact Hrun|].
  split; [reflexivity|]. simpl. split.
  - rewrite lookup_insert_eq. f_equal. apply map_eq. intros k.
    assert (∀ key dflt, key ≠ "type" → key ∈ record_keys →
              Some (dict_get (delete "type" d) key dflt) = d !! key) as Hget.
    { intros key dflt Hne Hkey. unfold dict_get.
      rewrite lookup_delete_ne by done.
      by destruct (Hin key Hkey) as [v ->]. }
    rewrite (getitem_Some s x Hs).
    repeat match goal with
           | |- <[?key := _]> _ !! k = _ =>
               destruct (decide (key = k)) as [<-|];
               [rewrite lookup_insert_eq;
                first [done
                      | apply Hget;
                        [done | apply list_elem_of_In; simpl; tauto]]
               |rewrite lookup_insert_ne by done]
           end.
    rewrite lookup_empty. symmetry. apply Hout.
    intros Hk'. apply list_elem_of_In in Hk'. simpl in Hk'.
    intuition congruence.
  - match goal with
    | |- fresh (dom ?s) ≠ _ =>
        assert (s !! data = Some (delete "type" d)) as Hd
          by apply defaults_keep
    end.
    intros Heq. rewrite <- Heq in Hd.
    match type of Hd with ?s !! _ = _ =>
      pose proof (alloc_fresh s ∅) as Hf end.
    congruence.
Qed.

(** X16.  Whatever the constructor, [with_content], [create_reply] or
    [from_dict] returns has its [type_name] equal to the name of its
    [type], also when the message it was derived from did not. *)
Theorem built_in_sync :
  (∀ ty c s r ts id p cx th pr tl md m,
      Message.__init__ ty c s r ts id p cx th pr tl md = Ok m →
      type_name_in_sync m)
  ∧ (∀ self (kwargs : dict) now uid σ σ' m,
      Message.with_content self kwargs now uid σ = (σ', Ok m) →
      type_name_in_sync m)
  ∧ (∀ self ty (c : PyVal) now uid σ σ' m,
      Message.create_reply self ty c now uid σ = (σ', Ok m) →
      type_name_in_sync m)
  ∧ (∀ data now uid σ σ' m,
      Message.from_dict data now uid σ = (σ', Ok m) →
      type_name_in_sync m).
Proof.
  assert (∀ (r : result Message.t) σ σ' m,
            lift r σ = (σ', Ok m) → r = Ok m) as Hlift.
  { unfold lift. by intros r σ σ' m [= _ ->]. }
  split; [|split; [|split]].
  - intros. by eapply init_in_sync.
  - intros self kwargs now uid σ σ' m Hrun. unfold Message.with_content in Hrun.
    apply bind_Ok_inv in Hrun as (σ1 & l1 & _ & Hrun).
    apply bind_Ok_inv in Hrun as (σ2 & [] & _ & Hrun).
    apply bind_Ok_inv in Hrun as (σ3 & l2 & _ & Hrun).
    apply Hlift in Hrun. by eapply init_in_sync.
  - intros self ty c now uid σ σ' m Hrun. unfold Message.create_reply in Hrun.
    apply bind_Ok_inv in Hrun as (σ1 & l1 & _ & Hrun).
    apply Hlift in Hrun. by eapply init_in_sync.
  - intros data now uid σ σ' m Hrun. unfold Message.from_dict in Hrun.
    apply bind_Ok_inv in Hrun as (σ1 & v & _ & Hrun).
    apply bind_Ok_inv in Hrun as (σ2 & ty & _ & Hrun).
    apply bind_Ok_inv in Hrun as (σ3 & d & _ & Hrun).
    apply bind_Ok_inv in Hrun as (σ4 & l1 & _ & Hrun).
    apply bind_Ok_inv in Hrun as (σ5 & l2 & _ & Hrun).
    apply Hlift in Hrun. by eapply init_in_sync.
Qed.

End RecordProperties.

(** ** Agents *)

Section AgentFacts.
Import EventBus BaseAgent.
Context `{Handlers}.
Implicit Types (self : BaseAgent.t) (bus : EventBus.t) (m : Message.t).

Lemma sender_is_own a : sender_is (PStr a) (Some a) = true.
Proof. simpl. apply String.eqb_refl. Qed.




End AgentFacts.

Section AgentProperties.
Import EventBus BaseAgent.
Context `{Handlers}.
Implicit Types (self : BaseAgent.t) (bus : EventBus.t) (m : Message.t).

(** X17.  [send_message] of a registered agent overwrites the message's
    sender with the agent's id, whatever the producer had put there, keeps
    the other fields, and publishes that message: it is the newest entry of
    the history, and what [publish] returns or raises is what the caller
    gets.  An agent that was not registered publishes nothing: bus and
    message stay as they are and one ERROR record is logged. *)
Theorem send_message_stamps self m bus :
  (event_bus self = true → 0 < max_history_size bus →
   ∃ self' bus',
     send_message self m bus
     = (self', bus', set_sender (id_value (agent_id self)) m,
        (publish (ObjMessage (set_sender (id_value (agent_id self)) m)) bus).2)
     ∧ last (message_history bus')
       = Some (set_sender (id_value (agent_id self)) m)
     ∧ agent_id self' = agent_id self)
  ∧ (event_bus self = false →
     send_message self m bus
     = (BaseAgent.log ERROR
          [Text "Cannot send message: Agent not registered with event bus"]
          self,
        bus, m, Ok tt)).
Proof.
  split.
  - intros Hreg Hpos. unfold send_message. rewrite Hreg. cbn [negb].
    set (m' := set_sender (id_value (agent_id self)) m).
    pose proof (publish_appends bus m' Hpos) as Hhist.
    destruct (publish (ObjMessage m') bus) as [bus' [[]|e]] eqn:Hpub;
      cbn [fst snd] in *; eexists _, bus';
      (split; [reflexivity|]); rewrite Hhist, last_snoc; done.
  - intros Hreg. unfold send_message. by rewrite Hreg.
Qed.

(** X18.  An agent does not handle what it sent itself: the message that
    [send_message] of a registered agent has published carries the agent's
    id as sender, and [process_message] of that agent returns on it without
    calling [handle_message], leaving agent and store as they are.  On a
    message with another sender, [process_message] logs and hands it to
    [handle_message]. *)
Theorem own_messages_not_handled self m bus σ a :
  event_bus self = true → agent_id self = Some a →
  (∀ self' bus' m' r,
      send_message self m bus = (self', bus', m', r) →
      Message.sender m' = PStr a
      ∧ process_message self' m' σ = (self', σ, Returned))
  ∧ (Message.sender m ≠ PStr a →
     process_message self m σ
     = handle_message
         (BaseAgent.log DEBUG
            [Text "Processing message of type ";
             Text (key_str (KEnum (Message.type m)));
             Text " from "; Value (Message.sender m)] self)
         m σ).
Proof.
  intros Hreg Hid. split.
  - intros self' bus' m' r Hsend. unfold send_message in Hsend.
    rewrite Hreg, Hid in Hsend. cbn [negb id_value] in Hsend.
    assert (Message.sender m' = PStr a ∧ agent_id self' = Some a) as [Hs Ha].
    { destruct (publish _ bus) as [b [[]|e]]; by simplify_eq. }
    split; [done|]. unfold process_message.
    by rewrite Hs, Ha, sender_is_own.
  - intros Hother. unfold process_message. rewrite Hid.
    destruct (Message.sender m) as [| | | |s| |]; try done.
    simpl. destruct (String.eqb_spec s a) as [->|]; [by destruct Hother|done].
Qed.


End AgentProperties.

(** ** Configuration *)


Section AssocFacts.
Context {A : Type}.
Implicit Types (d : list (string * A)) (k : string) (v : A).

Lemma lookup_set_eq k v d : Config.lookup k (Config.set k v d) = Some v.
Proof.
  induction d as [|[k' v'] d IH]; simpl.
  - by rewrite String.eqb_refl.
  - destruct (String.eqb_spec k' k) as [->|Hne]; simpl.
    + by rewrite String.eqb_refl.
    + by destruct (String.eqb_spec k' k).
Qed.

Lemma lookup_set_ne k k' v d :
  k ≠ k' → Config.lookup k' (Config.set k v d) = Config.lookup k' d.
Proof.
  intros Hne. induction d as [|[k0 v0] d IH]; simpl.
  - by destruct (String.eqb_spec k k').
  - destruct (String.eqb_spec k0 k) as [->|Hne0]; simpl.
    + by destruct (String.eqb_spec k k').
    + by rewrite IH.
Qed.

(** Storing the value a key already has changes nothing. *)
Lemma set_same k v d : Config.lookup k d = Some v → Config.set k v d = d.
Proof.
  induction d as [|[k0 v0] d IH]; simpl; [done|].
  destruct (String.eqb_spec k0 k) as [->|Hne].
  - by intros [= ->].
  - intros Hl. by rewrite IH.
Qed.

Lemma lookup_None_keys k d : Config.lookup k d = None ↔ k ∉ d.*1.
Proof.
  induction d as [|[k0 v0] d IH]; simpl.
  - split; [intros _; apply not_elem_of_nil|done].
  - rewrite not_elem_of_cons.
    destruct (String.eqb_spec k0 k) as [->|Hne].
    + split; [done|]. by intros [? _].
    + rewrite IH. split; [by split|by intros [_ ?]].
Qed.

(** A key that is there keeps its place; a new key goes to the end. *)
Lemma keys_set k v d :
  (Config.set k v d).*1 = if decide (k ∈ d.*1) then d.*1 else d.*1 ++ [k].
Proof.
  induction d as [|[k0 v0] d IH].
  - simpl. destruct (decide (k ∈ [])) as [Hin|]; [|done].
    by apply elem_of_nil in Hin.
  - cbn [Config.set]. destruct (String.eqb_spec k0 k) as [->|Hne].
    + destruct (decide (k ∈ ((k, v0) :: d).*1)) as [|Hnot]; [done|].
      destruct Hnot. apply list_elem_of_here.
    + rewrite fmap_cons, IH, fmap_cons. simpl.
      destruct (decide (k ∈ d.*1)) as [Hin|Hnot];
        destruct (decide (k ∈ k0 :: d.*1)) as [Hin'|Hnot']; try done.
      * destruct Hnot'. by apply list_elem_of_further.
      * apply elem_of_cons in Hin' as [->|Hin']; [by destruct Hne|done].
Qed.

End AssocFacts.

Lemma filter_agree {A} (P Q : A → Prop) `{∀ x, Decision (P x)}
    `{∀ x, Decision (Q x)} (l : list A) :
  Forall (λ x, P x ↔ Q x) l → filter P l = filter Q l.
Proof.
  induction 1 as [|x l Hx _ IH]; [done|].
  rewrite !filter_cons, IH.
  destruct (decide (P x)), (decide (Q x)); tauto.
Qed.

Section MergeFacts.
Import Config.
Implicit Types (base override : list (string * Value)) (k : string).


Lemma tree_merge_nil base : tree_merge base [] = base.
Proof. reflexivity. Qed.

Lemma tree_merge_cons base k v override :
  tree_merge base ((k, v) :: override)
  = tree_merge (set k (merged base k v) base) override.
Proof.
  unfold tree_merge, merged. simpl.
  by destruct (lookup k base) as [[]|]; destruct v.
Qed.

Lemma merged_lookup base k v : lookup k (set k (merged base k v) base) = Some (merged base k v).
Proof. apply lookup_set_eq. Qed.

(** The entry of a key after the merge, for an [override] that holds each
    key once. *)
Lemma tree_merge_lookup base override k :
  NoDup override.*1 →
  lookup k (tree_merge base override)
  = match lookup k override with
    | Some v => Some (merged base k v)
    | None => lookup k base
    end.
Proof.
  revert base. induction override as [|[k0 v0] override IH]; intros base Hnd.
  - done.
  - rewrite tree_merge_cons. simpl in Hnd. apply NoDup_cons in Hnd as [Hk0 Hnd].
    rewrite IH by done. simpl.
    destruct (String.eqb_spec k0 k) as [->|Hne].
    + apply lookup_None_keys in Hk0. rewrite Hk0. apply lookup_set_eq.
    + destruct (lookup k override) as [v|] eqn:Hk.
      * unfold merged. by rewrite lookup_set_ne.
      * by rewrite lookup_set_ne.
Qed.

(** The keys after the merge: those of [base] in their order, then the new
    ones in the order of [override]. *)
Lemma tree_merge_keys base override :
  NoDup override.*1 →
  (tree_merge base override).*1
  = base.*1 ++ filter (λ k, k ∉ base.*1) override.*1.
Proof.
  revert base. induction override as [|[k0 v0] override IH]; intros base Hnd.
  - simpl. by rewrite app_nil_r.
  - rewrite tree_merge_cons. simpl in Hnd. apply NoDup_cons in Hnd as [Hk0 Hnd].
    rewrite IH by done. rewrite keys_set. simpl.
    destruct (decide (k0 ∈ base.*1)) as [Hin|Hnot].
    + by rewrite filter_cons_False by (by intros ?).
    + rewrite filter_cons_True by done. rewrite <- app_assoc. simpl.
      f_equal. f_equal. apply filter_agree, Forall_forall.
      intros k Hk. rewrite not_elem_of_app, not_elem_of_cons.
      split; [by intros [? _]|]. intros Hb. repeat split; [done| |apply not_elem_of_nil].
      intros ->. done.
Qed.

Lemma tree_merge_NoDup base override :
  NoDup base.*1 → NoDup override.*1 → NoDup (tree_merge base override).*1.
Proof.
  intros Hb Ho. rewrite tree_merge_keys by done.
  apply NoDup_app. split; [done|]. split.
  - intros k Hk Hf. by apply list_elem_of_filter in Hf as [Hnot _].
  - by apply NoDup_filter.
Qed.

End MergeFacts.

Section InclusionFacts.
Import Config.
Implicit Types (base override : list (string * Value)) (k : string).


Lemma included_dict items ritems :
  included (VDict items) (VDict ritems)
  ↔ Forall (λ kv, match lookup kv.1 ritems with
                  | Some rv => included kv.2 rv
                  | None => False
                  end) items.
Proof.
  simpl. induction items as [|[k x] items IH]; simpl.
  - split; [by constructor|done].
  - rewrite Forall_cons, IH. done.
Qed.

Lemma included_dict_is_dict items r :
  included (VDict items) r → ∃ ritems, r = VDict ritems.
Proof. destruct r; simpl; try done. by eexists. Qed.

Lemma lookup_unique {A} (d : list (string * A)) k v :
  NoDup d.*1 → (k, v) ∈ d → lookup k d = Some v.
Proof.
  induction d as [|[k0 v0] d IH]; simpl; intros Hnd Hin.
  - by apply elem_of_nil in Hin.
  - apply NoDup_cons in Hnd as [Hk0 Hnd].
    apply elem_of_cons in Hin as [[= -> ->]|Hin].
    + by rewrite String.eqb_refl.
    + destruct (String.eqb_spec k0 k) as [->|Hne]; [|by apply IH].
      destruct Hk0. apply list_elem_of_fmap. by exists (k, v).
Qed.


(** Merging what is included already changes nothing. *)
Lemma merge_included_noop o :
  ∀ r, included o (VDict r) → tree_merge_into o r = r.
Proof.
  induction o as [| | | | | |items IH] using Value_induction; try done.
  intros r Hinc. apply included_dict in Hinc.
  change (tree_merge_into (VDict items) r) with (tree_merge r items).
  induction items as [|[k x] items IHitems]; [done|].
  apply Forall_cons in Hinc as [Hkx Hinc]. apply Forall_cons in IH as [IHx IH].
  simpl in Hkx, IHx.
  rewrite tree_merge_cons.
  destruct (lookup k r) as [rv|] eqn:Hk; [|done].
  assert (merged r k x = rv) as ->.
  { unfold merged. rewrite Hk.
    destruct x; simpl in Hkx; try (by subst rv).
    destruct rv as [| | | | | |ritems]; try done.
    f_equal. by apply IHx. }
  rewrite set_same by done. by apply IHitems.
Qed.


End InclusionFacts.

Section EnvFacts.
Import Config.
Variable environ : gmap string string.


Lemma process_dict items :
  (process_env_vars environ (VDict items)).1
  = VDict (prod_map id (entry_after environ) <$> items).
Proof.
  simpl.
  match goal with
  | |- (let '(_, _) := ?f items in _).1 = _ =>
      assert (∀ l, (f l).1 = prod_map id (entry_after environ) <$> l) as Hf
  end.
  { induction l as [|[k v] l IH]; [done|].
    rewrite fmap_cons, <- IH. simpl.
    match goal with
    | |- context [let '(_, _) := ?e in _] => destruct e as [v' lg] eqn:E
    end.
    match goal with
    | |- context [let '(_, _) := ?e in _] => destruct e as [l' lg']
    end.
    simpl. f_equal. f_equal. unfold entry_after.
    destruct v; try (by injection E as <- _); try (by rewrite E).
    destruct (replace_reference environ s) as [[? ?]|]; by injection E as <- _. }
  rewrite <- Hf.
  by match goal with |- context [let '(_, _) := ?e in _] => destruct e end.
Qed.

Lemma process_list items :
  (process_env_vars environ (VList items)).1
  = VList ((λ v, (process_env_vars environ v).1) <$> items).
Proof.
  simpl.
  match goal with
  | |- (let '(_, _) := ?f items in _).1 = _ =>
      assert (∀ l, (f l).1 = (λ v, (process_env_vars environ v).1) <$> l) as Hf
  end.
  { induction l as [|v l IH]; [done|].
    rewrite fmap_cons, <- IH. simpl.
    match goal with
    | |- context [let '(_, _) := ?e in _] => destruct e as [v' lg] eqn:E
    end.
    match goal with
    | |- context [let '(_, _) := ?e in _] => destruct e as [l' lg']
    end.
    done. }
  rewrite <- Hf.
  by match goal with |- context [let '(_, _) := ?e in _] => destruct e end.
Qed.

Lemma lookup_prod_map {A B} (f : A → B) (d : list (string * A)) k :
  lookup k (prod_map id f <$> d) = f <$> lookup k d.
Proof.
  induction d as [|[k0 v0] d IH]; simpl; [done|].
  by destruct (String.eqb k0 k).
Qed.

End EnvFacts.

Section StringFacts.

Lemma substring_all (s : string) : String.substring 0 (String.length s) s = s.
Proof. induction s as [|c s IH]; simpl; [done|by rewrite IH]. Qed.

Lemma substring_head (a b : string) :
  String.substring 0 (String.length a) (a ++ b)%string = a.
Proof.
  induction a as [|c a IH]; simpl; [by destruct b|by rewrite IH].
Qed.

Lemma substring_tail (a b : string) :
  String.substring (String.length a) (String.length b) (a ++ b)%string = b.
Proof. induction a as [|c a IH]; simpl; [apply substring_all|done]. Qed.

Lemma length_app_string (a b : string) :
  String.length (a ++ b)%string = (String.length a + String.length b)%nat.
Proof. induction a as [|c a IH]; simpl; [done|by rewrite IH]. Qed.

(** A string of the form [${name}] is taken as a reference to [name]. *)
Lemma replace_reference_form environ (name : string) :
  Config.replace_reference environ ("${" ++ name ++ "}")%string
  = Some
      match environ !! name with
      | Some env_value =>
          (Config.VStr env_value,
           (Config.DEBUG,
            "Replaced environment variable " ++ name ++ " in config")%string)
      | None =>
          (Config.VStr ("${" ++ name ++ "}")%string,
           (Config.WARNING,
            "Environment variable " ++ name ++ " not found")%string)
      end.
Proof.
  unfold Config.replace_reference.
  pose proof (substring_tail name "}") as Htail.
  pose proof (substring_head name "}") as Hhead.
  pose proof (length_app_string name "}") as Hlen.
  set (t := (name ++ "}")%string) in *.
  let s' := eval cbv [String.append] in ("${" ++ t)%string in
  change ("${" ++ t)%string with s'.
  assert (∀ c1 c2, String.prefix (String c1 (String c2 ""))
                     (String c1 (String c2 t)) = true) as Hpre.
  { intros c1 c2. simpl.
    destruct (Ascii.ascii_dec c1 c1); [|done].
    destruct (Ascii.ascii_dec c2 c2); [|done]. by destruct t. }
  rewrite Hpre.
  assert (∀ c1 c2, Config.endswith "}" (String c1 (String c2 t)) = true) as Hend.
  { intros c1 c2. unfold Config.endswith. cbn [String.length]. rewrite Hlen.
    cbn [String.length].
    replace (S (S (String.length name + 1)) - 1)%nat
      with (S (S (String.length name))) by lia.
    change (String.substring (S (S (String.length name))) 1
              (String c1 (String c2 t)))
      with (String.substring (String.length name) (String.length "}") t).
    rewrite Htail. reflexivity. }
  rewrite Hend.
  cbn [andb String.length]. rewrite Hlen. cbn [String.length].
  replace (S (S (String.length name + 1)) - 3)%nat
    with (String.length name) by lia.
  match goal with
  | |- context [String.substring 2 ?n (String ?c1 (String ?c2 t))] =>
      change (String.substring 2 n (String c1 (String c2 t)))
        with (String.substring 0 n t)
  end.
  rewrite Hhead. by destruct (environ !! name).
Qed.

End StringFacts.

Section AssocMore.
Context {A : Type}.
Implicit Types (d : list (string * A)) (k : string) (v : A).

Lemma lookup_elem k v d : Config.lookup k d = Some v → (k, v) ∈ d.
Proof.
  induction d as [|[k0 v0] d IH]; simpl; [done|].
  destruct (String.eqb_spec k0 k) as [->|Hne].
  - intros [= ->]. apply list_elem_of_here.
  - intros Hl. apply list_elem_of_further. by apply IH.
Qed.

Lemma lookup_Some_keys k d : is_Some (Config.lookup k d) ↔ k ∈ d.*1.
Proof.
  destruct (Config.lookup k d) as [v|] eqn:Hl.
  - split; [|by eexists]. intros _.
    apply lookup_elem in Hl. apply list_elem_of_fmap. by exists (k, v).
  - split; [by intros [? ?]|]. intros Hin.
    by apply lookup_None_keys in Hl.
Qed.

(** The entry at a position of a dictionary is what [lookup] finds. *)
Lemma lookup_at d (i : nat) k v :
  NoDup d.*1 → d !! i = Some (k, v) → Config.lookup k d = Some v.
Proof.
  intros Hnd Hi. apply lookup_unique; [done|].
  by apply list_elem_of_lookup_2 in Hi.
Qed.

Lemma lookup_app_Some k v d d' :
  Config.lookup k d = Some v → Config.lookup k (d ++ d') = Some v.
Proof.
  induction d as [|[k0 v0] d IH]; simpl; [done|].
  by destruct (String.eqb_spec k0 k).
Qed.

Lemma lookup_app_None k d d' :
  k ∉ d.*1 → Config.lookup k (d ++ d') = Config.lookup k d'.
Proof.
  induction d as [|[k0 v0] d IH]; simpl; [done|].
  intros [Hne Hk]%not_elem_of_cons.
  destruct (String.eqb_spec k0 k) as [->|_]; [done|]. by apply IH.
Qed.

End AssocMore.

Section ReadingFacts.
Import Config.
Implicit Types (σ : gmap positive (list (string * Obj))) (v : Value) (o r : Obj)
  (items : list (string * Value)) (d : list (string * Obj)) (k : string)
  (l : positive).

Lemma reads_dict σ items o :
  reads σ (VDict items) o
  ↔ ∃ l d, o = ODict l ∧ σ !! l = Some d ∧ d.*1 = items.*1 ∧ NoDup items.*1
           ∧ ∀ k v, lookup k items = Some v →
                    ∃ o', lookup k d = Some o' ∧ reads σ v o'.
Proof.
  destruct o as [| | | | | |l]; simpl;
    try (split; [done|by intros (? & ? & ? & _)]).
  destruct (σ !! l) as [d|] eqn:Hd;
    [|split; [done|intros (? & ? & [= <-] & ? & _); congruence]].
  split.
  - intros (Hk & Hnd & He). exists l, d. repeat split; try done.
    clear Hk Hnd. induction items as [|[k0 v0] items IH]; [done|].
    intros k v. simpl. destruct He as [H0 He].
    destruct (String.eqb_spec k0 k) as [->|Hne]; [|by apply IH].
    intros [= ->]. destruct (lookup k d) as [o'|]; [|done]. by exists o'.
  - intros (l' & d' & [= <-] & Hd' & Hk & Hnd & He).
    rewrite Hd in Hd'. injection Hd' as <-.
    repeat split; try done. clear Hk.
    induction items as [|[k0 v0] items IH]; [done|].
    simpl in Hnd. apply NoDup_cons in Hnd as [Hk0 Hnd]. split.
    + destruct (He k0 v0) as (o' & -> & Hr); [|done].
      simpl. by rewrite String.eqb_refl.
    + apply IH; [done|]. intros k v Hl. apply He. simpl.
      destruct (String.eqb_spec k0 k) as [->|Hne]; [|done].
      apply lookup_elem in Hl. destruct Hk0.
      apply list_elem_of_fmap. by exists (k, v).
Qed.

Lemma reads_ODict σ v l :
  reads σ v (ODict l) → ∃ items, v = VDict items.
Proof. destruct v; simpl; try done. by eexists. Qed.

Lemma reads_VDict σ items o :
  reads σ (VDict items) o → ∃ l, o = ODict l.
Proof. intros (l & d & -> & _)%reads_dict. by eexists. Qed.

Lemma locs_dict σ items l d :
  σ !! l = Some d →
  locs σ (VDict items) (ODict l) = l :: (items ≫= under σ d).
Proof.
  intros Hd. simpl. rewrite Hd. f_equal.
  induction items as [|[k v] items IH]; [done|].
  change (((k, v) :: items) ≫= under σ d)
    with (under σ d (k, v) ++ (items ≫= under σ d)).
  by rewrite <- IH.
Qed.

Lemma elem_of_under σ d items l :
  NoDup items.*1 →
  l ∈ items ≫= under σ d
  ↔ ∃ k v o, lookup k items = Some v ∧ lookup k d = Some o ∧ l ∈ locs σ v o.
Proof.
  intros Hnd. rewrite list_elem_of_bind. split.
  - intros ([k v] & Hl & Hin). unfold under in Hl. simpl in Hl.
    destruct (lookup k d) as [o|] eqn:Hk; [|by apply elem_of_nil in Hl].
    exists k, v, o. split; [by apply lookup_unique|done].
  - intros (k & v & o & Hv & Ho & Hl). exists (k, v).
    split; [|by apply lookup_elem]. unfold under. simpl. by rewrite Ho.
Qed.

(** In a dictionary whose locations are met once each, the entries have
    their locations apart from each other. *)
Lemma under_apart σ d items :
  NoDup items.*1 → NoDup (items ≫= under σ d) →
  (∀ k v o, lookup k items = Some v → lookup k d = Some o →
            NoDup (locs σ v o))
  ∧ (∀ k v o k' v' o' l,
       k ≠ k' → lookup k items = Some v → lookup k d = Some o →
       lookup k' items = Some v' → lookup k' d = Some o' →
       l ∈ locs σ v o → l ∉ locs σ v' o').
Proof.
  induction items as [|[k0 v0] items IH]; intros Hnd Hl; [done|].
  simpl in Hnd. apply NoDup_cons in Hnd as [Hk0 Hnd].
  change (((k0, v0) :: items) ≫= under σ d)
    with (under σ d (k0, v0) ++ (items ≫= under σ d)) in Hl.
  apply NoDup_app in Hl as (H0 & Hcross & Hrest).
  destruct (IH Hnd Hrest) as [IH1 IH2].
  assert (∀ k v, lookup k items = Some v → k ≠ k0) as Hother.
  { intros k v Hv ->. apply Hk0. apply lookup_Some_keys. by eexists. }
  split.
  - intros k v o. simpl. destruct (String.eqb_spec k0 k) as [->|Hne].
    + intros [= ->] Ho. unfold under in H0. simpl in H0. by rewrite Ho in H0.
    + apply IH1.
  - intros k v o k' v' o' l Hkk. simpl.
    destruct (String.eqb_spec k0 k) as [Heq|Hne];
      destruct (String.eqb_spec k0 k') as [Heq'|Hne'].
    + congruence.
    + subst k. intros [= ->] Ho Hv' Ho' Hin Hin'.
      apply (Hcross l).
      * unfold under. simpl. by rewrite Ho.
      * apply elem_of_under; [done|]. by exists k', v', o'.
    + subst k'. intros Hv Ho [= ->] Ho' Hin Hin'.
      apply (Hcross l).
      * unfold under. simpl. by rewrite Ho'.
      * apply elem_of_under; [done|]. by exists k, v, o.
    + by apply IH2.
Qed.

(** What the heap holds away from the locations met does not matter. *)
Lemma reads_frame σ σ' v :
  ∀ o, reads σ v o → (∀ l, l ∈ locs σ v o → σ' !! l = σ !! l) →
       reads σ' v o ∧ locs σ' v o = locs σ v o.
Proof.
  induction v as [| | | | |vs IH|items IH] using Value_induction;
    intros o; try (by destruct o).
  - destruct o as [| | | | |os|]; try done.
    revert os. induction IH as [|v vs Hv _ IHvs]; intros [|o os]; try done.
    simpl. intros [Hr Hrs] Hsame.
    destruct (Hv o Hr) as [Hr' Hl'].
    { intros l Hl. apply Hsame, elem_of_app. by left. }
    destruct (IHvs os Hrs) as [Hrs' Hls'].
    { intros l Hl. apply Hsame, elem_of_app. by right. }
    simpl in Hls'. split; [done|]. by rewrite Hl', Hls'.
  - intros (l & d & -> & Hd & Hk & Hnd & He)%reads_dict Hsame.
    rewrite (locs_dict σ items l d Hd) in Hsame |- *.
    assert (σ' !! l = Some d) as Hd'.
    { rewrite Hsame; [done|]. apply list_elem_of_here. }
    rewrite (locs_dict σ' items l d Hd').
    rewrite Forall_forall in IH.
    assert (∀ k v o, lookup k items = Some v → lookup k d = Some o →
              reads σ v o → reads σ' v o ∧ locs σ' v o = locs σ v o) as Hin.
    { intros k v o Hv Ho Hr. apply (IH (k, v)); [by apply lookup_elem|done|].
      intros l' Hl'. apply Hsame, list_elem_of_further.
      apply elem_of_under; [done|]. by exists k, v, o. }
    split.
    + apply reads_dict. exists l, d. repeat split; try done.
      intros k v Hv. destruct (He k v Hv) as (o & Ho & Hr).
      exists o. split; [done|]. by apply (Hin k v o).
    + f_equal. clear Hsame Hk IH.
      assert (∀ kv, kv ∈ items → under σ' d kv = under σ d kv) as Hu.
      { intros [k v] Hkv. unfold under. simpl.
        pose proof (lookup_unique items k v Hnd Hkv) as Hv.
        destruct (He k v Hv) as (o & Ho & Hr). rewrite Ho.
        by apply (Hin k v o). }
      clear -Hu. induction items as [|kv items IH]; [done|].
      change ((kv :: items) ≫= under σ' d)
        with (under σ' d kv ++ (items ≫= under σ' d)).
      change ((kv :: items) ≫= under σ d)
        with (under σ d kv ++ (items ≫= under σ d)).
      rewrite Hu by apply list_elem_of_here.
      rewrite IH; [done|]. intros kv' Hkv'. apply Hu.
      by apply list_elem_of_further.
Qed.

Lemma depth_entry items k v :
  lookup k items = Some v → (depth v < depth (VDict items))%nat.
Proof.
  simpl. induction items as [|[k0 v0] items IH]; simpl; [done|].
  destruct (String.eqb_spec k0 k) as [->|Hne].
  - intros [= ->]. lia.
  - intros Hl. specialize (IH Hl). lia.
Qed.

End ReadingFacts.

Section CoverFacts.
Import Config.
Implicit Types (σ : gmap positive (list (string * Obj))) (v : Value) (o r : Obj)
  (items : list (string * Value)) (d : list (string * Obj)) (k : string)
  (l : positive).

Lemma covers_dict σ items o r :
  covers σ (VDict items) o r
  ↔ ∃ lo lr d_o d_r,
      o = ODict lo ∧ r = ODict lr
      ∧ σ !! lo = Some d_o ∧ σ !! lr = Some d_r
      ∧ d_o.*1 = items.*1 ∧ NoDup items.*1
      ∧ ∀ k v, lookup k items = Some v →
               ∃ ov rv, lookup k d_o = Some ov ∧ lookup k d_r = Some rv
                        ∧ covers σ v ov rv.
Proof.
  destruct o as [| | | | | |lo]; simpl;
    try (split; [done|by intros (? & ? & ? & ? & ? & _)]).
  destruct r as [| | | | | |lr]; simpl;
    try (split; [done|by intros (? & ? & ? & ? & ? & ? & _)]).
  destruct (σ !! lo) as [d_o|] eqn:Ho;
    [|split; [done|intros (? & ? & ? & ? & [= <-] & ? & ? & _); congruence]].
  destruct (σ !! lr) as [d_r|] eqn:Hr;
    [|split; [done|intros (? & ? & ? & ? & ? & [= <-] & ? & ? & _); congruence]].
  split.
  - intros (Hk & Hnd & He). exists lo, lr, d_o, d_r. repeat split; try done.
    clear Hk Hnd. induction items as [|[k0 v0] items IH]; [done|].
    intros k v. simpl. destruct He as [H0 He].
    destruct (String.eqb_spec k0 k) as [->|Hne]; [|by apply IH].
    intros [= ->].
    destruct (lookup k d_o) as [ov|], (lookup k d_r) as [rv|]; try done.
    by exists ov, rv.
  - intros (lo' & lr' & d_o' & d_r' & [= <-] & [= <-] & Ho' & Hr' & Hk & Hnd
            & He).
    rewrite Ho in Ho'. rewrite Hr in Hr'.
    injection Ho' as <-. injection Hr' as <-.
    repeat split; try done. clear Hk.
    induction items as [|[k0 v0] items IH]; [done|].
    simpl in Hnd. apply NoDup_cons in Hnd as [Hk0 Hnd]. split.
    + destruct (He k0 v0) as (ov & rv & -> & -> & Hc); [|done].
      simpl. by rewrite String.eqb_refl.
    + apply IH; [done|]. intros k v Hl. apply He. simpl.
      destruct (String.eqb_spec k0 k) as [->|Hne]; [|done].
      apply lookup_elem in Hl. destruct Hk0.
      apply list_elem_of_fmap. by exists (k, v).
Qed.

(** An object covers itself. *)
Lemma covers_refl σ v : ∀ o, reads σ v o → covers σ v o o.
Proof.
  induction v as [| | | | |vs IH|items IH] using Value_induction;
    intros o Hr; try done.
  apply reads_dict in Hr as (l & d & -> & Hd & Hk & Hnd & He).
  apply covers_dict. exists l, l, d, d. repeat split; try done.
  intros k v Hv. destruct (He k v Hv) as (o & Ho & Hr).
  exists o, o. repeat split; try done.
  rewrite Forall_forall in IH. apply (IH (k, v)); [by apply lookup_elem|done].
Qed.

(** What the heap holds away from the two objects does not matter. *)
Lemma covers_frame σ σ' v :
  ∀ o r tr,
    covers σ v o r → reads σ tr r →
    (∀ l, l ∈ locs σ v o → σ' !! l = σ !! l) →
    (∀ l, l ∈ locs σ tr r → σ' !! l = σ !! l) →
    covers σ' v o r.
Proof.
  induction v as [| | | | |vs IH|items IH] using Value_induction;
    intros o r tr Hc Hr Hso Hsr;
    try (destruct Hc as [Hc ->]; split; [|done];
         by apply (reads_frame σ σ' _ o)).
  apply covers_dict in Hc
    as (lo & lr & d_o & d_r & -> & -> & Ho & Hlr & Hk & Hnd & He).
  destruct (reads_ODict _ _ _ Hr) as [ritems ->].
  apply reads_dict in Hr as (lr' & d_r' & [= <-] & Hlr' & Hrk & Hrnd & Hre).
  rewrite Hlr in Hlr'. injection Hlr' as <-.
  rewrite (locs_dict σ items lo d_o Ho) in Hso.
  rewrite (locs_dict σ ritems lr d_r Hlr) in Hsr.
  apply covers_dict. exists lo, lr, d_o, d_r. repeat split; try done.
  - rewrite Hso; [done|]. apply list_elem_of_here.
  - rewrite Hsr; [done|]. apply list_elem_of_here.
  - intros k v Hv. destruct (He k v Hv) as (ov & rv & Hov & Hrv & Hc).
    exists ov, rv. repeat split; try done.
    assert (∃ tv, lookup k ritems = Some tv) as [tv Htv].
    { apply lookup_Some_keys. rewrite <- Hrk. apply lookup_Some_keys.
      by eexists. }
    destruct (Hre k tv Htv) as (rv' & Hrv' & Hrr).
    rewrite Hrv in Hrv'. injection Hrv' as <-.
    rewrite Forall_forall in IH.
    apply (IH (k, v) (lookup_elem _ _ _ Hv) ov rv tv); try done.
    + intros l Hl. apply Hso, list_elem_of_further.
      apply elem_of_under; [done|]. by exists k, v, ov.
    + intros l Hl. apply Hsr, list_elem_of_further.
      apply elem_of_under; [done|]. by exists k, tv, rv.
Qed.

End CoverFacts.

Section LoopFacts.
Import Config.
Implicit Types (σ : gmap positive (list (string * Obj)))
  (recur : positive → positive → gmap positive (list (string * Obj))
           → gmap positive (list (string * Obj)) * option Error).

Lemma merge_items_done recur base override size σ items :
  σ !! override = Some items → length items = size →
  merge_items recur base override size 0 σ = (σ, None).
Proof. intros Ho Hlen. simpl. by rewrite Ho, Hlen, Nat.eqb_refl. Qed.

Lemma merge_items_step recur base override size todo σ items key value :
  σ !! override = Some items → length items = size →
  items !! (size - S todo)%nat = Some (key, value) →
  merge_items recur base override size (S todo) σ
  = match merge_item recur base key value σ with
    | (σ', None) => merge_items recur base override size todo σ'
    | failed => failed
    end.
Proof.
  intros Ho Hlen Hi. cbn [merge_items]. by rewrite Ho, Hlen, Nat.eqb_refl, Hi.
Qed.


(** The two branches of the loop body. *)
Lemma merge_item_recur recur base key σ d b o :
  σ !! base = Some d → lookup key d = Some (ODict b) →
  merge_item recur base key (ODict o) σ = recur b o σ.
Proof. intros Hd Hk. unfold merge_item. by rewrite Hd, Hk. Qed.

Lemma merge_item_set recur base key value σ d :
  σ !! base = Some d →
  (∀ b o, lookup key d = Some (ODict b) → value ≠ ODict o) →
  merge_item recur base key value σ = (<[base := set key value d]> σ, None).
Proof.
  intros Hd Hnot. unfold merge_item. rewrite Hd.
  destruct (lookup key d) as [[| | | | | |b]|]; try done.
  destruct value as [| | | | | |o]; try done.
  by destruct (Hnot b o).
Qed.

End LoopFacts.

Lemma tree_merge_snoc base done k v :
  tree_merge base (done ++ [(k, v)])
  = Config.set k (merged (tree_merge base done) k v) (tree_merge base done).
Proof.
  revert base. induction done as [|[k0 v0] done IH]; intros base.
  - simpl. by rewrite tree_merge_cons.
  - change (((k0, v0) :: done) ++ [(k, v)])
      with ((k0, v0) :: (done ++ [(k, v)])).
    by rewrite !tree_merge_cons, IH.
Qed.

Section MergeLoop.
Import Config.
Variables (limit : nat) (σ0 : gmap positive (list (string * Obj)))
  (lb lo : positive) (tb to : list (string * Value))
  (d_b d_o : list (string * Obj)).

Let Lb := locs σ0 (VDict tb) (ODict lb).
Let Lo := locs σ0 (VDict to) (ODict lo).

(** What the recursive calls do, taken for granted here. *)
Hypothesis IH :
  ∀ σ b o tbk tok,
    reads σ (VDict tbk) (ODict b) → NoDup (locs σ (VDict tbk) (ODict b)) →
    reads σ (VDict tok) (ODict o) →
    (∀ l, l ∈ locs σ (VDict tbk) (ODict b) →
          l ∉ locs σ (VDict tok) (ODict o)) →
    (depth (VDict tok) ≤ limit)%nat →
    ∃ σ',
      deep_merge limit b o σ = (σ', None)
      ∧ (∀ l, l ∉ locs σ (VDict tbk) (ODict b) → σ' !! l = σ !! l)
      ∧ reads σ' (VDict (tree_merge tbk tok)) (ODict b)
      ∧ (∀ l, l ∈ locs σ' (VDict (tree_merge tbk tok)) (ODict b) →
              l ∈ locs σ (VDict tbk) (ODict b)
              ∨ l ∈ locs σ (VDict tok) (ODict o))
      ∧ covers σ' (VDict tok) (ODict o) (ODict b).

Hypothesis Hb : σ0 !! lb = Some d_b.
Hypothesis Hbk : d_b.*1 = tb.*1.
Hypothesis Hbn : NoDup tb.*1.
Hypothesis Hbe :
  ∀ k v, lookup k tb = Some v → ∃ o, lookup k d_b = Some o ∧ reads σ0 v o.
Hypothesis Ho : σ0 !! lo = Some d_o.
Hypothesis Hok : d_o.*1 = to.*1.
Hypothesis Hon : NoDup to.*1.
Hypothesis Hoe :
  ∀ k v, lookup k to = Some v → ∃ o, lookup k d_o = Some o ∧ reads σ0 v o.
Hypothesis Htree : NoDup Lb.
Hypothesis Hapart : ∀ l, l ∈ Lb → l ∉ Lo.
Hypothesis Hdepth : (depth (VDict to) ≤ S limit)%nat.

Let child := child_locs σ0 tb d_b.
Let Inv := merge_state σ0 lb lo tb to d_b d_o.

Lemma Lb_eq : Lb = lb :: (tb ≫= under σ0 d_b).
Proof. by apply locs_dict. Qed.

Lemma Lo_eq : Lo = lo :: (to ≫= under σ0 d_o).
Proof. by apply locs_dict. Qed.

Lemma child_in k l : l ∈ child k → l ∈ Lb ∧ l ≠ lb.
Proof.
  unfold child, child_locs. intros Hl.
  destruct (lookup k tb) as [v|] eqn:Hv; [|by apply elem_of_nil in Hl].
  destruct (lookup k d_b) as [o|] eqn:Hob; [|by apply elem_of_nil in Hl].
  assert (l ∈ tb ≫= under σ0 d_b) as Hin.
  { apply elem_of_under; [done|]. by exists k, v, o. }
  pose proof Htree as Hnd. rewrite Lb_eq in Hnd.
  apply NoDup_cons in Hnd as [Hlb _].
  split; [rewrite Lb_eq; by apply list_elem_of_further|].
  by intros ->.
Qed.

Lemma child_apart k k' l : k ≠ k' → l ∈ child k → l ∉ child k'.
Proof.
  unfold child, child_locs. intros Hne Hl Hl'.
  destruct (lookup k tb) as [v|] eqn:Hv; [|by apply elem_of_nil in Hl].
  destruct (lookup k d_b) as [o|] eqn:Hob; [|by apply elem_of_nil in Hl].
  destruct (lookup k' tb) as [v'|] eqn:Hv'; [|by apply elem_of_nil in Hl'].
  destruct (lookup k' d_b) as [o'|] eqn:Hob'; [|by apply elem_of_nil in Hl'].
  pose proof Htree as Hnd. rewrite Lb_eq in Hnd.
  apply NoDup_cons in Hnd as [_ Hnd].
  destruct (under_apart σ0 d_b tb Hbn Hnd) as [_ Hap].
  by apply (Hap k v o k' v' o' l).
Qed.

Lemma child_NoDup k v o :
  lookup k tb = Some v → lookup k d_b = Some o → NoDup (locs σ0 v o).
Proof.
  pose proof Htree as Hnd. rewrite Lb_eq in Hnd.
  apply NoDup_cons in Hnd as [_ Hnd].
  destruct (under_apart σ0 d_b tb Hbn Hnd) as [Hone _]. apply Hone.
Qed.

Lemma override_in k v o l :
  lookup k to = Some v → lookup k d_o = Some o → l ∈ locs σ0 v o → l ∈ Lo.
Proof.
  intros Hv Hov Hl. rewrite Lo_eq. apply list_elem_of_further.
  apply elem_of_under; [done|]. by exists k, v, o.
Qed.

Lemma lb_in : lb ∈ Lb.
Proof. rewrite Lb_eq. apply list_elem_of_here. Qed.

Lemma lo_in : lo ∈ Lo.
Proof. rewrite Lo_eq. apply list_elem_of_here. Qed.

Lemma Inv_start : Inv [] σ0.
Proof.
  split; [done|]. exists d_b. split; [done|]. split; [done|].
  split; [|split; [done|done]].
  intros k v Hv. change (lookup k tb = Some v) in Hv.
  destruct (Hbe k v Hv) as (o & Hob & Hr).
  exists o. split; [done|]. split; [done|].
  intros l Hl. left. unfold child, child_locs. by rewrite Hv, Hob.
Qed.

(** An entry of [override] reads in every state of the loop as it did
    at the start. *)
Lemma override_entry done σ k v :
  Inv done σ → lookup k to = Some v →
  ∃ ov, lookup k d_o = Some ov ∧ reads σ v ov
        ∧ locs σ v ov = locs σ0 v ov
        ∧ ∀ l, l ∈ locs σ0 v ov → l ∈ Lo.
Proof.
  intros [Hframe _] Hv. destruct (Hoe k v Hv) as (ov & Hov & Hr).
  exists ov. split; [done|].
  assert (∀ l, l ∈ locs σ0 v ov → l ∈ Lo) as Hin.
  { intros l. by apply (override_in k v ov). }
  destruct (reads_frame σ0 σ v ov Hr) as [Hr' Hl']; [|done].
  intros l Hl. apply Hframe. intros Hlb. by apply (Hapart l), Hin.
Qed.


Lemma not_in_Lb_Lo l : l ∈ Lo → l ∉ Lb.
Proof. intros Hl Hlb. by apply (Hapart l). Qed.

(** One round of the loop: the entry under [k] is replaced by [newo],
    which reads as [newv], and nothing changes under the other keys. *)
Lemma Inv_put done rest σ σ' k vt ov newv newo d d' :
  to = done ++ (k, vt) :: rest →
  Inv done σ → k ∉ done.*1 →
  lookup k to = Some vt → lookup k d_o = Some ov →
  σ !! lb = Some d → σ' !! lb = Some d' →
  (∀ l, l ∉ Lb → σ' !! l = σ !! l) →
  (∀ l k', k' ≠ k → l ∈ child k' → σ' !! l = σ !! l) →
  lookup k d' = Some newo →
  (∀ k', k' ≠ k → lookup k' d' = lookup k' d) →
  d'.*1 = (set k newv (tree_merge tb done)).*1 →
  merged (tree_merge tb done) k vt = newv →
  reads σ' newv newo →
  (∀ l, l ∈ locs σ' newv newo → l ∈ child k ∨ l ∈ Lo) →
  covers σ' vt ov newo →
  Inv (done ++ [(k, vt)]) σ'.
Proof.
  intros Hto HInv Hk Hvt Hov Hd Hd' Hout Hothers Hnew Hrest Hkeys Hmerged Hr
    Hl Hc.
  pose proof HInv as (Hframe & d0 & Hd0 & Hk0 & Hent & Horig & Hcov).
  rewrite Hd in Hd0. injection Hd0 as <-.
  assert (∀ l k', k' ≠ k → l ∈ child k' ∨ l ∈ Lo → σ' !! l = σ !! l) as Hkeep.
  { intros l k' Hne [Hin|Hin]; [by apply (Hothers l k')|].
    by apply Hout, not_in_Lb_Lo. }
  split; [|exists d'; split; [done|]; rewrite tree_merge_snoc, Hmerged;
           split; [done|]; split; [|split]].
  - intros l Hlb. rewrite Hout by done. by apply Hframe.
  - intros k' v. destruct (decide (k' = k)) as [->|Hne].
    + rewrite lookup_set_eq. intros [= <-]. by exists newo.
    + rewrite lookup_set_ne by done. intros Hv.
      destruct (Hent k' v Hv) as (o & Hko & Hro & Hlo).
      exists o. split; [by rewrite Hrest|].
      destruct (reads_frame σ σ' v o Hro) as [Hro' Hlo'].
      { intros l Hin. apply (Hkeep l k'); [done|]. by apply Hlo. }
      split; [done|]. intros l. rewrite Hlo'. apply Hlo.
  - intros k' Hk'. rewrite fmap_app in Hk'.
    apply not_elem_of_app in Hk' as [Hk' Hne].
    assert (k' ≠ k) as Hne'.
    { intros ->. apply Hne. apply list_elem_of_here. }
    destruct (Horig k' Hk') as (H1 & H2 & H3).
    rewrite lookup_set_ne by done. rewrite Hrest by done.
    split; [done|]. split; [done|].
    intros l Hin. rewrite (Hothers l k') by done. by apply H3.
  - intros k' v Hv.
    destruct (decide (k' = k)) as [->|Hne].
    + rewrite lookup_app_None in Hv by done. simpl in Hv.
      rewrite String.eqb_refl in Hv. injection Hv as <-. by exists ov, newo.
    + assert (lookup k' done = Some v) as Hv'.
      { clear -Hv Hne. induction done as [|[k0 v0] done IH]; simpl in *.
        - destruct (String.eqb_spec k k'); [congruence|done].
        - destruct (String.eqb_spec k0 k'); [done|]. by apply IH. }
      destruct (Hcov k' v Hv') as (ov' & rv & Hov' & Hrv & Hcv).
      exists ov', rv. split; [done|]. split; [by rewrite Hrest|].
      assert (lookup k' to = Some v) as Hto'.
      { rewrite Hto. by apply lookup_app_Some. }
      destruct (override_entry done σ k' v HInv Hto')
        as (ov'' & Hov'' & Hrv' & Hlv & Hin).
      rewrite Hov' in Hov''. injection Hov'' as <-.
      assert (∃ tr, lookup k' (tree_merge tb done) = Some tr) as [tr Htr].
      { apply lookup_Some_keys. rewrite <- Hk0. apply lookup_Some_keys.
        by eexists. }
      destruct (Hent k' tr Htr) as (rv' & Hrv'' & Hrr & Hlr).
      rewrite Hrv in Hrv''. injection Hrv'' as <-.
      apply (covers_frame σ σ' v ov' rv tr); try done.
      * intros l Hl'. apply Hout, not_in_Lb_Lo, Hin. by rewrite <- Hlv.
      * intros l Hl'. apply (Hkeep l k'); [done|]. by apply Hlr.
Qed.


Lemma merged_other cur k v :
  (∀ b o, lookup k cur = Some (VDict b) → v ≠ VDict o) →
  merged cur k v = v.
Proof.
  intros Hnot. unfold merged.
  destruct (lookup k cur) as [[| | | | | |b]|]; try done.
  destruct v as [| | | | | |o]; try done. by destruct (Hnot b o).
Qed.

(** One round of the loop keeps the invariant. *)
Lemma Inv_step done rest σ k vt :
  to = done ++ (k, vt) :: rest → Inv done σ →
  ∃ ov σ',
    lookup k d_o = Some ov
    ∧ merge_item (deep_merge limit) lb k ov σ = (σ', None)
    ∧ Inv (done ++ [(k, vt)]) σ'.
Proof.
  intros Hto HInv.
  assert (lookup k to = Some vt) as Hvt.
  { apply lookup_unique; [done|]. rewrite Hto. apply elem_of_app. right.
    apply list_elem_of_here. }
  assert (k ∉ done.*1) as Hk.
  { pose proof Hon as Hnd. rewrite Hto, fmap_app in Hnd.
    apply NoDup_app in Hnd as (_ & Hcross & _).
    intros Hin. apply (Hcross k Hin). simpl. apply list_elem_of_here. }
  destruct (override_entry done σ k vt HInv Hvt) as (ov & Hov & Hr & Hl & Hin).
  exists ov.
  cut (∃ σ', merge_item (deep_merge limit) lb k ov σ = (σ', None)
             ∧ Inv (done ++ [(k, vt)]) σ').
  { intros (σ' & Hrun & HInv'). by exists σ'. }
  pose proof HInv as (Hframe & d & Hd & Hkeys & Hent & Horig & Hcov).
  destruct (Horig k Hk) as (Hcur & Hdk & Hchild).
  (* the round that stores the value of [override] *)
  assert ((∀ b o, lookup k d = Some (ODict b) → ov ≠ ODict o) →
          (∀ b o, lookup k (tree_merge tb done) = Some (VDict b) →
                  vt ≠ VDict o) →
          ∃ σ', merge_item (deep_merge limit) lb k ov σ = (σ', None)
                ∧ Inv (done ++ [(k, vt)]) σ') as Hset.
  { intros Hnot Hnot'.
    exists (<[lb := set k ov d]> σ).
    split; [by apply merge_item_set|].
    assert (∀ l, l ∈ locs σ vt ov → l ≠ lb) as Hnlb.
    { intros l Hl' ->. rewrite Hl in Hl'.
      apply (Hapart lb); [apply lb_in|by apply Hin]. }
    destruct (reads_frame σ (<[lb := set k ov d]> σ) vt ov Hr) as [Hr' Hl'].
    { intros l Hlin. apply lookup_insert_ne. intros <-. by apply (Hnlb lb). }
    apply (Inv_put done rest σ (<[lb := set k ov d]> σ) k vt ov vt ov d
             (set k ov d)); try done.
    - apply lookup_insert_eq.
    - intros l Hlb. apply lookup_insert_ne. intros <-. apply Hlb, lb_in.
    - intros l k' _ Hc. apply lookup_insert_ne. intros <-.
      by destruct (child_in k' lb Hc).
    - apply lookup_set_eq.
    - intros k' Hne. by apply lookup_set_ne.
    - by rewrite !keys_set, Hkeys.
    - by apply merged_other.
    - intros l. rewrite Hl', Hl. right. by apply Hin.
    - by apply covers_refl. }
  destruct (lookup k tb) as [vb|] eqn:Hvb.
  - destruct (Hbe k vb Hvb) as (ob & Hob & Hrb).
    assert (child_locs σ0 tb d_b k = locs σ0 vb ob) as Hceq
      by (unfold child_locs; by rewrite Hvb, Hob).
    destruct vb as [| | | | | |tbk].
    1-6: apply Hset;
      [intros ? ? Hkb; rewrite Hdk, Hob in Hkb; injection Hkb as ->;
         by destruct Hrb
      |intros ? ? Hkb; by rewrite Hcur in Hkb].
    destruct vt as [| | | | | |tok].
    1-6: apply Hset;
      [intros ? ? _ ->; by destruct Hr
      |intros ? ? _; done].
    destruct (reads_VDict _ _ _ Hrb) as [b ->].
    destruct (reads_VDict _ _ _ Hr) as [o ->].
    destruct (reads_frame σ0 σ (VDict tbk) (ODict b) Hrb) as [Hrb' Hlb'].
    { intros l Hl'. apply Hchild. by rewrite Hceq. }
    destruct (IH σ b o tbk tok) as (σ' & Hrun & Hfr & Hrm & Hlm & Hcm);
      try done.
    { rewrite Hlb'. by apply (child_NoDup k). }
    { intros l Hlin Hlin'. rewrite Hlb', <- Hceq in Hlin. rewrite Hl in Hlin'.
      apply (Hapart l); [by apply (child_in k)|by apply Hin]. }
    { pose proof (depth_entry to k (VDict tok) Hvt). lia. }
    exists σ'. split.
    { rewrite (merge_item_recur _ _ _ _ d b o); try done.
      by rewrite Hdk. }
    rewrite Hlb', <- Hceq in Hfr, Hlm.
    apply (Inv_put done rest σ σ' k (VDict tok) (ODict o)
             (VDict (tree_merge tbk tok)) (ODict b) d d); try done.
    + rewrite Hfr; [done|]. intros Hc. by destruct (child_in k lb Hc).
    + intros l Hlb. apply Hfr. intros Hc. by destruct (child_in k l Hc).
    + intros l k' Hne Hc. apply Hfr. by apply (child_apart k' k).
    + by rewrite Hdk.
    + rewrite keys_set, decide_True; [done|].
      apply lookup_Some_keys. rewrite Hcur. by eexists.
    + unfold merged. by rewrite Hcur.
    + intros l Hlin. destruct (Hlm l Hlin) as [?|Hlo]; [by left|right].
      rewrite Hl in Hlo. by apply Hin.
  - apply Hset.
    + intros b o Hkb. rewrite Hdk in Hkb.
      assert (k ∈ tb.*1) as Hkin.
      { rewrite <- Hbk. apply lookup_Some_keys. by eexists. }
      by apply lookup_None_keys in Hvb.
    + intros b o Hkb. by rewrite Hcur in Hkb.
Qed.

(** The loop as a whole. *)
Lemma Inv_loop rest :
  ∀ done σ,
    to = done ++ rest → Inv done σ →
    ∃ σ',
      merge_items (deep_merge limit) lb lo (length d_o) (length rest) σ
      = (σ', None)
      ∧ Inv to σ'.
Proof.
  induction rest as [|[k vt] rest IHrest]; intros done σ Hto HInv.
  - rewrite app_nil_r in Hto. subst done. exists σ. split; [|done].
    apply (merge_items_done _ _ _ _ _ d_o); [|done].
    destruct HInv as [Hframe _]. rewrite Hframe; [done|].
    apply not_in_Lb_Lo, lo_in.
  - destruct (Inv_step done rest σ k vt Hto HInv) as (ov & σ' & Hov & Hrun & HInv').
    destruct (IHrest (done ++ [(k, vt)]) σ') as (σ'' & Hrest & HInv'');
      [by rewrite <- app_assoc|done|].
    exists σ''. split; [|done].
    assert (σ !! lo = Some d_o) as Hlo.
    { destruct HInv as [Hframe _]. rewrite Hframe; [done|].
      apply not_in_Lb_Lo, lo_in. }
    assert (length d_o = (length done + S (length rest))%nat) as Hlen.
    { rewrite <- (length_fmap fst d_o), Hok, length_fmap, Hto, length_app.
      done. }
    assert (d_o !! (length d_o - S (length rest))%nat = Some (k, ov)) as Hi.
    { replace (length d_o - S (length rest))%nat with (length done) by lia.
      assert (d_o.*1 !! length done = Some k) as Hki.
      { rewrite Hok, Hto, fmap_app. rewrite lookup_app_r by by rewrite length_fmap.
        by rewrite length_fmap, Nat.sub_diag. }
      rewrite list_lookup_fmap in Hki.
      destruct (d_o !! length done) as [[k' ov']|] eqn:Hdi; [|done].
      simpl in Hki. injection Hki as ->.
      assert (NoDup d_o.*1) as Hnd by by rewrite Hok.
      pose proof (lookup_at d_o _ k ov' Hnd Hdi) as Hov'.
      rewrite Hov in Hov'. by injection Hov' as <-. }
    cbn [length].
    rewrite (merge_items_step _ _ _ _ _ _ d_o k ov) by done.
    by rewrite Hrun.
Qed.

(** What the merge leaves. *)
Lemma Inv_end σ :
  Inv to σ →
  (∀ l, l ∉ Lb → σ !! l = σ0 !! l)
  ∧ reads σ (VDict (tree_merge tb to)) (ODict lb)
  ∧ (∀ l, l ∈ locs σ (VDict (tree_merge tb to)) (ODict lb) → l ∈ Lb ∨ l ∈ Lo)
  ∧ covers σ (VDict to) (ODict lo) (ODict lb).
Proof.
  intros (Hframe & d & Hd & Hkeys & Hent & Horig & Hcov).
  assert (NoDup (tree_merge tb to).*1) as Hnd by by apply tree_merge_NoDup.
  split; [done|]. split; [|split].
  - apply reads_dict. exists lb, d. repeat split; try done.
    intros k v Hv. destruct (Hent k v Hv) as (o & Hko & Hr & _). by exists o.
  - intros l. rewrite (locs_dict σ _ lb d Hd).
    intros [->|Hin]%elem_of_cons; [left; apply lb_in|].
    apply elem_of_under in Hin as (k & v & o & Hv & Hko & Hl); [|done].
    destruct (Hent k v Hv) as (o' & Hko' & _ & Hlin).
    rewrite Hko in Hko'. injection Hko' as <-.
    destruct (Hlin l Hl) as [Hc|?]; [left|by right].
    by destruct (child_in k l Hc).
  - apply covers_dict. exists lo, lb, d_o, d. repeat split; try done.
    rewrite Hframe; [done|]. apply not_in_Lb_Lo, lo_in.
Qed.

End MergeLoop.

Section MergeRefinement.
Import Config.


(** [deep_merge] on a [base] that holds each of its dictionaries in one
    place and shares none with [override]. *)
Lemma deep_merge_reads limit :
  ∀ σ lb lo tb to,
    reads σ (VDict tb) (ODict lb) → NoDup (locs σ (VDict tb) (ODict lb)) →
    reads σ (VDict to) (ODict lo) →
    (∀ l, l ∈ locs σ (VDict tb) (ODict lb) →
          l ∉ locs σ (VDict to) (ODict lo)) →
    (depth (VDict to) ≤ limit)%nat →
    ∃ σ',
      deep_merge limit lb lo σ = (σ', None)
      ∧ (∀ l, l ∉ locs σ (VDict tb) (ODict lb) → σ' !! l = σ !! l)
      ∧ reads σ' (VDict (tree_merge tb to)) (ODict lb)
      ∧ (∀ l, l ∈ locs σ' (VDict (tree_merge tb to)) (ODict lb) →
              l ∈ locs σ (VDict tb) (ODict lb)
              ∨ l ∈ locs σ (VDict to) (ODict lo))
      ∧ covers σ' (VDict to) (ODict lo) (ODict lb).
Proof.
  induction limit as [|limit IH]; intros σ lb lo tb to Hrb Hnd Hro Hap Hdepth.
  - simpl in Hdepth. lia.
  - pose proof Hrb as (lb' & d_b & [= <-] & Hb & Hbk & Hbn & Hbe)%reads_dict.
    pose proof Hro as (lo' & d_o & [= <-] & Ho & Hok & Hon & Hoe)%reads_dict.
    cbn [deep_merge]. rewrite Ho.
    assert (length d_o = length to) as Hlen.
    { by rewrite <- (length_fmap fst d_o), Hok, length_fmap. }
    assert (∃ σ',
              merge_items (deep_merge limit) lb lo (length d_o) (length to) σ
              = (σ', None)
              ∧ merge_state σ lb lo tb to d_b d_o to σ')
      as (σ' & Hrun & HInv).
    { apply (Inv_loop limit σ lb lo tb to d_b d_o) with (done := []);
        try done.
      by apply Inv_start. }
    exists σ'. rewrite Hlen in Hrun |- *. split; [done|].
    apply (Inv_end σ lb lo tb to d_b d_o); try done.
Qed.

End MergeRefinement.

Section KeyFacts.
Import Config.
Implicit Types (σ : gmap positive (list (string * Obj)))
  (recur : positive → positive → gmap positive (list (string * Obj))
           → gmap positive (list (string * Obj)) * option Error).

Lemma unheld_lookup σ l x d k b :
  unheld σ l → σ !! x = Some d → lookup k d = Some (ODict b) → b ≠ l.
Proof.
  intros Hun Hx Hk ->. apply lookup_elem in Hk.
  pose proof (map_Forall_lookup_1 _ _ _ _ Hun Hx) as Hd.
  rewrite Forall_forall in Hd. specialize (Hd _ Hk). simpl in Hd.
  by rewrite Pos.eqb_refl in Hd.
Qed.

Lemma elem_of_set {A} k (v : A) d kv :
  kv ∈ set k v d → kv ∈ d ∨ kv = (k, v).
Proof.
  induction d as [|[k0 v0] d IH]; simpl.
  - intros ->%list_elem_of_singleton. by right.
  - destruct (String.eqb_spec k0 k) as [->|Hne].
    + intros [->|Hin]%elem_of_cons; [by right|left].
      by apply list_elem_of_further.
    + intros [->|Hin]%elem_of_cons; [left; apply list_elem_of_here|].
      destruct (IH Hin) as [?|?]; [left|by right].
      by apply list_elem_of_further.
Qed.

Lemma keys_set_prefix {A} k (v : A) d : d.*1 `prefix_of` (set k v d).*1.
Proof.
  rewrite keys_set. destruct (decide (k ∈ d.*1)); [done|].
  by apply prefix_app_r.
Qed.

(** What every call leaves alone: dictionaries keep their keys, in order,
    and may get more at the end; a dictionary that no dictionary holds
    stays so, and is not written to by a call on another one. *)
Definition tame recur : Prop :=
  ∀ b o σ σ' r,
    recur b o σ = (σ', r) →
    (∀ l d, σ !! l = Some d → ∃ d', σ' !! l = Some d' ∧ d.*1 `prefix_of` d'.*1)
    ∧ ∀ lb, unheld σ lb →
            unheld σ' lb ∧ (b ≠ lb → σ' !! lb = σ !! lb).

Lemma merge_item_tame recur base key value σ σ' r items (i : nat) override :
  tame recur →
  σ !! override = Some items → items !! i = Some (key, value) →
  merge_item recur base key value σ = (σ', r) →
  (∀ l d, σ !! l = Some d → ∃ d', σ' !! l = Some d' ∧ d.*1 `prefix_of` d'.*1)
  ∧ ∀ lb, unheld σ lb →
          unheld σ' lb ∧ (base ≠ lb → σ' !! lb = σ !! lb).
Proof.
  intros Htame Hov Hi. unfold merge_item.
  destruct (σ !! base) as [d|] eqn:Hd.
  2:{ intros [= <- <-]. split; [intros l d' ?; by exists d'|done]. }
  assert (∀ lb, unheld σ lb → is_dict_at lb value = false) as Hvalue.
  { intros lb Hun. pose proof (map_Forall_lookup_1 _ _ _ _ Hun Hov) as Hd'.
    rewrite Forall_forall in Hd'.
    by apply (Hd' (key, value)), list_elem_of_lookup_2 with i. }
  assert ((<[base := set key value d]> σ, None) = (σ', r) →
          (∀ l d, σ !! l = Some d →
                  ∃ d', σ' !! l = Some d' ∧ d.*1 `prefix_of` d'.*1)
          ∧ ∀ lb, unheld σ lb →
                  unheld σ' lb ∧ (base ≠ lb → σ' !! lb = σ !! lb)) as Hset.
  { intros [= <- <-]. split.
    - intros l d' Hl. destruct (decide (l = base)) as [->|Hne].
      + rewrite Hd in Hl. injection Hl as <-.
        exists (set key value d). rewrite lookup_insert_eq.
        split; [done|apply keys_set_prefix].
      + exists d'. by rewrite lookup_insert_ne.
    - intros lb Hun. split; [|intros Hne; by apply lookup_insert_ne].
      apply map_Forall_insert_2; [|done].
      apply Forall_forall. intros kv [Hin| ->]%elem_of_set.
      + pose proof (map_Forall_lookup_1 _ _ _ _ Hun Hd) as Hd'.
        rewrite Forall_forall in Hd'. by apply Hd'.
      + by apply Hvalue. }
  destruct (lookup key d) as [[| | | | | |b]|] eqn:Hk; try done.
  destruct value as [| | | | | |o]; try done.
  intros Hrun. destruct (Htame b o σ σ' r Hrun) as [Hmono Hheld].
  split; [done|]. intros lb Hun. destruct (Hheld lb Hun) as [Hun' Hsame].
  split; [done|]. intros _. apply Hsame.
  by apply (unheld_lookup σ lb base d key b).
Qed.

Lemma merge_items_tame recur base override size todo :
  tame recur →
  ∀ σ σ' r,
    merge_items recur base override size todo σ = (σ', r) →
    (∀ l d, σ !! l = Some d → ∃ d', σ' !! l = Some d' ∧ d.*1 `prefix_of` d'.*1)
    ∧ ∀ lb, unheld σ lb →
            unheld σ' lb ∧ (base ≠ lb → σ' !! lb = σ !! lb).
Proof.
  intros Htame. induction todo as [|todo IH]; intros σ σ' r.
  - simpl. destruct (σ !! override) as [items|];
      [destruct (negb _)|]; intros [= <- <-];
      (split; [intros l d' ?; by exists d'|done]).
  - cbn [merge_items]. destruct (σ !! override) as [items|] eqn:Hov.
    2:{ intros [= <- <-]. split; [intros l d' ?; by exists d'|done]. }
    destruct (negb _).
    { intros [= <- <-]. split; [intros l d' ?; by exists d'|done]. }
    destruct (items !! (size - S todo)%nat) as [[key value]|] eqn:Hi.
    2:{ intros [= <- <-]. split; [intros l d' ?; by exists d'|done]. }
    destruct (merge_item recur base key value σ) as [σ1 r1] eqn:Hitem.
    destruct (merge_item_tame recur base key value σ σ1 r1 items _ override
                Htame Hov Hi Hitem) as [Hmono1 Hheld1].
    destruct r1 as [e|]; [by intros [= <- <-]|].
    intros Hrest. destruct (IH σ1 σ' r Hrest) as [Hmono2 Hheld2].
    split.
    + intros l d Hl. destruct (Hmono1 l d Hl) as (d1 & Hl1 & Hp1).
      destruct (Hmono2 l d1 Hl1) as (d2 & Hl2 & Hp2).
      exists d2. split; [done|]. by etrans.
    + intros lb Hun. destruct (Hheld1 lb Hun) as [Hun1 Hs1].
      destruct (Hheld2 lb Hun1) as [Hun2 Hs2].
      split; [done|]. intros Hne. by rewrite Hs2, Hs1.
Qed.

Lemma deep_merge_tame limit : tame (deep_merge limit).
Proof.
  induction limit as [|limit IH]; intros b o σ σ' r.
  - intros [= <- <-]. split; [intros l d' ?; by exists d'|done].
  - cbn [deep_merge]. destruct (σ !! o) as [items|].
    + by apply merge_items_tame.
    + intros [= <- <-]. split; [intros l d' ?; by exists d'|done].
Qed.

End KeyFacts.

Section KeyOrder.
Import Config.
Implicit Types (σ : gmap positive (list (string * Obj))).

Lemma keys_after_spec ks keys :
  NoDup ks → keys_after ks keys = keys ++ filter (λ k, k ∉ keys) ks.
Proof.
  unfold keys_after. revert keys.
  induction ks as [|k ks IH]; intros keys Hnd; simpl.
  - by rewrite app_nil_r.
  - apply NoDup_cons in Hnd as [Hk Hnd]. rewrite IH by done.
    destruct (decide (k ∈ keys)) as [Hin|Hnot].
    + by rewrite filter_cons_False by (intros Hc; by apply Hc).
    + rewrite filter_cons_True by done. rewrite <- app_assoc. simpl.
      do 2 f_equal. apply filter_agree, Forall_forall. intros k' Hk'.
      rewrite not_elem_of_app, not_elem_of_cons.
      split; [by intros [? _]|]. intros Hn. split; [done|].
      split; [by intros ->|apply not_elem_of_nil].
Qed.

Lemma merge_items_keys limit lb lo (d_o : list (string * Obj)) todo :
  ∀ σ σ' d,
    (todo ≤ length d_o)%nat → unheld σ lb → σ !! lb = Some d →
    (∃ now, σ !! lo = Some now ∧ d_o.*1 `prefix_of` now.*1) →
    merge_items (deep_merge limit) lb lo (length d_o) todo σ = (σ', None) →
    ∃ d', σ' !! lb = Some d'
          ∧ d'.*1 = keys_after (drop (length d_o - todo) d_o.*1) d.*1.
Proof.
  induction todo as [|todo IH];
    intros σ σ' d Htodo Hun Hd (now & Hnow & Hpre).
  - simpl. rewrite Hnow. destruct (negb _); [done|]. intros [= <-].
    exists d. split; [done|].
    rewrite Nat.sub_0_r, drop_ge; [done|]. by rewrite length_fmap.
  - cbn [merge_items]. rewrite Hnow.
    destruct (length now =? length d_o)%nat eqn:Hlen; [|done].
    apply Nat.eqb_eq in Hlen. cbn [negb].
    assert (now.*1 = d_o.*1) as Hkeys.
    { symmetry. apply prefix_length_eq; [done|].
      rewrite !length_fmap. lia. }
    destruct (lookup_lt_is_Some_2 now (length d_o - S todo))
      as [[key value] Hi]; [lia|].
    rewrite Hi.
    destruct (merge_item (deep_merge limit) lb key value σ) as [σ1 r1]
      eqn:Hitem.
    destruct (merge_item_tame (deep_merge limit) lb key value σ σ1 r1 now _ lo
                (deep_merge_tame limit) Hnow Hi Hitem) as [Hmono Hheld].
    destruct r1 as [e|]; [done|]. intros Hrest.
    destruct (Hheld lb Hun) as [Hun1 _].
    assert (d_o.*1 !! (length d_o - S todo)%nat = Some key) as Hki.
    { by rewrite <- Hkeys, list_lookup_fmap, Hi. }
    assert (∃ d1, σ1 !! lb = Some d1
                  ∧ d1.*1 = if decide (key ∈ d.*1) then d.*1
                            else d.*1 ++ [key]) as (d1 & Hd1 & Hk1).
    { unfold merge_item in Hitem. rewrite Hd in Hitem.
      assert ((<[lb := set key value d]> σ, @None Error) = (σ1, None) →
              ∃ d1, σ1 !! lb = Some d1
                    ∧ d1.*1 = if decide (key ∈ d.*1) then d.*1
                              else d.*1 ++ [key]) as Hset.
      { intros [= <-]. exists (set key value d).
        split; [apply lookup_insert_eq|apply keys_set]. }
      destruct (lookup key d) as [[| | | | | |b]|] eqn:Hk; try by apply Hset.
      destruct value as [| | | | | |o]; try by apply Hset.
      destruct (deep_merge_tame limit b o σ σ1 None Hitem) as [_ Hb].
      destruct (Hb lb Hun) as [_ Hsame].
      exists d. split.
      - rewrite Hsame; [done|]. by apply (unheld_lookup σ lb lb d key b).
      - rewrite decide_True; [done|]. apply lookup_Some_keys. by eexists. }
    destruct (IH σ1 σ' d1) as (d' & Hd' & Hk'); try done; [lia| |].
    { destruct (Hmono lo now Hnow) as (now1 & Hnow1 & Hp1).
      exists now1. split; [done|]. by rewrite <- Hkeys. }
    exists d'. split; [done|]. rewrite Hk'.
    rewrite (drop_S _ key (length d_o - S todo)) by done.
    replace (S (length d_o - S todo)) with (length d_o - todo)%nat by lia.
    unfold keys_after. simpl. by rewrite Hk1.
Qed.

End KeyOrder.

Section MergeProperties.
Import Config.

(** X20.  [deep_merge(base, override)] on a [base] that holds each of its
    dictionaries in one place and shares none with [override], with room
    for as many nested calls as [override] is deep: the call returns, and
    [base] then reads as the merge of what the two read as before.  A key
    that [override] does not have keeps its entry; a key it has holds the
    value of [override], except that where both sides hold a dictionary
    the entry is the merge of the two.  [override] reads as before, and
    no dictionary that was not met under [base] has changed. *)
Theorem deep_merge_entries limit σ lb lo tb to :
  reads σ (VDict tb) (ODict lb) → NoDup (locs σ (VDict tb) (ODict lb)) →
  reads σ (VDict to) (ODict lo) →
  (∀ l, l ∈ locs σ (VDict tb) (ODict lb) → l ∉ locs σ (VDict to) (ODict lo)) →
  (depth (VDict to) ≤ limit)%nat →
  ∃ σ',
    deep_merge limit lb lo σ = (σ', None)
    ∧ reads σ' (VDict (tree_merge tb to)) (ODict lb)
    ∧ reads σ' (VDict to) (ODict lo)
    ∧ (∀ l, l ∉ locs σ (VDict tb) (ODict lb) → σ' !! l = σ !! l)
    ∧ ∀ k, lookup k (tree_merge tb to)
           = match lookup k to with
             | None => lookup k tb
             | Some v =>
                 Some match lookup k tb, v with
                      | Some (VDict b), VDict o => VDict (tree_merge b o)
                      | _, _ => v
                      end
             end.
Proof.
  intros Hrb Hnd Hro Hap Hdepth.
  destruct (deep_merge_reads limit σ lb lo tb to Hrb Hnd Hro Hap Hdepth)
    as (σ' & Hrun & Hframe & Hrm & _ & _).
  exists σ'. split; [done|]. split; [done|]. split; [|split; [done|]].
  - apply (reads_frame σ σ'); [done|].
    intros l Hl. apply Hframe. intros Hlb. by apply (Hap l).
  - intros k. apply reads_dict in Hro as (? & ? & _ & _ & _ & Hon & _).
    by rewrite tree_merge_lookup.
Qed.


(** A dictionary that [base] holds under two keys is one dictionary: the
    merge under one key shows under the other, which [override] does not
    name. *)
Example deep_merge_shared :
  deep_merge 2 1 3 Cases.shared_heap
  = (<[2%positive := [("timeout", OInt 9)]]> Cases.shared_heap, None).
Proof. vm_compute. reflexivity. Qed.

(** Merging into a [base] the dictionary it holds adds a key to the
    dictionary the loop runs over, and the loop ends in the error of the
    iterator, after the key was added. *)
Example deep_merge_changed_size :
  deep_merge 3 1 2 Cases.nested_heap
  = (<[2%positive := [("p", ODict 3); ("q", OInt 1)]]> Cases.nested_heap,
     Some ChangedSize).
Proof. vm_compute. reflexivity. Qed.

(** A [base] that holds itself gets the keys of the nested dictionary of
    [override]: the keys are not those of the two dictionaries merged. *)
Example deep_merge_cyclic :
  deep_merge 2 1 2 Cases.cyclic_heap
  = (<[1%positive := [("a", ODict 1); ("x", OInt 1)]]> Cases.cyclic_heap,
     None).
Proof. vm_compute. reflexivity. Qed.

End MergeProperties.

Section KeyOrderProperty.
Import Config.

(** X21.  Whatever the dictionaries share, as long as no dictionary has
    [base] itself as the value of a key: when [deep_merge(base, override)]
    returns, [base] has the keys it had, in their order, followed by the
    keys that only [override] has, in the order of [override]; each key is
    there once if that was so in [base].  And the call does return when
    [base] holds each of its dictionaries in one place and shares none
    with [override], with room for as many nested calls as [override] is
    deep. *)
Theorem deep_merge_key_order limit σ lb lo d_b d_o :
  σ !! lb = Some d_b → σ !! lo = Some d_o → NoDup d_o.*1 → unheld σ lb →
  (∀ σ', deep_merge limit lb lo σ = (σ', None) →
         ∃ d, σ' !! lb = Some d
              ∧ d.*1 = d_b.*1 ++ filter (λ k, k ∉ d_b.*1) d_o.*1
              ∧ (NoDup d_b.*1 → NoDup d.*1))
  ∧ (∀ tb to,
       reads σ (VDict tb) (ODict lb) →
       NoDup (locs σ (VDict tb) (ODict lb)) →
       reads σ (VDict to) (ODict lo) →
       (∀ l, l ∈ locs σ (VDict tb) (ODict lb) →
             l ∉ locs σ (VDict to) (ODict lo)) →
       (depth (VDict to) ≤ limit)%nat →
       ∃ σ', deep_merge limit lb lo σ = (σ', None)).
Proof.
  intros Hb Ho Hnd Hun. split.
  - intros σ' Hrun. destruct limit as [|limit]; [done|].
    cbn [deep_merge] in Hrun. rewrite Ho in Hrun.
    destruct (merge_items_keys limit lb lo d_o (length d_o) σ σ' d_b)
      as (d & Hd & Hk); try done.
    { by exists d_o. }
    exists d. split; [done|].
    rewrite Nat.sub_diag, drop_0, keys_after_spec in Hk by done.
    split; [done|]. intros Hbn. rewrite Hk.
    apply NoDup_app. split; [done|]. split; [|by apply NoDup_filter].
    intros k Hk1 Hk2. by apply list_elem_of_filter in Hk2 as [Hk2 _].
  - intros tb to Hrb Htree Hro Hap Hdepth.
    destruct (deep_merge_reads limit σ lb lo tb to Hrb Htree Hro Hap Hdepth)
      as (σ' & Hrun & _).
    by exists σ'.
Qed.

End KeyOrderProperty.

Section ConfigProperties.
Import Config.
Implicit Types (base override : list (string * Value)) (k : string).

Variable environ : gmap string string.

(** X23.  In a dictionary, a value of the form [${NAME}] is replaced by
    the value of the environment variable [NAME] when it is set and is left
    as it is when it is not; the keys of the dictionary and their order do
    not change. *)
Theorem env_reference_in_dict items key name :
  lookup key items = Some (VStr ("${" ++ name ++ "}")%string) →
  ∃ items' logs,
    process_env_vars environ (VDict items) = (VDict items', logs)
    ∧ items'.*1 = items.*1
    ∧ lookup key items'
      = Some (VStr (default ("${" ++ name ++ "}")%string (environ !! name))).
Proof.
  intros Hk. pose proof (process_dict environ items) as Hd.
  destruct (process_env_vars environ (VDict items)) as [r logs].
  simpl in Hd. subst r. eexists _, logs. split; [reflexivity|]. split.
  - rewrite <- list_fmap_compose. apply list_fmap_ext. by intros i [k v].
  - rewrite lookup_prod_map, Hk. simpl.
    rewrite replace_reference_form. by destruct (environ !! name).
Qed.

(** X24.  A string that is an item of a list is never replaced, whatever
    its form and whatever the environment holds; the list keeps its
    length. *)
Theorem env_reference_in_list items (i : nat) s :
  items !! i = Some (VStr s) →
  ∃ items' logs,
    process_env_vars environ (VList items) = (VList items', logs)
    ∧ length items' = length items
    ∧ items' !! i = Some (VStr s).
Proof.
  intros Hi. pose proof (process_list environ items) as Hl.
  destruct (process_env_vars environ (VList items)) as [r logs].
  simpl in Hl. subst r. eexists _, logs. split; [reflexivity|]. split.
  - apply length_fmap.
  - by rewrite list_lookup_fmap, Hi.
Qed.

(** X25.  Processing a configuration a second time changes nothing,
    provided no value of the environment is itself of the form [${...}]. *)
Theorem process_env_vars_idempotent config :
  (∀ name env_value,
      environ !! name = Some env_value →
      String.prefix "${" env_value && endswith "}" env_value = false) →
  (process_env_vars environ (process_env_vars environ config).1).1
  = (process_env_vars environ config).1.
Proof.
  intros Henv.
  assert (∀ s, entry_after environ (entry_after environ (VStr s))
               = entry_after environ (VStr s)) as Hstr.
  { intros s. simpl. unfold replace_reference.
    destruct (String.prefix "${" s && endswith "}" s) eqn:Hform.
    - destruct (environ !! _) as [ev|] eqn:Hev; simpl.
      + unfold replace_reference. by rewrite (Henv _ _ Hev).
      + unfold replace_reference. by rewrite Hform, Hev.
    - simpl. unfold replace_reference. by rewrite Hform. }
  induction config as [| | | | |items IH|items IH] using Value_induction;
    try done.
  - rewrite !process_list. f_equal.
    rewrite <- list_fmap_compose. apply Forall_fmap_ext.
    eapply Forall_impl; [exact IH|]. by intros v Hv.
  - rewrite !process_dict. f_equal.
    rewrite <- list_fmap_compose. apply Forall_fmap_ext.
    eapply Forall_impl; [exact IH|]. intros [k v] Hv. simpl in *.
    unfold prod_map. simpl. f_equal.
    destruct v as [| | | |s|l|d]; try done.
    + apply Hstr.
    + pose proof (process_list environ l) as E.
      change (entry_after environ (VList l))
        with (process_env_vars environ (VList l)).1.
      rewrite E in Hv |- *. exact Hv.
    + pose proof (process_dict environ d) as E.
      change (entry_after environ (VDict d))
        with (process_env_vars environ (VDict d)).1.
      rewrite E in Hv |- *. exact Hv.
Qed.

End ConfigProperties.

Section RequiredVars.
Import Config.
Variable environ : gmap string string.



Lemma stars_S n : stars (S n) = ("*" ++ stars n)%string.
Proof. unfold stars. simpl. by destruct n. Qed.

Lemma stars_len n : len (stars n) = n.
Proof.
  induction n as [|n IH]; [done|].
  rewrite stars_S. change (S (len (stars n)) = S n). by rewrite IH.
Qed.

Lemma stars_chars n : split_chars (stars n) = ("", replicate n "*").
Proof.
  induction n as [|n IH]; [done|].
  rewrite stars_S.
  match eval cbv in "*" with
  | String ?c _ => change ("*" ++ stars n)%string with (String c (stars n))
  end.
  simpl. by rewrite IH.
Qed.

Lemma len_app (s1 s2 : string) : len (s1 ++ s2) = (len s1 + len s2)%nat.
Proof.
  induction s1 as [|c s1 IH]; [done|].
  change (len (String c (s1 ++ s2)) = (len (String c s1) + len s2)%nat).
  simpl. rewrite IH. by destruct (continuation c).
Qed.

Lemma len_chars (s : string) : len s = length (chars s).
Proof.
  unfold chars. induction s as [|c s IH]; [done|]. simpl.
  destruct (split_chars s) as [run cs]. simpl in IH.
  destruct (continuation c); simpl; by rewrite IH.
Qed.

(** A slice holds as many characters as were asked for, if there are as
    many; a string that has no more is its own slice. *)
Lemma len_slice_to n (s : string) : len (slice_to n s) = (n `min` len s)%nat.
Proof.
  revert n. induction s as [|c s IH]; intros n; simpl.
  - by rewrite Nat.min_0_r.
  - destruct (continuation c) eqn:Ec; simpl; rewrite ?Ec.
    + apply IH.
    + destruct n as [|n]; simpl; [done|]. by rewrite Ec, IH.
Qed.

Lemma slice_to_all n (s : string) : (len s ≤ n)%nat → slice_to n s = s.
Proof.
  revert n. induction s as [|c s IH]; intros n Hn; simpl in *; [done|].
  destruct (continuation c).
  - by rewrite IH.
  - destruct n as [|n]; [lia|]. rewrite IH; [done|lia].
Qed.

(** What is appended after the characters asked for is not in the slice. *)
Lemma slice_to_app n (s t : string) :
  (n ≤ len s)%nat →
  match t with "" => True | String c _ => continuation c = false end →
  slice_to n (slice_to n s ++ t) = slice_to n s.
Proof.
  revert n. induction s as [|c s IH]; intros n Hn Ht.
  - simpl in Hn. assert (n = 0%nat) as -> by lia.
    change (slice_to 0 t = ""). destruct t as [|c t]; [done|].
    simpl. by rewrite Ht.
  - simpl in Hn |- *. destruct (continuation c) eqn:Ec.
    + change (slice_to n (String c (slice_to n s ++ t))
              = String c (slice_to n s)).
      simpl. rewrite Ec. by rewrite IH.
    + destruct n as [|n].
      * change (slice_to 0 t = ""). destruct t as [|c' t]; [done|].
        simpl. by rewrite Ht.
      * change (slice_to (S n) (String c (slice_to n s ++ t))
                = String c (slice_to n s)).
        simpl. rewrite Ec. rewrite IH; [done|lia|done].
Qed.

(** The characters of two strings put together, when the second does not
    start inside a character. *)
Lemma split_chars_app (s t : string) :
  match t with "" => True | String c _ => continuation c = false end →
  split_chars (s ++ t)
  = ((split_chars s).1, (split_chars s).2 ++ (split_chars t).2).
Proof.
  intros Ht. induction s as [|c s IH].
  - change (split_chars t = ("", (split_chars t).2)).
    destruct t as [|c t]; [done|]. simpl.
    destruct (split_chars t) as [run cs]. by rewrite Ht.
  - change (split_chars (String c (s ++ t))
            = ((split_chars (String c s)).1,
               (split_chars (String c s)).2 ++ (split_chars t).2)).
    simpl. rewrite IH. destruct (split_chars s) as [run cs]. simpl.
    by destruct (continuation c).
Qed.

Lemma stars_start n :
  match stars n with "" => True | String c _ => continuation c = false end.
Proof. destruct n as [|n]; [done|]. by rewrite stars_S. Qed.

Lemma mask_short value : (len value ≤ 4)%nat → mask value = value.
Proof.
  intros Hlen. unfold mask.
  replace (len value - 4)%nat with 0%nat by lia.
  rewrite slice_to_all by done. change (stars 0) with "".
  clear. induction value as [|c value IH]; [done|].
  change (String c (value ++ "") = String c value). by rewrite IH.
Qed.

Lemma mask_facts value :
  len (mask value) = len value
  ∧ slice_to 4 (mask value) = slice_to 4 value
  ∧ ∀ i, (4 ≤ i < len value)%nat → chars (mask value) !! i = Some "*".
Proof.
  destruct (decide (len value ≤ 4)%nat) as [Hshort|Hlong].
  - rewrite mask_short by done. repeat split. intros i Hi. lia.
  - unfold mask. split; [|split].
    + rewrite len_app, len_slice_to, stars_len. lia.
    + apply slice_to_app; [lia|apply stars_start].
    + intros i Hi. unfold chars.
      rewrite split_chars_app by apply stars_start.
      cbn [snd]. rewrite stars_chars. cbn [snd].
      assert (length (split_chars (slice_to 4 value)).2 = 4%nat) as Hfour.
      { fold (chars (slice_to 4 value)). rewrite <- len_chars, len_slice_to.
        lia. }
      rewrite lookup_app_r by lia. rewrite Hfour.
      apply lookup_replicate. split; [done|lia].
Qed.

(** What the loop leaves under a variable. *)
Lemma collect_lookup vars acc missing var :
  NoDup vars →
  lookup var (collect environ vars acc missing).1
  = if decide (var ∈ vars)
    then match environ !! var with
         | Some (String _ _ as value) =>
             Some (if sensitive var then mask value else value)
         | _ => lookup var acc
         end
    else lookup var acc.
Proof.
  revert acc missing. induction vars as [|v vars IH]; intros acc missing Hnd.
  - cbn [collect fst].
    destruct (decide (var ∈ [])) as [Hin|]; [by apply elem_of_nil in Hin|done].
  - apply NoDup_cons in Hnd as [Hv Hnd]. cbn [collect].
    destruct (decide (var = v)) as [->|Hne].
    + rewrite (decide_True (P := v ∈ v :: vars)) by apply list_elem_of_here.
      destruct (environ !! v) as [[|c r]|] eqn:Hev;
        try (rewrite IH by done; by rewrite decide_False by done).
      fold (sensitive v). fold (mask (String c r)).
      destruct (sensitive v); rewrite IH by done;
        rewrite decide_False by done; apply lookup_set_eq.
    + assert (lookup var (collect environ (v :: vars) acc missing).1
              = if decide (var ∈ vars)
                then match environ !! var with
                     | Some (String _ _ as value) =>
                         Some (if sensitive var then mask value else value)
                     | _ => lookup var acc
                     end
                else lookup var acc) as Hgoal.
      { cbn [collect].
        destruct (environ !! v) as [[|c r]|] eqn:Hev;
          try (by rewrite IH by done).
        fold (sensitive v). fold (mask (String c r)).
        destruct (sensitive v); rewrite IH by done;
          by rewrite lookup_set_ne by done. }
      cbn [collect] in Hgoal. rewrite Hgoal.
      destruct (decide (var ∈ vars)) as [Hin|Hnot].
      * by rewrite decide_True by by apply list_elem_of_further.
      * rewrite decide_False; [done|]. apply not_elem_of_cons. by split.
Qed.

(** A variable that is unset or empty is reported as missing. *)
Lemma collect_missing vars acc missing var :
  var ∈ vars → environ !! var = None ∨ environ !! var = Some "" →
  var ∈ (collect environ vars acc missing).2.
Proof.
  assert (∀ vars acc missing, var ∈ missing →
            var ∈ (collect environ vars acc missing).2) as Hkeep.
  { clear. induction vars as [|v vars IH]; intros acc missing Hin; [done|].
    cbn [collect]. destruct (environ !! v) as [[|c r]|];
      [apply IH; apply elem_of_app; by left| |apply IH; apply elem_of_app; by left].
    destruct (_ || _); by apply IH. }
  revert acc missing. induction vars as [|v vars IH]; intros acc missing Hin Hun.
  - by apply elem_of_nil in Hin.
  - cbn [collect]. apply elem_of_cons in Hin as [->|Hin].
    + destruct Hun as [-> | ->]; apply Hkeep, elem_of_app; right;
        apply list_elem_of_here.
    + destruct (environ !! v) as [[|c r]|]; [by apply IH| |by apply IH].
      destruct (_ || _); by apply IH.
Qed.

Lemma required_vars_NoDup : NoDup required_vars.
Proof. apply (bool_decide_unpack _). by vm_compute. Qed.

(** X26.  A required variable that is set to a non-empty value is
    reported with a value of as many characters, the first four of them
    the same.  Variables whose name contains API_KEY, TOKEN or PASSWORD
    have every character after the fourth replaced by a star, so a value
    of at most four characters is reported in full; the others are
    reported as they are.  Characters are counted as Python counts them,
    not bytes. *)
Theorem required_env_vars_masked var value :
  var ∈ required_vars → environ !! var = Some value → value ≠ "" →
  ∃ shown,
    lookup var (get_required_env_vars environ).1 = Some shown
    ∧ len shown = len value
    ∧ slice_to 4 shown = slice_to 4 value
    ∧ (sensitive var = false → shown = value)
    ∧ (sensitive var = true →
       ((len value ≤ 4)%nat → shown = value)
       ∧ ∀ i, (4 ≤ i < len value)%nat → chars shown !! i = Some "*").
Proof.
  intros Hvar Hev Hne.
  assert (lookup var (get_required_env_vars environ).1
          = Some (if sensitive var then mask value else value)) as Hl.
  { unfold get_required_env_vars.
    pose proof (collect_lookup required_vars [] [] var required_vars_NoDup) as Hc.
    destruct (collect environ required_vars [] []) as [env_vars missing].
    simpl in *. rewrite Hc, decide_True, Hev by done. by destruct value. }
  rewrite Hl. eexists. split; [reflexivity|].
  destruct (mask_facts value) as (Hlen & Hpre & Hstars).
  destruct (sensitive var); repeat split; try done.
  intros Hshort. by apply mask_short.
Qed.

(** X27.  A required variable that is unset or empty is left out of the
    result and one WARNING record is logged; a variable that is not in the
    list is never in the result. *)
Theorem required_env_vars_missing var :
  (var ∈ required_vars →
   environ !! var = None ∨ environ !! var = Some "" →
   lookup var (get_required_env_vars environ).1 = None
   ∧ ∃ text, (get_required_env_vars environ).2 = [(WARNING, text)])
  ∧ (var ∉ required_vars →
     lookup var (get_required_env_vars environ).1 = None).
Proof.
  pose proof (collect_lookup required_vars [] [] var required_vars_NoDup) as Hc.
  split.
  - intros Hvar Hun.
    pose proof (collect_missing required_vars [] [] var Hvar Hun) as Hm.
    unfold get_required_env_vars.
    destruct (collect environ required_vars [] []) as [env_vars missing].
    simpl in *. split.
    + rewrite Hc, decide_True by done. by destruct Hun as [-> | ->].
    + destruct missing; [by apply elem_of_nil in Hm|by eexists].
  - intros Hvar. unfold get_required_env_vars.
    destruct (collect environ required_vars [] []) as [env_vars missing].
    simpl in *. by rewrite Hc, decide_False.
Qed.

End RequiredVars.

(** ** Further properties at concrete inputs *)

Section SampleFacts.
Import EventBus.

Lemma sample_bus_ok : registry_ok Sample.bus.
Proof. by apply (registry_ok_new None). Qed.

Lemma subscribed_bus_ok : registry_ok Sample.subscribed_bus.
Proof. do 2 apply registry_ok_subscribe. apply sample_bus_ok. Qed.

Lemma raising_bus_ok : registry_ok Sample.raising_bus.
Proof. apply registry_ok_subscribe, sample_bus_ok. Qed.

End SampleFacts.

Section MoreInstances.
Import EventBus.

Lemma unsubscribe_absent_witness :
  registry_ok Sample.subscribed_bus
  ∧ ("sub-9" ∉ ids_under (KEnum MessageType.AUDIO_CAPTURED) Sample.subscribed_bus)
  ∧ unsubscribe (KEnum MessageType.AUDIO_CAPTURED) "sub-9" Sample.subscribed_bus
    = (Sample.subscribed_bus, false).
Proof.
  assert ("sub-9" ∉ ids_under (KEnum MessageType.AUDIO_CAPTURED)
                      Sample.subscribed_bus) as Hid
    by (apply (bool_decide_unpack _); vm_compute; exact I).
  split; [apply subscribed_bus_ok|]. split; [exact Hid|].
  exact (unsubscribe_absent _ _ _ subscribed_bus_ok Hid).
Defined.

Lemma subscribe_unsubscribe_witness :
  registry_ok Sample.raising_bus
  ∧ ("sub-2" ∉ ids_under (KEnum MessageType.AUDIO_CAPTURED) Sample.raising_bus)
  ∧ unsubscribe (KEnum MessageType.AUDIO_CAPTURED) "sub-2" Sample.subscribed_bus
    = (log DEBUG "Removed subscription to MessageType.AUDIO_CAPTURED, ID: sub-2"
         (log DEBUG "Added subscription to MessageType.AUDIO_CAPTURED, ID: sub-2"
            Sample.raising_bus),
       true).
Proof.
  assert ("sub-2" ∉ ids_under (KEnum MessageType.AUDIO_CAPTURED)
                      Sample.raising_bus) as Hid
    by (apply (bool_decide_unpack _); vm_compute; exact I).
  split; [apply raising_bus_ok|]. split; [exact Hid|].
  exact (subscribe_unsubscribe (KEnum MessageType.AUDIO_CAPTURED)
           Sample.counting "sub-2" Sample.raising_bus raising_bus_ok Hid).
Defined.

Lemma registry_ok_kept_witness :
  registry_ok Sample.bus
  ∧ registry_ok Sample.raising_bus
  ∧ registry_ok
      (unsubscribe (KEnum MessageType.AUDIO_CAPTURED) "sub-1" Sample.raising_bus).1
  ∧ registry_ok (publish (ObjMessage Sample.bare) Sample.raising_bus).1
  ∧ registry_ok (shutdown Sample.raising_bus).
Proof.
  destruct registry_ok_kept as [Hnew Hkept].
  assert (registry_ok Sample.bus) as H0 by exact (Hnew None Sample.bus eq_refl).
  destruct (Hkept Sample.bus H0) as (Hsub & _).
  assert (registry_ok Sample.raising_bus) as H1
    by exact (Hsub (KEnum MessageType.AUDIO_CAPTURED) Sample.raising "sub-1").
  destruct (Hkept Sample.raising_bus H1) as (_ & Hunsub & Hpub & Hshut).
  split; [exact H0|]. split; [exact H1|]. split; [apply Hunsub|].
  split; [apply Hpub | exact Hshut].
Defined.

Lemma unsubscribed_not_dispatched_witness :
  0 < max_history_size Sample.subscribed_bus
  ∧ loop_closed Sample.subscribed_bus = false
  ∧ loop_ready
      (publish (ObjMessage Sample.bare)
         (unsubscribe (KEnum MessageType.AUDIO_CAPTURED) "sub-1"
            Sample.subscribed_bus).1).1
    = [(Sample.counting, Sample.bare)].
Proof.
  split; [reflexivity|]. split; [reflexivity|].
  exact (unsubscribed_not_dispatched "sub-1" Sample.subscribed_bus Sample.bare
           eq_refl eq_refl).
Defined.

Lemma subscribed_dispatched_last_witness :
  0 < max_history_size Sample.raising_bus
  ∧ loop_closed Sample.raising_bus = false
  ∧ loop_ready
      (publish (ObjMessage Sample.bare)
         (subscribe (KEnum MessageType.AUDIO_CAPTURED) Sample.counting "sub-2"
            Sample.raising_bus).1).1
    = [(Sample.raising, Sample.bare); (Sample.counting, Sample.bare)].
Proof.
  split; [reflexivity|]. split; [reflexivity|].
  exact (subscribed_dispatched_last Sample.counting "sub-2" Sample.raising_bus
           Sample.bare eq_refl eq_refl).
Defined.

Lemma publish_without_capacity_witness :
  max_history_size Cases.bus_without_history ≤ 0
  ∧ message_history Cases.bus_without_history = []
  ∧ publish (ObjMessage Sample.bare) Cases.bus_without_history
    = (Cases.bus_without_history, Raise IndexError)
  ∧ publish_all Sample.seven Cases.bus_without_history
    = Cases.bus_without_history.
Proof.
  assert (max_history_size Cases.bus_without_history ≤ 0) as Hcap
    by (vm_compute; discriminate).
  destruct (publish_without_capacity Cases.bus_without_history Hcap eq_refl)
    as [Hone Hall].
  split; [exact Hcap|]. split; [reflexivity|].
  split; [apply Hone | apply Hall].
Defined.

Lemma recent_positive_limit_witness :
  0 < 1
  ∧ get_recent_messages 1 Cases.bus_with_two = [Sample.full]
  ∧ Z.of_nat (length (get_recent_messages 1 Cases.bus_with_two)) ≤ 1.
Proof.
  destruct (recent_positive_limit 1 Cases.bus_with_two eq_refl)
    as (Hlast & Hlen & _).
  split; [reflexivity|]. split; [exact Hlast | exact Hlen].
Defined.

Lemma recent_negative_limit_witness :
  -1 < 0
  ∧ get_recent_messages (-1) Cases.bus_with_two = [Sample.full].
Proof.
  split; [reflexivity|].
  exact (recent_negative_limit (-1) Cases.bus_with_two eq_refl).
Defined.

Lemma reply_of_reply_witness :
  Message.metadata Sample.full = PRef 2
  ∧ Sample.σ0 !! 2%positive = Some ∅
  ∧ ∃ σ1 r1 σ2 r2,
      Message.create_reply Sample.full (PEnum MessageType.TASK_UPDATED)
        (PRef 1) 0.5 "uid-9" Sample.σ0 = (σ1, Ok r1)
      ∧ Message.create_reply r1 (PEnum MessageType.LOG) (PRef 1) 0.75 "uid-10"
          σ1 = (σ2, Ok r2)
      ∧ Message.sender r1 = PStr "agent-b"
      ∧ Message.recipient r1 = PStr "agent-a"
      ∧ Message.sender r2 = PStr "agent-a"
      ∧ Message.recipient r2 = PStr "agent-b"
      ∧ Message.parent_id r2 = PStr "uid-9".
Proof.
  assert (Sample.σ0 !! 2%positive = Some ∅) as H2 by reflexivity.
  split; [reflexivity|]. split; [exact H2|].
  destruct (reply_of_reply Sample.σ0 Sample.full MessageType.TASK_UPDATED
              MessageType.LOG (PRef 1) (PRef 1) 0.5%float "uid-9" 0.75%float
              "uid-10"
              2%positive ∅ eq_refl H2)
    as (σ1 & r1 & σ2 & r2 & Hr1 & Hr2 & Hs1 & Hrc1 & _ & _ & _ & Hs2 & Hrc2
        & Hp2 & _).
  exists σ1, r1, σ2, r2. repeat split; done.
Defined.

Lemma with_content_twice_witness :
  Message.content Sample.bare = PRef 1
  ∧ Sample.σ0 !! 1%positive = Some (<["a" := PInt 0]> (<["b" := PInt 2]> ∅))
  ∧ Message.metadata Sample.bare = PRef 2
  ∧ Sample.σ0 !! 2%positive = Some ∅
  ∧ ∃ σ1 m1 σ2 m2 lc2,
      Message.with_content Sample.bare {[ "a" := PInt 1 ]} 0.5 "uid-9" Sample.σ0
      = (σ1, Ok m1)
      ∧ Message.with_content m1 {[ "c" := PInt 3 ]} 0.75 "uid-10" σ1
        = (σ2, Ok m2)
      ∧ Message.content m2 = PRef lc2
      ∧ σ2 !! lc2
        = Some ({[ "c" := PInt 3 ]}
                ∪ ({[ "a" := PInt 1 ]}
                   ∪ <["a" := PInt 0]> (<["b" := PInt 2]> ∅)))
      ∧ Message.parent_id m2 = PStr "uid-9"
      ∧ σ2 !! 1%positive = Some (<["a" := PInt 0]> (<["b" := PInt 2]> ∅)).
Proof.
  assert (Sample.σ0 !! 1%positive
          = Some (<["a" := PInt 0]> (<["b" := PInt 2]> ∅))) as H1
    by reflexivity.
  assert (Sample.σ0 !! 2%positive = Some ∅) as H2 by reflexivity.
  repeat (split; [reflexivity|]).
  destruct (with_content_twice Sample.σ0 Sample.bare {[ "a" := PInt 1 ]}
              {[ "c" := PInt 3 ]} 0.5%float "uid-9" 0.75%float "uid-10" 1%positive
              2%positive _ _ eq_refl H1 eq_refl H2)
    as (σ1 & m1 & σ2 & m2 & lc2 & Hm1 & Hm2 & Hc & Hlc & _ & _ & Hp & Hkeep).
  exists σ1, m1, σ2, m2, lc2. repeat split; done.
Defined.

Lemma derivation_failures_witness :
  Message.with_content Cases.without_payload {[ "a" := PInt 1 ]} 0.5 "uid-9"
    Sample.σ0 = (Sample.σ0, Raise TypeError)
  ∧ Message.metadata Sample.full = PRef 2
  ∧ Sample.σ0 !! 2%positive = Some ∅
  ∧ ¬ recognized (PStr "NOT_A_KIND")
  ∧ ∃ σ',
      Message.create_reply Sample.full (PStr "NOT_A_KIND") (PRef 1) 0.5 "uid-9"
        Sample.σ0 = (σ', Raise ValueError)
      ∧ σ' !! 1%positive = Some (<["a" := PInt 0]> (<["b" := PInt 2]> ∅)).
Proof.
  destruct derivation_failures as [Hwith Hreply].
  assert (Sample.σ0 !! 2%positive = Some ∅) as H2 by reflexivity.
  assert (¬ recognized (PStr "NOT_A_KIND")) as Hbad.
  { intros [x [H|H]]; [discriminate | destruct x; discriminate]. }
  split; [by apply Hwith|]. split; [reflexivity|]. split; [exact H2|].
  split; [exact Hbad|].
  destruct (Hreply Sample.σ0 Sample.full (PStr "NOT_A_KIND") (PRef 1) 0.5%float
              "uid-9" 2%positive ∅ eq_refl H2 Hbad) as (σ' & Hrun & Hkeep).
  exists σ'. split; [exact Hrun|]. by apply Hkeep.
Defined.

Lemma from_dict_failures_witness :
  Sample.σ0 !! 2%positive = Some ∅
  ∧ Message.from_dict 2 0.5 "uid-9" Sample.σ0 = (Sample.σ0, Raise KeyError)
  ∧ Sample.σ1 !! 4%positive = Some {[ "type" := PStr "NOT_A_KIND" ]}
  ∧ ∃ σ',
      Message.from_dict 4 0.5 "uid-9" Sample.σ1 = (σ', Raise ValueError)
      ∧ σ' !! 4%positive = Some ∅
      ∧ Message.from_dict 4 0.75 "uid-10" σ' = (σ', Raise KeyError).
Proof.
  destruct from_dict_failures as [Hmissing Hname].
  assert (Sample.σ0 !! 2%positive = Some ∅) as H2 by reflexivity.
  assert (Sample.σ1 !! 4%positive = Some {[ "type" := PStr "NOT_A_KIND" ]})
    as H4 by reflexivity.
  split; [exact H2|].
  split; [exact (Hmissing Sample.σ0 2%positive ∅ 0.5%float "uid-9" H2 eq_refl)|].
  split; [exact H4|].
  destruct (Hname Sample.σ1 4%positive _ "NOT_A_KIND" 0.5%float "uid-9" H4
              eq_refl)
    as (σ' & Hrun & Hleft & Hagain).
  { intros x. destruct x; discriminate. }
  exists σ'. split; [exact Hrun|]. split; [exact Hleft | apply Hagain].
Defined.

Lemma from_dict_defaults_witness :
  Cases.σ_kind_only !! 3%positive = Some {[ "type" := PStr "LOG" ]}
  ∧ ∃ σ' lc lm,
      Message.from_dict 3 0.5 "uid-9" Cases.σ_kind_only
      = (σ', Ok {| Message.type := MessageType.LOG;
                   Message.content := PRef lc;
                   Message.sender := PNone; Message.recipient := PNone;
                   Message.timestamp := PFloat 0.5;
                   Message.message_id := PStr "uid-9";
                   Message.parent_id := PNone; Message.context_id := PNone;
                   Message.thread_id := PNone; Message.priority := PInt 0;
                   Message.ttl := PNone; Message.metadata := PRef lm;
                   Message.type_name := "LOG" |})
      ∧ lc ≠ lm
      ∧ σ' !! lc = Some ∅ ∧ σ' !! lm = Some ∅.
Proof.
  split; [reflexivity|].
  destruct (from_dict_defaults Cases.σ_kind_only 3%positive MessageType.LOG
              0.5%float "uid-9" eq_refl)
    as (σ' & lc & lm & Hrun & Hne & _ & _ & Hc & Hm).
  by exists σ', lc, lm.
Defined.

Lemma from_dict_to_dict_roundtrip_witness :
  Cases.σ_full_record !! 3%positive = Some Cases.full_record
  ∧ dom Cases.full_record = list_to_set record_keys
  ∧ Cases.full_record !! "type" = Some (PStr "TASK_CREATED")
  ∧ MessageType.getitem "TASK_CREATED" = Some MessageType.TASK_CREATED
  ∧ ∃ σ1 m σ2 data',
      Message.from_dict 3 0.5 "uid-9" Cases.σ_full_record = (σ1, Ok m)
      ∧ Message.to_dict m σ1 = (σ2, Ok data')
      ∧ σ2 !! data' = Some Cases.full_record
      ∧ data' ≠ 3%positive.
Proof.
  assert (dom Cases.full_record = list_to_set record_keys) as Hdom
    by (vm_compute; reflexivity).
  split; [reflexivity|]. split; [exact Hdom|]. split; [reflexivity|].
  split; [reflexivity|].
  exact (from_dict_to_dict_roundtrip Cases.σ_full_record 3%positive
           Cases.full_record "TASK_CREATED" MessageType.TASK_CREATED
           0.5%float "uid-9" eq_refl Hdom eq_refl eq_refl).
Defined.

Lemma built_in_sync_witness :
  Message.__init__ (PStr "LOG") (PRef 6) PNone PNone (PFloat 0.5)
    (PStr "uid-9") PNone PNone PNone (PInt 3) PNone (PRef 7)
  = Ok Sample.from_minimal
  ∧ Message.from_dict 3 0.5 "uid-9" Sample.σ1
    = (Sample.σ1_popped, Ok Sample.from_minimal)
  ∧ type_name_in_sync Sample.from_minimal
  ∧ (∃ σ' m,
       Message.with_content Sample.bare {[ "a" := PInt 1 ]} 0.5 "uid-9"
         Sample.σ0 = (σ', Ok m)
       ∧ type_name_in_sync m)
  ∧ (∃ σ' m,
       Message.create_reply Sample.full (PStr "LOG") (PRef 1) 0.5 "uid-9"
         Sample.σ0 = (σ', Ok m)
       ∧ type_name_in_sync m).
Proof.
  destruct built_in_sync as (Hinit & Hwith & Hreply & Hfrom).
  assert (Message.from_dict 3 0.5 "uid-9" Sample.σ1
          = (Sample.σ1_popped, Ok Sample.from_minimal)) as Hrun
    by (vm_compute; reflexivity).
  split; [reflexivity|]. split; [exact Hrun|].
  split; [exact (Hfrom _ _ _ _ _ _ Hrun)|].
  split.
  - destruct (Message.with_content Sample.bare {[ "a" := PInt 1 ]} 0.5 "uid-9"
                Sample.σ0) as [σ' [m|e]] eqn:Hw; [|by vm_compute in Hw].
    exists σ', m. split; [reflexivity|]. exact (Hwith _ _ _ _ _ _ _ Hw).
  - destruct (Message.create_reply Sample.full (PStr "LOG") (PRef 1) 0.5
                "uid-9" Sample.σ0) as [σ' [m|e]] eqn:Hr;
      [|by vm_compute in Hr].
    exists σ', m. split; [reflexivity|]. exact (Hreply _ _ _ _ _ _ _ _ Hr).
Defined.

End MoreInstances.

Section AgentInstances.
Import EventBus BaseAgent.

Lemma send_message_stamps_witness :
  event_bus Cases.registered_agent = true
  ∧ 0 < max_history_size Sample.bus
  ∧ (∃ self' bus',
       send_message Cases.registered_agent Sample.bare Sample.bus
       = (self', bus', set_sender (PStr "agent-1") Sample.bare, Ok tt)
       ∧ last (message_history bus')
         = Some (set_sender (PStr "agent-1") Sample.bare))
  ∧ event_bus Cases.agent = false
  ∧ send_message Cases.agent Sample.bare Sample.bus
    = (BaseAgent.log ERROR
         [Text "Cannot send message: Agent not registered with event bus"]
         Cases.agent,
       Sample.bus, Sample.bare, Ok tt).
Proof.
  split; [reflexivity|]. split; [reflexivity|].
  split.
  - destruct (send_message_stamps Cases.registered_agent Sample.bare Sample.bus)
      as [Hsent _].
    destruct (Hsent eq_refl eq_refl) as (self' & bus' & Hrun & Hlast & _).
    by exists self', bus'.
  - split; [reflexivity|].
    destruct (send_message_stamps Cases.agent Sample.bare Sample.bus)
      as [_ Hnot].
    exact (Hnot eq_refl).
Defined.

Lemma own_messages_not_handled_witness :
  event_bus Cases.registered_agent = true
  ∧ agent_id Cases.registered_agent = Some "agent-1"
  ∧ Message.sender Cases.sent.1.2 = PStr "agent-1"
  ∧ process_message (H := Cases.handlers) Cases.sent.1.1.1 Cases.sent.1.2
      Sample.σ0
    = (Cases.sent.1.1.1, Sample.σ0, Returned)
  ∧ Message.sender Cases.from_other ≠ PStr "agent-1"
  ∧ (process_message (H := Cases.handlers) Cases.registered_agent
       Cases.from_other Sample.σ0).2
    = Returned
  ∧ (process_message (H := Cases.handlers) Cases.registered_agent
       Cases.from_other Sample.σ0).1.2 !! 2%positive
    = Some {[ "calls" := PInt 1 ]}.
Proof.
  assert (Message.sender Cases.from_other ≠ PStr "agent-1") as Hne
    by discriminate.
  destruct (own_messages_not_handled (H := Cases.handlers)
              Cases.registered_agent Sample.bare Sample.bus Sample.σ0 "agent-1"
              eq_refl eq_refl) as [Hown _].
  destruct (own_messages_not_handled (H := Cases.handlers)
              Cases.registered_agent Cases.from_other Sample.bus Sample.σ0
              "agent-1" eq_refl eq_refl) as [_ Hother].
  destruct (Hown Cases.sent.1.1.1 Cases.sent.1.1.2 Cases.sent.1.2 Cases.sent.2
              eq_refl) as [Hsender Hskip].
  split; [reflexivity|]. split; [reflexivity|]. split; [exact Hsender|].
  split; [exact Hskip|]. split; [exact Hne|].
  rewrite (Hother Hne). split; reflexivity.
Defined.


End AgentInstances.

Section ConfigInstances.
Import Config.

Lemma env_reference_in_dict_witness :
  lookup "api_key" Cases.llm_config = Some (VStr "${OPENAI_API_KEY}")
  ∧ lookup "organization" Cases.llm_config = Some (VStr "${OPENAI_ORG}")
  ∧ (∃ items' logs,
       process_env_vars Cases.environ (VDict Cases.llm_config)
       = (VDict items', logs)
       ∧ items'.*1 = ["provider"; "api_key"; "organization"]
       ∧ lookup "api_key" items' = Some (VStr "sk-12345678")
       ∧ lookup "organization" items' = Some (VStr "${OPENAI_ORG}")).
Proof.
  split; [reflexivity|]. split; [reflexivity|].
  destruct (env_reference_in_dict Cases.environ Cases.llm_config "api_key"
              "OPENAI_API_KEY" eq_refl)
    as (items' & logs & Hrun & Hkeys & Hkey).
  destruct (env_reference_in_dict Cases.environ Cases.llm_config "organization"
              "OPENAI_ORG" eq_refl)
    as (items2 & logs2 & Hrun2 & _ & Horg).
  rewrite Hrun in Hrun2. injection Hrun2 as <- <-.
  by exists items', logs.
Defined.

Lemma env_reference_in_list_witness :
  [VStr "${HOME}"] !! 0%nat = Some (VStr "${HOME}")
  ∧ Cases.environ !! "HOME" = Some "/root"
  ∧ ∃ items' logs,
      process_env_vars Cases.environ (VList [VStr "${HOME}"])
      = (VList items', logs)
      ∧ items' !! 0%nat = Some (VStr "${HOME}").
Proof.
  split; [reflexivity|]. split; [by vm_compute|].
  destruct (env_reference_in_list Cases.environ [VStr "${HOME}"] 0
              "${HOME}" eq_refl)
    as (items' & logs & Hrun & _ & Hitem).
  by exists items', logs.
Defined.

Lemma process_env_vars_idempotent_witness :
  map_Forall
    (λ _ env_value,
       String.prefix "${" env_value && endswith "}" env_value = false)
    Cases.environ
  ∧ (process_env_vars Cases.environ
       (process_env_vars Cases.environ (VDict Cases.base_config)).1).1
    = (process_env_vars Cases.environ (VDict Cases.base_config)).1.
Proof.
  assert (map_Forall
            (λ _ env_value,
               String.prefix "${" env_value && endswith "}" env_value = false)
            Cases.environ) as Henv
    by (apply (bool_decide_unpack _); vm_compute; exact I).
  split; [exact Henv|].
  exact (process_env_vars_idempotent Cases.environ (VDict Cases.base_config)
           Henv).
Defined.

Lemma required_env_vars_masked_witness :
  ("EMAIL_PASSWORD" ∈ required_vars)
  ∧ Cases.environ !! "EMAIL_PASSWORD" = Some "pässwörd"
  ∧ "pässwörd" ≠ ""
  ∧ len "pässwörd" = 8%nat
  ∧ lookup "EMAIL_PASSWORD" (get_required_env_vars Cases.environ).1
    = Some "päss****"
  ∧ ∃ shown,
      lookup "EMAIL_PASSWORD" (get_required_env_vars Cases.environ).1
      = Some shown
      ∧ len shown = 8%nat
      ∧ slice_to 4 shown = "päss"
      ∧ chars shown !! 4%nat = Some "*"
      ∧ chars shown !! 7%nat = Some "*".
Proof.
  assert ("EMAIL_PASSWORD" ∈ required_vars) as Hvar
    by (apply (bool_decide_unpack _); vm_compute; exact I).
  assert (Cases.environ !! "EMAIL_PASSWORD" = Some "pässwörd") as Henv
    by (vm_compute; reflexivity).
  assert ("pässwörd" ≠ "") as Hne by discriminate.
  split; [exact Hvar|]. split; [exact Henv|]. split; [exact Hne|].
  split; [reflexivity|]. split; [vm_compute; reflexivity|].
  destruct (required_env_vars_masked Cases.environ "EMAIL_PASSWORD"
              "pässwörd" Hvar Henv Hne)
    as (shown & Hshown & Hlen & Hhead & _ & Hmask).
  destruct (Hmask eq_refl) as [_ Hstars].
  exists shown. split; [exact Hshown|]. split; [exact Hlen|].
  split; [exact Hhead|]. split; apply Hstars; simpl; lia.
Defined.

Lemma required_env_vars_missing_witness :
  ("SLACK_BOT_TOKEN" ∈ required_vars)
  ∧ Cases.environ !! "SLACK_BOT_TOKEN" = Some ""
  ∧ lookup "SLACK_BOT_TOKEN" (get_required_env_vars Cases.environ).1 = None
  ∧ (∃ text, (get_required_env_vars Cases.environ).2 = [(WARNING, text)])
  ∧ ("HOME" ∉ required_vars)
  ∧ lookup "HOME" (get_required_env_vars Cases.environ).1 = None.
Proof.
  assert ("SLACK_BOT_TOKEN" ∈ required_vars) as Hvar
    by (apply (bool_decide_unpack _); vm_compute; exact I).
  assert (Cases.environ !! "SLACK_BOT_TOKEN" = Some "") as Henv
    by (vm_compute; reflexivity).
  assert ("HOME" ∉ required_vars) as Hhome
    by (apply (bool_decide_unpack _); vm_compute; exact I).
  destruct (required_env_vars_missing Cases.environ "SLACK_BOT_TOKEN")
    as [Hmissing _].
  destruct (Hmissing Hvar (or_intror Henv)) as [Hnone Hwarn].
  destruct (required_env_vars_missing Cases.environ "HOME") as [_ Hother].
  split; [exact Hvar|]. split; [exact Henv|]. split; [exact Hnone|].
  split; [exact Hwarn|]. split; [exact Hhome | exact (Hother Hhome)].
Defined.

End ConfigInstances.

Section MergeInstances.
Import Config.

Lemma config_base_reads :
  reads Cases.config_heap (VDict Cases.base_config) (ODict 1).
Proof.
  apply reads_dict. eexists _, _. split; [done|]. split; [done|].
  split; [done|]. split; [apply (bool_decide_unpack _); by vm_compute|].
  intros k v Hv. apply lookup_elem in Hv.
  unfold Cases.base_config in Hv.
  repeat (apply elem_of_cons in Hv as [[= -> ->]|Hv]);
    [..|by apply elem_of_nil in Hv].
  - eexists. split; [done|]. apply reads_dict. eexists _, _.
    split; [done|]. split; [done|]. split; [done|].
    split; [apply (bool_decide_unpack _); by vm_compute|].
    intros k v Hv. apply lookup_elem in Hv. unfold Cases.llm_config in Hv.
    repeat (apply elem_of_cons in Hv as [[= -> ->]|Hv]);
      [..|by apply elem_of_nil in Hv]; by eexists.
  - eexists. split; [done|]. apply reads_dict. eexists _, _.
    split; [done|]. split; [done|]. split; [done|].
    split; [apply NoDup_nil_2|]. done.
  - by eexists.
Qed.

Lemma config_override_reads :
  reads Cases.config_heap (VDict Cases.override_config) (ODict 4).
Proof.
  apply reads_dict. eexists _, _. split; [done|]. split; [done|].
  split; [done|]. split; [apply (bool_decide_unpack _); by vm_compute|].
  intros k v Hv. apply lookup_elem in Hv.
  unfold Cases.override_config in Hv.
  repeat (apply elem_of_cons in Hv as [[= -> ->]|Hv]);
    [..|by apply elem_of_nil in Hv].
  - eexists. split; [done|]. apply reads_dict. eexists _, _.
    split; [done|]. split; [done|]. split; [done|].
    split; [apply (bool_decide_unpack _); by vm_compute|].
    intros k v Hv. apply lookup_elem in Hv.
    repeat (apply elem_of_cons in Hv as [[= -> ->]|Hv]);
      [..|by apply elem_of_nil in Hv]; by eexists.
  - by eexists.
  - by eexists.
Qed.

Lemma config_base_locs :
  locs Cases.config_heap (VDict Cases.base_config) (ODict 1)
  = [1; 2; 3]%positive.
Proof. reflexivity. Qed.

Lemma config_override_locs :
  locs Cases.config_heap (VDict Cases.override_config) (ODict 4)
  = [4; 5]%positive.
Proof. reflexivity. Qed.

Lemma config_apart l :
  l ∈ locs Cases.config_heap (VDict Cases.base_config) (ODict 1) →
  l ∉ locs Cases.config_heap (VDict Cases.override_config) (ODict 4).
Proof.
  rewrite config_base_locs, config_override_locs.
  revert l. apply Forall_forall. apply (bool_decide_unpack _). by vm_compute.
Qed.

Lemma config_base_tree :
  NoDup (locs Cases.config_heap (VDict Cases.base_config) (ODict 1)).
Proof.
  rewrite config_base_locs. apply (bool_decide_unpack _). by vm_compute.
Qed.

Lemma deep_merge_entries_witness :
  reads Cases.config_heap (VDict Cases.base_config) (ODict 1)
  ∧ NoDup (locs Cases.config_heap (VDict Cases.base_config) (ODict 1))
  ∧ reads Cases.config_heap (VDict Cases.override_config) (ODict 4)
  ∧ (depth (VDict Cases.override_config) ≤ 2)%nat
  ∧ ∃ σ',
      deep_merge 2 1 4 Cases.config_heap = (σ', None)
      ∧ reads σ' (VDict (tree_merge Cases.base_config Cases.override_config))
          (ODict 1)
      ∧ σ' !! 4%positive = Cases.config_heap !! 4%positive
      ∧ lookup "llm" (tree_merge Cases.base_config Cases.override_config)
        = Some (VDict [ ("provider", VStr "local");
                        ("api_key", VStr "${OPENAI_API_KEY}");
                        ("organization", VStr "${OPENAI_ORG}") ])
      ∧ lookup "agents" (tree_merge Cases.base_config Cases.override_config)
        = Some (VInt 3)
      ∧ lookup "paths" (tree_merge Cases.base_config Cases.override_config)
        = Some (VList [VStr "${HOME}"]).
Proof.
  assert (depth (VDict Cases.override_config) ≤ 2)%nat as Hdepth
    by (vm_compute; lia).
  split; [exact config_base_reads|]. split; [exact config_base_tree|].
  split; [exact config_override_reads|]. split; [exact Hdepth|].
  destruct (deep_merge_entries 2 Cases.config_heap 1 4 Cases.base_config
              Cases.override_config config_base_reads config_base_tree
              config_override_reads config_apart Hdepth)
    as (σ' & Hrun & Hrm & _ & Hframe & Hentries).
  exists σ'. split; [exact Hrun|]. split; [exact Hrm|].
  split; [|split; [exact (Hentries "llm")|
           split; [exact (Hentries "agents")|exact (Hentries "paths")]]].
  apply Hframe. rewrite config_base_locs.
  apply (bool_decide_unpack _). by vm_compute.
Defined.


Lemma deep_merge_key_order_witness :
  Cases.shared_heap !! 1%positive
  = Some [("defaults", ODict 2); ("worker", ODict 2)]
  ∧ Cases.shared_heap !! 3%positive = Some [("worker", ODict 4)]
  ∧ NoDup ["worker"]
  ∧ unheld Cases.shared_heap 1
  ∧ deep_merge 2 1 3 Cases.shared_heap
    = (<[2%positive := [("timeout", OInt 9)]]> Cases.shared_heap, None)
  ∧ (∃ d, (<[2%positive := [("timeout", OInt 9)]]> Cases.shared_heap)
            !! 1%positive = Some d
          ∧ d.*1 = ["defaults"; "worker"])
  ∧ ∃ σ', deep_merge 2 1 4 Cases.config_heap = (σ', None).
Proof.
  assert (NoDup ["worker"]) as Hnd
    by (apply (bool_decide_unpack _); by vm_compute).
  assert (unheld Cases.shared_heap 1) as Hun
    by (apply (bool_decide_unpack _); by vm_compute).
  assert (deep_merge 2 1 3 Cases.shared_heap
          = (<[2%positive := [("timeout", OInt 9)]]> Cases.shared_heap, None))
    as Hrun by (vm_compute; reflexivity).
  assert (depth (VDict Cases.override_config) ≤ 2)%nat as Hdepth
    by (vm_compute; lia).
  assert (unheld Cases.config_heap 1) as Hun'
    by (apply (bool_decide_unpack _); by vm_compute).
  assert (NoDup ["llm"; "debug"; "agents"]) as Hnd'
    by (apply (bool_decide_unpack _); by vm_compute).
  destruct (deep_merge_key_order 2 Cases.shared_heap 1 3 _ _ eq_refl eq_refl
              Hnd Hun) as [Hkeys _].
  destruct (deep_merge_key_order 2 Cases.config_heap 1 4 _ _ eq_refl eq_refl
              Hnd' Hun') as [_ Hreturns].
  split; [reflexivity|]. split; [reflexivity|]. split; [exact Hnd|].
  split; [exact Hun|]. split; [exact Hrun|].
  split.
  - destruct (Hkeys _ Hrun) as (d & Hd & Hk & _). by exists d.
  - exact (Hreturns Cases.base_config Cases.override_config config_base_reads
             config_base_tree config_override_reads config_apart Hdepth).
Defined.

End MergeInstances.
